(** * CloudPaste upload core: slug allocation, quota admission, mount
      resolution and the presign / commit / direct-upload handlers.

    Shallow embedding of
      - backend/src/routes/s3UploadRoutes.js  (generateUniqueFileSlug and the
        three route handlers registered by registerS3UploadRoutes), and
      - the API-key service module (createApiKey, updateApiKey,
        getAccessibleMountsByBasicPath).

    Conventions.  SQL tables are lists of rows in table order; [.first()] is
    the first matching row.  The numbers the handlers compute are integers
    in [Z] and [NaN] is [None]; a number of a request body may also be a
    fraction or an infinity.  Arithmetic is exact (the rounding of IEEE
    doubles beyond 2^53 is not modelled).  Strings are ASCII byte strings, so
    [length] is the JavaScript [.length].  Times are milliseconds since the
    epoch; a timestamp column holds the ISO text of an instant, and where
    the code compares such texts the order of the texts is used.  Early
    [return c.json(...)] and [throw] are the left summand of a sum type.
    Random identifiers, the clock, the offset of local time and the outcome
    of calls to the object store are read from an environment record; the
    other collaborators (hashing, MIME lookup, URL building) are functions
    of that record and return normally. *)

From Stdlib Require Import String Ascii List ZArith Lia Bool Arith.
From Stdlib Require Import Permutation Sorted.
Import ListNotations.

Open Scope string_scope.
Open Scope list_scope.
Open Scope Z_scope.

(* ================================================================== *)
(** * JavaScript primitives used by the sources                        *)
(* ================================================================== *)

Module Js.

(** [s.startsWith(p)] *)
Definition startsWith (s p : string) : bool := String.prefix p s.

(** [s.substring(n)]: the characters from index [n] on. *)
Fixpoint substring_from (n : nat) (s : string) : string :=
  match n, s with
  | O, _ => s
  | S _, EmptyString => EmptyString
  | S k, String _ r => substring_from k r
  end.

(** [s.endsWith("/")] *)
Fixpoint endsWithSlash (s : string) : bool :=
  match s with
  | EmptyString => false
  | String c EmptyString => Ascii.eqb c "/"
  | String _ r => endsWithSlash r
  end.

(** [s.replace(/\/+$/, empty)]: drop the maximal run of slashes at the end. *)
Fixpoint stripTrailingSlashes (s : string) : string :=
  match s with
  | EmptyString => EmptyString
  | String c r =>
      let r' := stripTrailingSlashes r in
      if Ascii.eqb c "/" && String.eqb r' EmptyString then EmptyString else String c r'
  end.

(** White space recognised by [trim] and by [parseInt] (ASCII part). *)
Definition isWhite (c : ascii) : bool :=
  let n := nat_of_ascii c in
  (((9 <=? n) && (n <=? 13)) || (n =? 32))%nat.

Fixpoint trimStart (s : string) : string :=
  match s with
  | EmptyString => EmptyString
  | String c r => if isWhite c then trimStart r else s
  end.

Fixpoint trimEnd (s : string) : string :=
  match s with
  | EmptyString => EmptyString
  | String c r =>
      let r' := trimEnd r in
      if isWhite c && String.eqb r' EmptyString then EmptyString else String c r'
  end.

(** [s.trim()] *)
Definition trim (s : string) : string := trimEnd (trimStart s).

(** The values of a JSON body field that the handlers convert or test:
    absent, [null], a number, a string.  A number is given by the decimal
    digits JavaScript prints for it.  [Num z] is the integer-valued number
    printed with the digits of [z] ([Num (10 ^ 21)] is the number printed as
    [1e+21]); from [2 ^ 1024] on, beyond the largest finite number, it is
    an infinity.  [Frac m e] is the number [m * 10 ^ e], written for a
    negative [e] ([Frac 15 (-1)] is 1.5).  Booleans, arrays and objects are
    outside the model. *)
Inductive Val : Type :=
| Undefined
| Null
| Num (z : Z)
| Frac (m e : Z)
| Str (s : string).

(** Whether [Num z] is [Infinity] or [-Infinity]. *)
Definition infinite (z : Z) : bool := 2 ^ 1024 <=? Z.abs z.

(** Truthiness, as tested by [if (v)], [v && ...], [v || d] and [v ? a : b]. *)
Definition truthy (v : Val) : bool :=
  match v with
  | Undefined | Null => false
  | Num z => negb (z =? 0)
  | Frac m e => negb (m =? 0)
  | Str s => negb (String.eqb s EmptyString)
  end.

(** Truthiness of an optional string ([undefined] or a string). *)
Definition truthyStr (o : option string) : bool :=
  match o with
  | Some s => negb (String.eqb s EmptyString)
  | None => false
  end.

(** Value of a digit in the given radix. *)
Definition digitVal (radix : Z) (c : ascii) : option Z :=
  let n := Z.of_nat (nat_of_ascii c) in
  let d :=
    if (48 <=? n) && (n <=? 57) then Some (n - 48)
    else if (97 <=? n) && (n <=? 122) then Some (n - 87)
    else if (65 <=? n) && (n <=? 90) then Some (n - 55)
    else None in
  match d with
  | Some v => if v <? radix then Some v else None
  | None => None
  end.

(** Longest prefix of digits; [acc = None] until a digit has been read. *)
Fixpoint parseDigits (radix : Z) (acc : option Z) (s : string) : option Z :=
  match s with
  | EmptyString => acc
  | String c r =>
      match digitVal radix c with
      | Some d =>
          parseDigits radix
            (Some (match acc with Some a => a * radix + d | None => d end)) r
      | None => acc
      end
  end.

(** [parseInt(s)] with no radix argument: leading white space, an optional
    sign, an optional [0x] prefix, then the longest run of digits. *)
Definition parseIntStr (s : string) : option Z :=
  let s1 := trimStart s in
  let '(sign, s2) :=
    match s1 with
    | String "-" r => (-1, r)
    | String "+" r => (1, r)
    | _ => (1, s1)
    end in
  let '(radix, s3) :=
    match s2 with
    | String "0" (String "x" r) => (16, r)
    | String "0" (String "X" r) => (16, r)
    | _ => (10, s2)
    end in
  option_map (Z.mul sign) (parseDigits radix None s3).

(** The first decimal digit of a positive integer. *)
Fixpoint leadingDigit (fuel : nat) (z : Z) : Z :=
  match fuel with
  | O => z
  | S k => if z <? 10 then z else leadingDigit k (z / 10)
  end.

(** [parseInt(z)] for a number: the argument is printed first.  Below
    10^21 an integer prints as its decimal numeral and parses back to
    itself.  From 10^21 on it prints in exponent notation ([1e+21],
    [-2.5e+30]) and [parseInt] stops at the point or at the [e]: the result
    is the leading digit, with the sign. *)
Definition parseIntNum (z : Z) : Z :=
  if Z.abs z <? 10 ^ 21 then z
  else Z.sgn z * leadingDigit (Z.to_nat (Z.log2 (Z.abs z))) (Z.abs z).

(** The number of decimal digits of a natural number. *)
Fixpoint digitCount (fuel : nat) (z : Z) : Z :=
  match fuel with
  | O => 1
  | S k => if z <? 10 then 1 else 1 + digitCount k (z / 10)
  end.

(** [parseInt(x)] for the number [x = m * 10 ^ e] with [e < 0].  With [k]
    digits in [m], the point of the printed number comes after [n = k + e]
    digits.  For [0 < n <= 21] the number prints as its integer part, a
    point and the fraction, and [parseInt] reads the integer part; for
    [-6 < n <= 0] it prints as [0.] and digits, read as 0; otherwise it
    prints in exponent notation ([5e-7], [1.5e-7]) and [parseInt] reads the
    leading digit. *)
Definition parseIntFrac (m e : Z) : Z :=
  let a := Z.abs m in
  let fuel := Z.to_nat (Z.log2 a) in
  let n := digitCount fuel a + e in
  if (0 <? n) && (n <=? 21) then Z.sgn m * (a / 10 ^ (- e))
  else if (-6 <? n) && (n <=? 0) then 0
  else Z.sgn m * leadingDigit fuel a.

(** [parseInt(v)]; [None] is [NaN].  An infinity prints as [Infinity],
    which has no digit to read. *)
Definition parseInt (v : Val) : option Z :=
  match v with
  | Num z => if infinite z then None else Some (parseIntNum z)
  | Frac m e => if e <? 0 then Some (parseIntFrac m e) else Some (parseIntNum (m * 10 ^ e))
  | Str s => parseIntStr s
  | Undefined | Null => None
  end.

(** A numeric string that consists of digits of the radix only. *)
Definition allDigits (radix : Z) (s : string) : option Z :=
  let fix go (acc : option Z) (s : string) : option Z :=
    match s with
    | EmptyString => acc
    | String c r =>
        match digitVal radix c with
        | Some d => go (Some (match acc with Some a => a * radix + d | None => d end)) r
        | None => None
        end
    end in
  match s with
  | EmptyString => None
  | _ => go None s
  end.

(** The value of a conversion to a number: a decimal [m * 10 ^ e] or an
    infinity.  [NaN] is [None]. *)
Inductive Numeric : Type :=
| Dec (m e : Z)
| PosInf
| NegInf.

(** The longest run of decimal digits at the head of a string: the digits
    appended to [acc], their number, and the rest. *)
Fixpoint takeDigits (acc : Z) (n : nat) (s : string) : Z * nat * string :=
  match s with
  | EmptyString => (acc, n, s)
  | String c r =>
      match digitVal 10 c with
      | Some d => takeDigits (acc * 10 + d) (S n) r
      | None => (acc, n, s)
      end
  end.

(** An unsigned decimal literal: [Infinity], or digits with an optional
    fraction and an optional exponent; at least one digit before or after
    the point, and nothing left over. *)
Definition unsignedDecimal (s : string) : option Numeric :=
  if String.eqb s "Infinity" then Some PosInf
  else
    let '(i, ni, r1) := takeDigits 0 0 s in
    let '(m, nf, r2) :=
      match r1 with
      | String "." r => takeDigits i 0 r
      | _ => (i, O, r1)
      end in
    if (ni + nf =? 0)%nat then None
    else
      match r2 with
      | EmptyString => Some (Dec m (- Z.of_nat nf))
      | String c r3 =>
          if Ascii.eqb c "e" || Ascii.eqb c "E" then
            let '(esign, r4) :=
              match r3 with
              | String "-" r => (-1, r)
              | String "+" r => (1, r)
              | _ => (1, r3)
              end in
            let '(ev, ne, r5) := takeDigits 0 0 r4 in
            if (ne =? 0)%nat || negb (String.eqb r5 EmptyString) then None
            else Some (Dec m (esign * ev - Z.of_nat nf))
          else None
      end.

Definition negate (x : Numeric) : Numeric :=
  match x with
  | Dec m e => Dec (- m) e
  | PosInf => NegInf
  | NegInf => PosInf
  end.

(** [Number(s)] for a string: surrounding white space is ignored, the empty
    string is 0, a hexadecimal, octal or binary literal carries no sign, a
    decimal literal may carry one, anything else gives [NaN]. *)
Definition toNumberStr (s : string) : option Numeric :=
  let int (o : option Z) := option_map (fun z => Dec z 0) o in
  match trim s with
  | EmptyString => Some (Dec 0 0)
  | String "0" (String "x" r) => int (allDigits 16 r)
  | String "0" (String "X" r) => int (allDigits 16 r)
  | String "0" (String "o" r) => int (allDigits 8 r)
  | String "0" (String "O" r) => int (allDigits 8 r)
  | String "0" (String "b" r) => int (allDigits 2 r)
  | String "0" (String "B" r) => int (allDigits 2 r)
  | String "-" r => option_map negate (unsignedDecimal r)
  | String "+" r => unsignedDecimal r
  | t => unsignedDecimal t
  end.

(** [Number(v)] as used by the relational operators. *)
Definition toNumber (v : Val) : option Numeric :=
  match v with
  | Num z => if infinite z then Some (if 0 <? z then PosInf else NegInf) else Some (Dec z 0)
  | Frac m e => Some (Dec m e)
  | Str s => toNumberStr s
  | Null => Some (Dec 0 0)
  | Undefined => None
  end.

(** [a > b] on numbers; a comparison with [NaN] is false. *)
Definition gt (a b : option Z) : bool :=
  match a, b with
  | Some x, Some y => y <? x
  | _, _ => false
  end.

(** [a > b] for a converted value [a] and an integer [b]. *)
Definition gtNumeric (a : option Numeric) (b : option Z) : bool :=
  match a, b with
  | Some (Dec m e), Some y =>
      if 0 <=? e then y <? m * 10 ^ e else y * 10 ^ (- e) <? m
  | Some PosInf, Some _ => true
  | _, _ => false
  end.

(** [a + b] and [a * b] on numbers. *)
Definition add (a b : option Z) : option Z :=
  match a, b with
  | Some x, Some y => Some (x + y)
  | _, _ => None
  end.

Definition mul (a b : option Z) : option Z :=
  match a, b with
  | Some x, Some y => Some (x * y)
  | _, _ => None
  end.

(** The test [/^[a-zA-Z0-9_-]+$/] (no flags: [$] is the end of input). *)
Definition isSlugChar (c : ascii) : bool :=
  let n := nat_of_ascii c in
  (((48 <=? n) && (n <=? 57)) || ((65 <=? n) && (n <=? 90))
   || ((97 <=? n) && (n <=? 122)) || (n =? 95) || (n =? 45))%nat.

Fixpoint allChars (p : ascii -> bool) (s : string) : bool :=
  match s with
  | EmptyString => true
  | String c r => p c && allChars p r
  end.

Definition slugFormatRegexTest (s : string) : bool :=
  negb (String.eqb s EmptyString) && allChars isSlugChar s.

(** Time values of [Date], in milliseconds since the epoch. *)
Definition msPerDay : Z := 86400000.

Definition msPerHour : Z := 3600000.

(** [TimeClip]: a time value beyond 8.64e15 is [NaN], an invalid date. *)
Definition maxTime : Z := 8640000000000000.

Definition timeClip (t : Z) : option Z :=
  if Z.abs t <=? maxTime then Some t else None.

(** Year, month (1 to 12) and day of the month of a day number (days since
    1970-01-01) in the proleptic Gregorian calendar with a year 0. *)
Definition civilFromDays (days : Z) : Z * Z * Z :=
  let z := days + 719468 in
  let era := z / 146097 in
  let doe := z - era * 146097 in
  let yoe := (doe - doe / 1460 + doe / 36524 - doe / 146096) / 365 in
  let doy := doe - (365 * yoe + yoe / 4 - yoe / 100) in
  let mp := (5 * doy + 2) / 153 in
  let d := doy - (153 * mp + 2) / 5 + 1 in
  let m := if mp <? 10 then mp + 3 else mp - 9 in
  let y := yoe + era * 400 in
  (if m <=? 2 then y + 1 else y, m, d).

(** [YearFromTime(t)] and [DateFromTime(t)]. *)
Definition yearFromTime (t : Z) : Z := fst (fst (civilFromDays (t / msPerDay))).

Definition dateFromTime (t : Z) : Z := snd (civilFromDays (t / msPerDay)).

(** The order of the texts [toISOString] gives, as SQL compares them (byte
    by byte).  The text of a year from 0000 to 9999 starts with a digit,
    that of a later year with [+] and six digits, that of a year before 0
    with [-] and six digits; [+] sorts before [-], and [-] before the
    digits.  All fields have a fixed width, so within the years that share
    a first character the texts are ordered as the instants are, except
    before the year 0, where the year is printed without its sign: there a
    larger number of years sorts later. *)
Definition yearZero : Z := -62167219200000.

Definition yearTenThousand : Z := 253402300800000.

Definition isoRank (t : Z) : Z :=
  if t <? yearZero then 1 else if t <? yearTenThousand then 2 else 0.

Definition isoYearKey (t : Z) : Z :=
  if t <? yearZero then - yearFromTime t else 0.

Definition isoTextLt (a b : Z) : bool :=
  (isoRank a <? isoRank b)
  || ((isoRank a =? isoRank b)
      && ((isoYearKey a <? isoYearKey b)
          || ((isoYearKey a =? isoYearKey b) && (a <? b)))).

End Js.

(* ================================================================== *)
(** * Data model: the rows of the metadata store and the object store  *)
(* ================================================================== *)

(** A row of the [s3_configs] table (the columns the handlers read). *)
Record S3Config : Type := mkS3Config {
  c_id : string;
  c_admin_id : option string;
  c_is_public : Z;
  c_is_default : Z;
  c_total_storage_bytes : option Z;
  c_default_folder : option string;
  c_provider_type : string;
  c_bucket_name : string
}.

(** A row of the [files] table.  Columns an INSERT does not list take their
    default, modelled as [None]. *)
Record FileRecord : Type := mkFileRecord {
  f_id : string;
  f_slug : string;
  f_filename : string;
  f_storage_path : string;
  f_s3_url : string;
  f_s3_config_id : string;
  f_mimetype : string;
  f_size : Z;
  f_etag : option string;
  f_created_by : option string;
  f_remark : option string;
  f_password : option string;
  f_expires_at : option Z;
  f_max_views : option Z;
  f_use_proxy : option Z
}.

(** A row of the [file_passwords] table. *)
Record FilePassword : Type := mkFilePassword {
  p_file_id : string;
  p_plain_password : string
}.

(** A row of the [storage_mounts] table. *)
Record Mount : Type := mkMount {
  m_name : string;
  m_storage_type : string;
  m_storage_config_id : string;
  m_mount_path : string;
  m_is_active : Z;
  m_sort_order : Z
}.

(** A row of the mount query: the mount columns and the [is_public] column
    of the LEFT JOINed storage configuration ([None] when there is none). *)
Record MountRow : Type := mkMountRow {
  r_mount : Mount;
  is_public : option Z
}.

Definition storage_type (r : MountRow) : string := m_storage_type (r_mount r).
Definition storage_config_id (r : MountRow) : string := m_storage_config_id (r_mount r).
Definition mount_path (r : MountRow) : string := m_mount_path (r_mount r).

(** A row of the [api_keys] table; times are milliseconds since the epoch. *)
Record ApiKey : Type := mkApiKey {
  k_id : string;
  k_name : string;
  k_key : string;
  k_text_permission : Z;
  k_file_permission : Z;
  k_mount_permission : Z;
  k_basic_path : string;
  k_expires_at : option Z;
  k_created_at : Z
}.

(** The metadata store, the object store (pairs of a configuration id and an
    object key) and the two side effects delegated to collaborators: cache
    invalidation per configuration and the touch of the ancestor
    directories of a key. *)
Record World : Type := mkWorld {
  files : list FileRecord;
  file_passwords : list FilePassword;
  s3_configs : list S3Config;
  storage_mounts : list Mount;
  api_keys : list ApiKey;
  max_upload_size : option string;
  objects : list (string * string);
  cache_cleared : list string;
  dirs_touched : list (string * string)
}.

(** Outcome of [deleteFileFromS3]: it resolves to [true], to [false], or
    rejects. *)
Inductive DeleteOutcome : Type := DeleteOk | DeleteRefused | DeleteThrows.

(** Outcome of a PUT to the object store: the ETag header or result field
    (possibly absent), or a failure. *)
Inductive PutOutcome : Type := PutOk (etag : option string) | PutFails.

(** External collaborators and per-request nondeterminism. *)
Record Env : Type := mkEnv {
  generateFileId : string;
  slugCandidates : nat -> string;      (* generateShortId() inside the slug loop *)
  generateShortId : string;            (* generateShortId() for the storage key *)
  hashPassword : string -> string;
  getMimeTypeFromFilename : string -> string;
  getFileNameAndExt : string -> string * string;
  getSafeFileName : string -> string;
  normalizeS3SubPath : string -> S3Config -> bool -> string;
  buildS3Url : S3Config -> string -> string;
  generatePresignedPutUrl : S3Config -> string -> string -> string;
  generatePresignedUrl : S3Config -> string -> bool -> string -> string;
  deleteFileFromS3 : S3Config -> string -> DeleteOutcome;
  putObject : S3Config -> string -> PutOutcome;
  now : Z;                             (* new Date() *)
  now2 : Z;                            (* a second new Date() in the same call *)
  localTZA : Z -> bool -> Z;           (* LocalTZA(t, isUTC): offset of local time *)
  parseDate : string -> option Z;
  randomUUID : string;
  generateRandomString : string;
  requestBaseUrl : string;
  encodeURIComponent : string -> string
}.

(** What the authentication middleware left in the request context, as read
    through [PermissionUtils.isAdmin], [getUserId], [getAuthType] and
    [getApiKeyInfo] (the basic path of the key, when there is one). *)
Inductive AuthType : Type := AuthAdmin | AuthApiKey | AuthOther.

Record Caller : Type := mkCaller {
  isAdmin : bool;
  userId : string;
  authType : AuthType;
  apiKeyInfo : option (option string)   (* apiKeyInfo, then apiKeyInfo.basicPath *)
}.

Definition AuthType_eqb (a b : AuthType) : bool :=
  match a, b with
  | AuthAdmin, AuthAdmin | AuthApiKey, AuthApiKey | AuthOther, AuthOther => true
  | _, _ => false
  end.

(** [`apikey:${userId}`] *)
Definition apikeyCreator (uid : string) : string := "apikey:" ++ uid.

(* ================================================================== *)
(** * Queries                                                          *)
(* ================================================================== *)

(** [x === y] between a nullable column and a string. *)
Definition optStrEqb (o : option string) (s : string) : bool :=
  match o with
  | Some t => String.eqb t s
  | None => false
  end.

(** [SELECT ... FROM files WHERE slug = ?] [.first()] *)
Definition fileBySlug (w : World) (s : string) : option FileRecord :=
  find (fun f => String.eqb (f_slug f) s) (files w).

(** [SELECT ... FROM files WHERE id = ?] [.first()] *)
Definition fileById (w : World) (i : string) : option FileRecord :=
  find (fun f => String.eqb (f_id f) i) (files w).

(** [SELECT * FROM s3_configs WHERE id = ?] [.first()] *)
Definition configById (w : World) (i : string) : option S3Config :=
  find (fun c => String.eqb (c_id c) i) (s3_configs w).

(** [SUM(size)] over the selected rows: NULL when no row is selected. *)
Definition sqlSum (rows : list FileRecord) : option Z :=
  match rows with
  | [] => None
  | _ => Some (fold_right (fun f acc => f_size f + acc) 0 rows)
  end.

(** [usageResult?.total_used || 0] *)
Definition orZero (o : option Z) : Z :=
  match o with
  | Some z => if z =? 0 then 0 else z
  | None => 0
  end.

(** [SELECT SUM(size) FROM files WHERE s3_config_id = ?], then [|| 0]. *)
Definition currentUsage (w : World) (cfg : string) : Z :=
  orZero (sqlSum (filter (fun f => String.eqb (f_s3_config_id f) cfg) (files w))).

(** [SELECT SUM(size) FROM files WHERE s3_config_id = ? AND id != ?], then
    [|| 0]. *)
Definition currentUsageExcluding (w : World) (cfg fid : string) : Z :=
  orZero (sqlSum (filter (fun f => String.eqb (f_s3_config_id f) cfg
                                   && negb (String.eqb (f_id f) fid)) (files w))).

(** [DELETE FROM files WHERE id = ?] *)
Definition deleteFile (fid : string) (fs : list FileRecord) : list FileRecord :=
  filter (fun f => negb (String.eqb (f_id f) fid)) fs.

(** [DELETE FROM file_passwords WHERE file_id = ?] *)
Definition deletePassword (fid : string) (ps : list FilePassword) : list FilePassword :=
  filter (fun p => negb (String.eqb (p_file_id p) fid)) ps.

(** The object store after [deleteFileFromS3(cfg, key)] with the given
    outcome: the object goes away only when the call resolves to [true]. *)
Definition objectsAfterDelete (o : DeleteOutcome) (cfg key : string)
    (objs : list (string * string)) : list (string * string) :=
  match o with
  | DeleteOk =>
      filter (fun x => negb (String.eqb (fst x) cfg && String.eqb (snd x) key)) objs
  | DeleteRefused | DeleteThrows => objs
  end.

(** World updates, one per table or effect. *)
Definition setFiles (w : World) (fs : list FileRecord) : World :=
  mkWorld fs (file_passwords w) (s3_configs w) (storage_mounts w) (api_keys w)
          (max_upload_size w) (objects w) (cache_cleared w) (dirs_touched w).

Definition setPasswords (w : World) (ps : list FilePassword) : World :=
  mkWorld (files w) ps (s3_configs w) (storage_mounts w) (api_keys w)
          (max_upload_size w) (objects w) (cache_cleared w) (dirs_touched w).

Definition setObjects (w : World) (os : list (string * string)) : World :=
  mkWorld (files w) (file_passwords w) (s3_configs w) (storage_mounts w) (api_keys w)
          (max_upload_size w) os (cache_cleared w) (dirs_touched w).

Definition setApiKeys (w : World) (ks : list ApiKey) : World :=
  mkWorld (files w) (file_passwords w) (s3_configs w) (storage_mounts w) ks
          (max_upload_size w) (objects w) (cache_cleared w) (dirs_touched w).

(** [clearCache({ db, s3ConfigId })] *)
Definition clearCache (w : World) (cfg : string) : World :=
  mkWorld (files w) (file_passwords w) (s3_configs w) (storage_mounts w) (api_keys w)
          (max_upload_size w) (objects w) (cache_cleared w ++ [cfg]) (dirs_touched w).

(** [updateParentDirectoriesModifiedTimeHelper(s3Config, key, secret)] *)
Definition touchAncestors (w : World) (cfg key : string) : World :=
  mkWorld (files w) (file_passwords w) (s3_configs w) (storage_mounts w) (api_keys w)
          (max_upload_size w) (objects w) (cache_cleared w) (dirs_touched w ++ [(cfg, key)]).

(** A stable sort: [leb a b] says that [a] may stay in front of [b]. *)
Section StableSort.
Context {A : Type} (leb : A -> A -> bool).

Fixpoint insertSorted (x : A) (l : list A) : list A :=
  match l with
  | [] => [x]
  | y :: r => if leb x y then x :: l else y :: insertSorted x r
  end.

Fixpoint stableSort (l : list A) : list A :=
  match l with
  | [] => []
  | x :: r => insertSorted x (stableSort r)
  end.
End StableSort.

(* ================================================================== *)
(** * Responses                                                        *)
(* ================================================================== *)

(** The errors [generateUniqueFileSlug] throws. *)
Inductive SlugError : Type :=
| SlugFormatInvalid     (* the format message *)
| SlugTaken             (* the "already taken" message *)
| SlugExhausted.        (* no free random slug within the attempts *)

(** What reaches the outer [catch] of a handler. *)
Inductive Thrown : Type :=
| ThrownSlug (e : SlugError)
| ThrownUpload
| ThrownTypeError
| ThrownRangeError.

(** The error responses of the three handlers. *)
Inductive ApiError : Type :=
| MissingConfigId
| MissingFilename
| MissingFileId
| UploadTooLarge (maxBytes : option Z) (size : Js.Val)
| ConfigNotFound
| InsufficientStorage (fileSize : option Z) (remaining total : Z) (fileDeleted : bool)
| ConfigNotOwned
| SlugConflict
| NoStoragePermission
| FileNotFound
| NotFileOwner
| InvalidConfigAccess
| ApiKeyNeedsPublicConfig
| NoUsableConfig
| OverrideForbidden
| InternalError (cause : Thrown).

(** The HTTP status sent with each error ([ApiStatus]). *)
Definition statusOf (e : ApiError) : Z :=
  match e with
  | MissingConfigId | MissingFilename | MissingFileId => 400
  | UploadTooLarge _ _ => 400
  | InsufficientStorage _ _ _ _ => 400
  | InvalidConfigAccess | NoUsableConfig => 400
  | ConfigNotOwned | NoStoragePermission | NotFileOwner => 403
  | ApiKeyNeedsPublicConfig | OverrideForbidden => 403
  | ConfigNotFound | FileNotFound => 404
  | SlugConflict => 409
  | InternalError _ => 500
  end.

Definition isCapacityError (e : ApiError) : bool :=
  match e with InsufficientStorage _ _ _ _ => true | _ => false end.

Definition isSizeLimitError (e : ApiError) : bool :=
  match e with UploadTooLarge _ _ => true | _ => false end.

(** A handler: from a world to a response and the world it leaves. *)
Definition Handler (A : Type) : Type := World -> (ApiError + A) * World.

Definition ret {A : Type} (a : A) : Handler A := fun w => (inr a, w).

Definition fail {A : Type} (e : ApiError) : Handler A := fun w => (inl e, w).

Definition bind {A B : Type} (m : Handler A) (k : A -> Handler B) : Handler B :=
  fun w =>
    match m w with
    | (inl e, w') => (inl e, w')
    | (inr a, w') => k a w'
    end.

Definition getWorld : Handler World := fun w => (inr w, w).

Definition modify (f : World -> World) : Handler unit := fun w => (inr tt, f w).

(** [if (cond) return c.json(error)] *)
Definition rejectIf (cond : bool) (e : ApiError) : Handler unit :=
  if cond then fail e else ret tt.

(** Unwrap a looked-up row or answer with the error. *)
Definition orFail {A : Type} (o : option A) (e : ApiError) : Handler A :=
  match o with
  | Some a => ret a
  | None => fail e
  end.

Notation "x <- m ;; k" := (bind m (fun x => k))
  (at level 61, m at next level, right associativity).
Notation "m ;;; k" := (bind m (fun _ => k))
  (at level 61, right associativity).

(* ================================================================== *)
(** * generateUniqueFileSlug                                           *)
(* ================================================================== *)

Definition maxAttempts : nat := 10.

(** The [while (attempts < maxAttempts)] loop; [remaining] is
    [maxAttempts - attempts]. *)
Fixpoint randomSlugLoop (env : Env) (w : World) (attempts remaining : nat)
    : SlugError + string :=
  match remaining with
  | O => inl SlugExhausted
  | S k =>
      let randomSlug := slugCandidates env attempts in
      match fileBySlug w randomSlug with
      | None => inr randomSlug
      | Some _ => randomSlugLoop env w (S attempts) k
      end
  end.

Definition generateUniqueFileSlug (env : Env) (w : World)
    (customSlug : option string) (override : bool) : SlugError + string :=
  if Js.truthyStr customSlug then
    match customSlug with
    | Some s =>
        if negb (Js.slugFormatRegexTest s) then inl SlugFormatInvalid
        else
          match fileBySlug w s with
          | Some _ => if negb override then inl SlugTaken else inr s
          | None => inr s
          end
    | None => randomSlugLoop env w 0 maxAttempts
    end
  else randomSlugLoop env w 0 maxAttempts.

(** The [try { slug = ... } catch] around the call in both upload routes:
    the conflict becomes a 409, anything else is thrown on to the outer
    [catch], which answers 500. *)
Definition allocateSlug (env : Env) (customSlug : option string) (override : bool)
    : Handler string :=
  w <- getWorld ;;
  match generateUniqueFileSlug env w customSlug override with
  | inr slug => ret slug
  | inl SlugTaken => fail SlugConflict
  | inl e => fail (InternalError (ThrownSlug e))
  end.

(* ================================================================== *)
(** * Quota admission                                                  *)
(* ================================================================== *)

(** [Math.max(0, total - currentUsage)] *)
Definition remainingSpace (total usage : Z) : Z := Z.max 0 (total - usage).

(** POST /api/s3/presign: the pre-check runs only for a truthy declared
    size and a configured ceiling. *)
Definition presignQuota (w : World) (s3Config : S3Config) (s3_config_id : string)
    (size : Js.Val) : option ApiError :=
  match c_total_storage_bytes s3Config with
  | Some total =>
      if Js.truthy size then
        let usage := currentUsage w s3_config_id in
        let fileSize := Js.parseInt size in
        let totalAfterUpload := Js.add (Some usage) fileSize in
        if Js.gt totalAfterUpload (Some total)
        then Some (InsufficientStorage fileSize (remainingSpace total usage) total false)
        else None
      else None
  | None => None
  end.

(** POST /api/s3/commit: usage excludes the record being committed and the
    size is [parseInt(body.size || 0)]. *)
Definition commitQuota (w : World) (s3Config : S3Config) (file : FileRecord)
    (size : Js.Val) : option ApiError :=
  match c_total_storage_bytes s3Config with
  | Some total =>
      let usage := currentUsageExcluding w (f_s3_config_id file) (f_id file) in
      let fileSize := Js.parseInt (if Js.truthy size then size else Js.Num 0) in
      let totalAfterCommit := Js.add (Some usage) fileSize in
      if Js.gt totalAfterCommit (Some total)
      then Some (InsufficientStorage fileSize (remainingSpace total usage) total true)
      else None
  | None => None
  end.

(** PUT /api/upload-direct/:filename: the size is the byte length of the
    request body. *)
Definition directQuota (w : World) (s3Config : S3Config) (s3ConfigId : string)
    (fileSize : Z) : option ApiError :=
  match c_total_storage_bytes s3Config with
  | Some total =>
      let usage := currentUsage w s3ConfigId in
      let totalAfterUpload := usage + fileSize in
      if total <? totalAfterUpload
      then Some (InsufficientStorage (Some fileSize) (remainingSpace total usage) total false)
      else None
  | None => None
  end.

(** The system upload limit in bytes: the [max_upload_size] setting parsed
    as megabytes, 100 when the setting is absent. *)
Definition DEFAULT_MAX_UPLOAD_SIZE_MB : Z := 100.

Definition maxUploadSizeBytes (w : World) : option Z :=
  let maxUploadSizeMB :=
    match max_upload_size w with
    | Some value => Js.parseInt (Js.Str value)
    | None => Some DEFAULT_MAX_UPLOAD_SIZE_MB
    end in
  Js.mul (Js.mul maxUploadSizeMB (Some 1024)) (Some 1024).

(* ================================================================== *)
(** * Mounts: accessibility and longest-prefix resolution              *)
(* ================================================================== *)

(** [ORDER BY sm.sort_order ASC, sm.name ASC] *)
Definition mountOrder (a b : Mount) : bool :=
  (m_sort_order a <? m_sort_order b)
  || ((m_sort_order a =? m_sort_order b) && String.leb (m_name a) (m_name b)).

(** The mount query of [getAccessibleMountsByBasicPath]: active mounts, each
    with the [is_public] flag of its storage configuration. *)
Definition allMounts (w : World) : list MountRow :=
  map (fun m => mkMountRow m (option_map c_is_public (configById w (m_storage_config_id m))))
      (stableSort mountOrder (filter (fun m => m_is_active m =? 1) (storage_mounts w))).

(** [mount.is_public !== 1] *)
Definition notPublic (r : MountRow) : bool :=
  match is_public r with
  | Some v => negb (v =? 1)
  | None => true
  end.

(** The filter callback of [getAccessibleMountsByBasicPath]. *)
Definition mountAccessible (basicPath : string) (mount : MountRow) : bool :=
  if String.eqb (storage_type mount) "S3" && notPublic mount then false
  else
    let normalizedBasicPath :=
      if String.eqb basicPath "/" then "/" else Js.stripTrailingSlashes basicPath in
    let normalizedMountPath :=
      let s := Js.stripTrailingSlashes (mount_path mount) in
      if String.eqb s EmptyString then "/" else s in
    if String.eqb normalizedBasicPath "/" then true
    else if String.eqb normalizedMountPath normalizedBasicPath
            || Js.startsWith normalizedMountPath (normalizedBasicPath ++ "/")
    then true
    else if Js.startsWith normalizedBasicPath (normalizedMountPath ++ "/") then true
    else false.

Definition getAccessibleMountsByBasicPath (rows : list MountRow) (basicPath : string)
    : list MountRow :=
  filter (mountAccessible basicPath) rows.

(** Modelled from the spec: [PermissionUtils.getAccessibleMounts] is not
    among the sources; for an API key it is the accessible-mount computation
    of section 4.1, that is [getAccessibleMountsByBasicPath] on the key's
    basic path. *)
Definition getAccessibleMounts (w : World) (basicPath : string) : list MountRow :=
  getAccessibleMountsByBasicPath (allMounts w) basicPath.

(** [mounts.sort((a, b) => b.mount_path.length - a.mount_path.length)] *)
Definition byPathLengthDesc (a b : MountRow) : bool :=
  (String.length (mount_path b) <=? String.length (mount_path a))%nat.

(** [p.startsWith("/") ? p : "/" + p] *)
Definition withLeadingSlash (p : string) : string :=
  if Js.startsWith p "/" then p else "/" ++ p.

(** The test that the basic path is the mount path or lies below it. *)
Definition mountMatches (basicPath mountPath : string) : bool :=
  String.eqb basicPath mountPath
  || String.eqb basicPath (mountPath ++ "/")
  || Js.startsWith basicPath (mountPath ++ "/").

(** The [for (const mount of mounts)] loop of both upload routes: the first
    mount of the target configuration that matches, with the sub-path left
    after its mount path, given a leading slash. *)
Fixpoint findMountSubPath (s3ConfigId basicPath : string) (mounts : list MountRow)
    : option (MountRow * string) :=
  match mounts with
  | [] => None
  | mount :: rest =>
      if negb (String.eqb (storage_config_id mount) s3ConfigId)
      then findMountSubPath s3ConfigId basicPath rest
      else
        let mountPath := withLeadingSlash (mount_path mount) in
        if mountMatches basicPath mountPath then
          let subPath := Js.substring_from (String.length mountPath) basicPath in
          Some (mount, withLeadingSlash subPath)
        else findMountSubPath s3ConfigId basicPath rest
  end.

(** Sorting by descending mount-path length, then the loop. *)
Definition resolveSubPath (s3ConfigId basicPath : string) (mounts : list MountRow)
    : option (MountRow * string) :=
  findMountSubPath s3ConfigId basicPath (stableSort byPathLengthDesc mounts).

(** [actualStoragePath] *)
Definition actualStoragePath (env : Env) (s3Config : S3Config) (basicPath : string)
    (mounts : list MountRow) : string :=
  match resolveSubPath (c_id s3Config) basicPath mounts with
  | Some (_, subPath) => normalizeS3SubPath env subPath s3Config true
  | None => EmptyString
  end.

(** [s3Config.default_folder], ending with a slash, or empty when unset. *)
Definition folderPath (s3Config : S3Config) : string :=
  match c_default_folder s3Config with
  | Some d =>
      if String.eqb d EmptyString then EmptyString
      else if Js.endsWithSlash d then d else d ++ "/"
  | None => EmptyString
  end.

(** The [customPath] normalisation: a non-blank path is trimmed and ends
    with a slash. *)
Definition normalizeCustomPath (path : option string) : string :=
  let customPath := if Js.truthyStr path then match path with Some p => p | None => EmptyString end else EmptyString in
  if negb (String.eqb customPath EmptyString) && negb (String.eqb (Js.trim customPath) EmptyString) then
    let t := Js.trim customPath in
    if Js.endsWithSlash t then t else t ++ "/"
  else customPath.

(** The storage key of an upload ([storagePath]); [fileNamePart] is the
    file-name component both routes append. *)
Definition storagePathFor (env : Env) (c : Caller) (s3Config : S3Config)
    (customPath fileNamePart : string) : Handler string :=
  match authType c with
  | AuthApiKey =>
      match apiKeyInfo c with
      | Some (Some basicPath) =>
          if negb (String.eqb basicPath EmptyString) && negb (String.eqb basicPath "/") then
            w <- getWorld ;;
            let mounts := getAccessibleMounts w basicPath in
            let hasPermission :=
              existsb (fun mount => String.eqb (storage_config_id mount) (c_id s3Config)) mounts in
            rejectIf (negb hasPermission) NoStoragePermission ;;;
            ret (actualStoragePath env s3Config basicPath mounts
                 ++ folderPath s3Config ++ customPath ++ fileNamePart)%string
          else ret (folderPath s3Config ++ customPath ++ fileNamePart)%string
      | _ => ret (folderPath s3Config ++ customPath ++ fileNamePart)%string
      end
  | _ => ret (folderPath s3Config ++ customPath ++ fileNamePart)%string
  end.

(* ================================================================== *)
(** * Steps shared by the upload routes                                *)
(* ================================================================== *)

(** A truthy optional string, or nothing. *)
Definition nonEmpty (o : option string) : option string :=
  match o with
  | Some s => if String.eqb s EmptyString then None else Some s
  | None => None
  end.

(** The [try { ... } catch (deleteError)] block that removes the record an
    override replaces (presign route and direct route share its text): the
    object is deleted when the configuration of the old record is found,
    then the record, then its password row, then the cache of that
    configuration is cleared.  A rejected [deleteFileFromS3] leaves the
    [try] block at once. *)
Definition removeExisting (env : Env) (existingFile : FileRecord) (w : World) : World :=
  let dropRows (w1 : World) : World :=
    let w2 := setFiles w1 (deleteFile (f_id existingFile) (files w1)) in
    let w3 := setPasswords w2 (deletePassword (f_id existingFile) (file_passwords w2)) in
    clearCache w3 (f_s3_config_id existingFile) in
  match configById w (f_s3_config_id existingFile) with
  | Some s3Config =>
      match deleteFileFromS3 env s3Config (f_storage_path existingFile) with
      | DeleteThrows => w
      | o =>
          dropRows (setObjects w (objectsAfterDelete o (c_id s3Config)
                                    (f_storage_path existingFile) (objects w)))
      end
  | None => dropRows w
  end.

(** [d = new Date(); d.setHours(d.getHours() + hours)]: the hours are added
    to the local time of the clock, [LocalTime(t) = t + LocalTZA(t, true)],
    and the result is taken back with [UTC(t) = t - LocalTZA(t, false)] and
    clipped.  [None] is an invalid date, on which [toISOString] throws a
    RangeError. *)
Definition hoursFromNow (env : Env) (hours : Z) : option Z :=
  let local := now env + localTZA env (now env) true + hours * Js.msPerHour in
  Js.timeClip (local - localTZA env local false).

(** [expiresAt = expiryDate.toISOString()] for a positive number of hours,
    [null] otherwise. *)
Definition expiryAfter (env : Env) (hours : option Z) : Thrown + option Z :=
  match hours with
  | Some h =>
      if 0 <? h then
        match hoursFromNow env h with
        | Some t => inr (Some t)
        | None => inl ThrownRangeError
        end
      else inr None
  | None => inr None
  end.

(** A value computed inside the [try] block, or the answer of its [catch]. *)
Definition orThrow {A : Type} (r : Thrown + A) : Handler A :=
  match r with
  | inr a => ret a
  | inl t => fail (InternalError t)
  end.

(** [getSafeFileName(fileName).substring(0, 50)] *)
Definition safeFileNameOf (env : Env) (fileName : string) : string :=
  String.substring 0 50 (getSafeFileName env fileName).

(* ================================================================== *)
(** * POST /api/s3/presign                                             *)
(* ================================================================== *)

(** The JSON body of a presign request.  [size] and [path] are any value
    of the model; the identifiers, the file name, the slug and the override
    flag, which the handler compares with strings or hands to the store and
    to its collaborators, are strings or absent. *)
Record PresignBody : Type := mkPresignBody {
  pb_s3_config_id : option string;
  pb_filename : option string;
  pb_size : Js.Val;
  pb_path : Js.Val;
  pb_slug : option string;
  pb_override : option string
}.

(** [let customPath = body.path || ""] and its normalisation: a truthy
    value that is not a string has no [trim], and the call throws a
    TypeError. *)
Definition presignCustomPath (path : Js.Val) : Thrown + string :=
  if Js.truthy path then
    match path with
    | Js.Str p => inr (normalizeCustomPath (Some p))
    | _ => inl ThrownTypeError
    end
  else inr EmptyString.

Record PresignData : Type := mkPresignData {
  file_id : string;
  upload_url : string;
  storage_path : string;
  s3_url : string;
  slug : string;
  provider_type : string;
  contentType : string
}.

(** [authType === "admin" ? userId : authType === "apikey" ? `apikey:${userId}` : null] *)
Definition presignCreator (c : Caller) : option string :=
  match authType c with
  | AuthAdmin => Some (userId c)
  | AuthApiKey => Some (apikeyCreator (userId c))
  | AuthOther => None
  end.

(** The placeholder row the presign route inserts. *)
Definition placeholderRecord (c : Caller) (fileId slug filename storagePath s3_url
    s3_config_id mimetype : string) : FileRecord :=
  mkFileRecord fileId slug filename storagePath s3_url s3_config_id mimetype
               0 None (presignCreator c) None None None None None.

(** The override block of the presign route: with [override] and a slug in
    the request, a record that carries the slug is removed. *)
Definition presignOverride (env : Env) (override : bool) (slug : option string)
    : Handler unit :=
  match (if override then nonEmpty slug else None) with
  | Some s =>
      modify (fun w0 =>
                match fileBySlug w0 s with
                | Some existingFile => removeExisting env existingFile w0
                | None => w0
                end)
  | None => ret tt
  end.

Definition presign (env : Env) (c : Caller) (body : PresignBody) : Handler PresignData :=
  s3_config_id <- orFail (nonEmpty (pb_s3_config_id body)) MissingConfigId ;;
  filename <- orFail (nonEmpty (pb_filename body)) MissingFilename ;;
  w <- getWorld ;;
  rejectIf (Js.truthy (pb_size body)
            && Js.gtNumeric (Js.toNumber (pb_size body)) (maxUploadSizeBytes w))
           (UploadTooLarge (maxUploadSizeBytes w) (pb_size body)) ;;;
  s3Config <- orFail (configById w s3_config_id) ConfigNotFound ;;
  match presignQuota w s3Config s3_config_id (pb_size body) with
  | Some e => fail e
  | None => ret tt
  end ;;;
  rejectIf (isAdmin c && negb (optStrEqb (c_admin_id s3Config) (userId c))) ConfigNotOwned ;;;
  let fileId := generateFileId env in
  let override := optStrEqb (pb_override body) "true" in
  slug <- allocateSlug env (pb_slug body) override ;;
  presignOverride env override (pb_slug body) ;;;
  customPath <- orThrow (presignCustomPath (pb_path body)) ;;
  let '(fileName, fileExt) := getFileNameAndExt env filename in
  let safeFileName := safeFileNameOf env fileName in
  let shortId := generateShortId env in
  storagePath <- storagePathFor env c s3Config customPath
                   (shortId ++ "-" ++ safeFileName ++ fileExt)%string ;;
  let mimetype := getMimeTypeFromFilename env filename in
  let upload_url := generatePresignedPutUrl env s3Config storagePath mimetype in
  let s3_url := buildS3Url env s3Config storagePath in
  modify (fun w0 =>
            setFiles w0 (files w0 ++ [placeholderRecord c fileId slug filename storagePath
                                                        s3_url s3_config_id mimetype])) ;;;
  ret (mkPresignData fileId upload_url storagePath s3_url slug
                     (c_provider_type s3Config) mimetype).

(* ================================================================== *)
(** * POST /api/s3/commit                                              *)
(* ================================================================== *)

Record CommitBody : Type := mkCommitBody {
  cb_file_id : option string;
  cb_etag : option string;
  cb_size : Js.Val;
  cb_password : option string;
  cb_expires_in : Js.Val;
  cb_remark : option string;
  cb_max_views : Js.Val
}.

(** The columns of the final SELECT of the commit route. *)
Record FileSummary : Type := mkFileSummary {
  fs_id : string;
  fs_slug : string;
  fs_filename : string;
  fs_storage_path : string;
  fs_s3_url : string;
  fs_mimetype : string;
  fs_size : Z;
  fs_remark : option string
}.

Definition summaryOf (f : FileRecord) : FileSummary :=
  mkFileSummary (f_id f) (f_slug f) (f_filename f) (f_storage_path f) (f_s3_url f)
                (f_mimetype f) (f_size f) (f_remark f).

Record CommitData : Type := mkCommitData {
  updatedFile : FileSummary;
  hasPassword : bool;
  expiresAt : option Z;
  maxViews : option Z;
  url : string
}.

(** The configuration query of the commit route: the administrator's own
    configuration, or a public one for any other caller. *)
Definition commitConfig (w : World) (c : Caller) (file : FileRecord) : option S3Config :=
  if isAdmin c
  then find (fun cfg => String.eqb (c_id cfg) (f_s3_config_id file)
                        && optStrEqb (c_admin_id cfg) (userId c)) (s3_configs w)
  else find (fun cfg => String.eqb (c_id cfg) (f_s3_config_id file)
                        && (c_is_public cfg =? 1)) (s3_configs w).

(** The compensation of a failed commit-time check: the object is deleted
    (a failure of that call is logged and ignored), then the record. *)
Definition rollbackCommit (env : Env) (s3Config : S3Config) (file : FileRecord)
    (w : World) : World :=
  let w1 := setObjects w (objectsAfterDelete
                            (deleteFileFromS3 env s3Config (f_storage_path file))
                            (c_id s3Config) (f_storage_path file) (objects w)) in
  setFiles w1 (deleteFile (f_id file) (files w1)).

(** [expiresAt] of the commit route: set for a truthy [expires_in] that
    parses to a positive number of hours. *)
Definition commitExpiresAt (env : Env) (expires_in : Js.Val) : Thrown + option Z :=
  if Js.truthy expires_in then expiryAfter env (Js.parseInt expires_in) else inr None.

(** [maxViews] of the commit route ([NaN] is bound as NULL). *)
Definition commitMaxViews (max_views : Js.Val) : option Z :=
  if Js.truthy max_views then Js.parseInt max_views else None.

(** [fileSize] of the commit route: [null] when no size is given, 0 for an
    invalid one. *)
Definition commitFileSize (size : Js.Val) : option Z :=
  if Js.truthy size then
    match Js.parseInt size with
    | Some fileSize => if fileSize <? 0 then Some 0 else Some fileSize
    | None => Some 0
    end
  else None.

(** [authType === "admin" ? userId : `apikey:${userId}`] *)
Definition commitCreator (c : Caller) : string :=
  match authType c with
  | AuthAdmin => userId c
  | _ => apikeyCreator (userId c)
  end.

(** The UPDATE statement of the commit route, on one row; [expiresAt] is
    the expiry computed before it. *)
Definition commitUpdateRow (env : Env) (c : Caller) (body : CommitBody)
    (expiresAt : option Z) (f : FileRecord) : FileRecord :=
  mkFileRecord (f_id f) (f_slug f) (f_filename f) (f_storage_path f) (f_s3_url f)
               (f_s3_config_id f) (f_mimetype f)
               (match commitFileSize (cb_size body) with
                | Some fileSize => fileSize
                | None => f_size f
                end)
               (nonEmpty (cb_etag body))
               (Some (commitCreator c))
               (nonEmpty (cb_remark body))
               (option_map (hashPassword env) (nonEmpty (cb_password body)))
               expiresAt
               (commitMaxViews (cb_max_views body))
               (f_use_proxy f).

Definition commitUpdate (env : Env) (c : Caller) (body : CommitBody)
    (expiresAt : option Z) (fid : string) (fs : list FileRecord) : list FileRecord :=
  map (fun f => if String.eqb (f_id f) fid then commitUpdateRow env c body expiresAt f else f)
      fs.

(** The upsert of the plaintext password row. *)
Definition upsertPassword (fid password : string) (ps : list FilePassword)
    : list FilePassword :=
  match find (fun p => String.eqb (p_file_id p) fid) ps with
  | Some _ =>
      map (fun p => if String.eqb (p_file_id p) fid then mkFilePassword fid password else p) ps
  | None => ps ++ [mkFilePassword fid password]
  end.

(** The validation at the head of the commit route: the file id, the
    record, the ownership of the record and the configuration. *)
Definition commitLookup (c : Caller) (body : CommitBody)
    : Handler (string * FileRecord * S3Config) :=
  fid <- orFail (nonEmpty (cb_file_id body)) MissingFileId ;;
  w <- getWorld ;;
  file <- orFail (fileById w fid) FileNotFound ;;
  rejectIf (isAdmin c && Js.truthyStr (f_created_by file)
            && negb (optStrEqb (f_created_by file) (userId c))) NotFileOwner ;;;
  rejectIf (AuthType_eqb (authType c) AuthApiKey && Js.truthyStr (f_created_by file)
            && negb (optStrEqb (f_created_by file) (apikeyCreator (userId c)))) NotFileOwner ;;;
  s3Config <- orFail (commitConfig w c file) InvalidConfigAccess ;;
  ret (fid, file, s3Config).

(** The capacity check of the commit route with its compensation. *)
Definition commitCapacityCheck (env : Env) (body : CommitBody) (file : FileRecord)
    (s3Config : S3Config) : Handler unit :=
  w <- getWorld ;;
  match commitQuota w s3Config file (cb_size body) with
  | Some e => modify (rollbackCommit env s3Config file) ;;; fail e
  | None => ret tt
  end.

(** The rest of the commit route: the expiry, the UPDATE, the password
    row, the directory touch, the cache invalidation and the response. *)
Definition commitPersist (env : Env) (c : Caller) (body : CommitBody) (fid : string)
    (file : FileRecord) (s3Config : S3Config) : Handler CommitData :=
  expiresAt <- orThrow (commitExpiresAt env (cb_expires_in body)) ;;
  modify (fun w0 => setFiles w0 (commitUpdate env c body expiresAt fid (files w0))) ;;;
  match nonEmpty (cb_password body) with
  | Some password =>
      modify (fun w0 => setPasswords w0 (upsertPassword fid password (file_passwords w0)))
  | None => ret tt
  end ;;;
  modify (fun w0 => touchAncestors w0 (c_id s3Config) (f_storage_path file)) ;;;
  modify (fun w0 => clearCache w0 (f_s3_config_id file)) ;;;
  w' <- getWorld ;;
  updated <- orFail (fileById w' fid) (InternalError ThrownTypeError) ;;
  ret (mkCommitData (summaryOf updated)
                    (Js.truthyStr (option_map (hashPassword env) (nonEmpty (cb_password body))))
                    expiresAt
                    (commitMaxViews (cb_max_views body))
                    ("/file/" ++ fs_slug (summaryOf updated))%string).

Definition commit (env : Env) (c : Caller) (body : CommitBody) : Handler CommitData :=
  t <- commitLookup c body ;;
  let '(fid, file, s3Config) := t in
  commitCapacityCheck env body file s3Config ;;;
  commitPersist env c body fid file s3Config.

(* ================================================================== *)
(** * PUT /api/upload-direct/:filename                                 *)
(* ================================================================== *)

Record DirectRequest : Type := mkDirectRequest {
  q_filename : string;
  q_s3_config_id : option string;
  q_slug : option string;
  q_path : option string;
  q_remark : option string;
  q_password : option string;
  q_expires_in : option string;
  q_max_views : option string;
  q_override : option string;
  q_original_filename : option string;
  q_use_proxy : option string;
  q_content : list Byte.byte
}.

Record DirectData : Type := mkDirectData {
  d_id : string;
  d_slug : string;
  d_filename : string;
  d_mimetype : string;
  d_size : Z;
  d_remark : string;
  d_requires_password : bool;
  d_max_views : option Z;
  d_expires_at : option Z;
  d_previewUrl : string;
  d_downloadUrl : string;
  d_s3_direct_preview_url : string;
  d_s3_direct_download_url : string;
  d_proxy_preview_url : string;
  d_proxy_download_url : string;
  d_use_proxy : Z;
  d_created_by : string;
  d_used_original_filename : bool
}.

(** [isAdmin ? userId : `apikey:${userId}`] *)
Definition directCreator (c : Caller) : string :=
  if isAdmin c then userId c else apikeyCreator (userId c).

(** The choice of a configuration when the request names none: the caller's
    default one, else any one the caller may use. *)
Definition defaultConfigId (w : World) (c : Caller) : option string :=
  let defaultConfig :=
    if isAdmin c
    then find (fun cfg => optStrEqb (c_admin_id cfg) (userId c) && (c_is_default cfg =? 1))
              (s3_configs w)
    else find (fun cfg => (c_is_public cfg =? 1) && (c_is_default cfg =? 1)) (s3_configs w) in
  match defaultConfig with
  | Some cfg => Some (c_id cfg)
  | None =>
      option_map c_id
        (if isAdmin c
         then find (fun cfg => optStrEqb (c_admin_id cfg) (userId c)) (s3_configs w)
         else find (fun cfg => c_is_public cfg =? 1) (s3_configs w))
  end.

(** [q ? parseInt(q) : 0] *)
Definition queryInt (q : option string) : option Z :=
  match nonEmpty q with
  | Some s => Js.parseIntStr s
  | None => Some 0
  end.

(** [n > 0 ? n : null] *)
Definition positiveOrNull (n : option Z) : option Z :=
  match n with
  | Some z => if 0 <? z then Some z else None
  | None => None
  end.

(** [etag.replace] of every double-quote character by nothing. *)
Fixpoint removeQuotes (s : string) : string :=
  match s with
  | EmptyString => EmptyString
  | String c r => if Ascii.eqb c (ascii_of_nat 34) then removeQuotes r else String c (removeQuotes r)
  end.

(** [storagePath.startsWith("/") ? storagePath.slice(1) : storagePath] *)
Definition normalizedPathOf (storagePath : string) : string :=
  match storagePath with
  | String "/" r => r
  | _ => storagePath
  end.

(** A successful PUT leaves an object under the key. *)
Definition addObject (cfg key : string) (objs : list (string * string))
    : list (string * string) :=
  if existsb (fun x => String.eqb (fst x) cfg && String.eqb (snd x) key) objs
  then objs else objs ++ [(cfg, key)].

(** The [switch (s3Config.provider_type)]: B2 goes through a presigned URL
    for [storagePath]; R2, Aliyun OSS and the default send a PutObject for
    the key without its leading slash.  The result is the ETag without
    quotes; a failure is thrown to the outer [catch]. *)
Definition transfer (env : Env) (providerB2 : string) (s3Config : S3Config)
    (storagePath : string) : Handler (option string) :=
  if String.eqb (c_provider_type s3Config) providerB2 then
    match putObject env s3Config storagePath with
    | PutOk etag =>
        modify (fun w0 => setObjects w0 (addObject (c_id s3Config) storagePath (objects w0))) ;;;
        ret (option_map removeQuotes etag)
    | PutFails => fail (InternalError ThrownUpload)
    end
  else
    match putObject env s3Config (normalizedPathOf storagePath) with
    | PutOk etag =>
        modify (fun w0 => setObjects w0 (addObject (c_id s3Config)
                                           (normalizedPathOf storagePath) (objects w0))) ;;;
        ret (option_map removeQuotes (nonEmpty etag))
    | PutFails => fail (InternalError ThrownUpload)
    end.

(** The part of the direct route that picks the configuration id. *)
Definition directConfigId (c : Caller) (req : DirectRequest) : Handler string :=
  w <- getWorld ;;
  match nonEmpty (q_s3_config_id req) with
  | Some s3ConfigId =>
      rejectIf (AuthType_eqb (authType c) AuthApiKey
                && match find (fun cfg => String.eqb (c_id cfg) s3ConfigId
                                          && (c_is_public cfg =? 1)) (s3_configs w) with
                   | Some _ => false
                   | None => true
                   end) ApiKeyNeedsPublicConfig ;;;
      ret s3ConfigId
  | None => orFail (defaultConfigId w c) NoUsableConfig
  end.

(** The override block of the direct route: the record that carries the
    slug is removed only when the caller created it. *)
Definition directOverride (env : Env) (c : Caller) (override : bool)
    (customSlug : option string) : Handler unit :=
  match (if override then nonEmpty customSlug else None) with
  | Some s =>
      w1 <- getWorld ;;
      match fileBySlug w1 s with
      | Some existingFile =>
          rejectIf (negb (optStrEqb (f_created_by existingFile) (directCreator c)))
                   OverrideForbidden ;;;
          modify (removeExisting env existingFile)
      | None => ret tt
      end
  | None => ret tt
  end.

Definition uploadDirect (env : Env) (providerB2 : string) (c : Caller)
    (req : DirectRequest) : Handler DirectData :=
  let filename := q_filename req in
  s3ConfigId <- directConfigId c req ;;
  w <- getWorld ;;
  s3Config <- orFail (configById w s3ConfigId) ConfigNotFound ;;
  rejectIf (isAdmin c && negb (optStrEqb (c_admin_id s3Config) (userId c))) ConfigNotOwned ;;;
  rejectIf (AuthType_eqb (authType c) AuthApiKey && negb (c_is_public s3Config =? 1))
           ApiKeyNeedsPublicConfig ;;;
  let fileSize := Z.of_nat (List.length (q_content req)) in
  rejectIf (Js.gt (Some fileSize) (maxUploadSizeBytes w))
           (UploadTooLarge (maxUploadSizeBytes w) (Js.Num fileSize)) ;;;
  match directQuota w s3Config s3ConfigId fileSize with
  | Some e => fail e
  | None => ret tt
  end ;;;
  let customSlug := q_slug req in
  let customPath := normalizeCustomPath (q_path req) in
  let remark := match nonEmpty (q_remark req) with Some r => r | None => EmptyString end in
  let password := nonEmpty (q_password req) in
  let expiresInHours := queryInt (q_expires_in req) in
  let maxViews := queryInt (q_max_views req) in
  let override := optStrEqb (q_override req) "true" in
  let useOriginalFilename := optStrEqb (q_original_filename req) "true" in
  let fileId := generateFileId env in
  slug <- allocateSlug env customSlug override ;;
  directOverride env c override customSlug ;;;
  let contentType := getMimeTypeFromFilename env filename in
  let '(fileName, fileExt) := getFileNameAndExt env filename in
  let safeFileName := safeFileNameOf env fileName in
  let shortId := generateShortId env in
  storagePath <- storagePathFor env c s3Config customPath
                   ((if useOriginalFilename then EmptyString else shortId ++ "-")
                    ++ safeFileName ++ fileExt)%string ;;
  etag <- transfer env providerB2 s3Config storagePath ;;
  let s3Url := buildS3Url env s3Config storagePath in
  expiresAt <- orThrow (expiryAfter env expiresInHours) ;;
  let useProxy := if negb (optStrEqb (q_use_proxy req) "0") then 1 else 0 in
  let passwordHash := option_map (hashPassword env) password in
  modify (fun w0 =>
            setFiles w0 (files w0 ++
              [mkFileRecord fileId slug filename storagePath s3Url s3ConfigId contentType
                            fileSize etag (Some (directCreator c)) (Some remark)
                            passwordHash expiresAt (positiveOrNull maxViews)
                            (Some useProxy)])) ;;;
  match password with
  | Some pw =>
      modify (fun w0 => setPasswords w0 (file_passwords w0 ++ [mkFilePassword fileId pw]))
  | None => ret tt
  end ;;;
  modify (fun w0 => touchAncestors w0 (c_id s3Config) storagePath) ;;;
  modify (fun w0 => clearCache w0 s3ConfigId) ;;;
  let previewDirectUrl := generatePresignedUrl env s3Config storagePath false contentType in
  let downloadDirectUrl := generatePresignedUrl env s3Config storagePath true contentType in
  let previewProxyUrl := (requestBaseUrl env ++ "/api/file-view/" ++ slug)%string in
  let downloadProxyUrl := (requestBaseUrl env ++ "/api/file-download/" ++ slug)%string in
  let withPassword (u : string) : string :=
    match password with
    | Some pw => (u ++ "?password=" ++ encodeURIComponent env pw)%string
    | None => u
    end in
  ret (mkDirectData fileId slug filename contentType fileSize remark
                    (Js.truthyStr passwordHash) (positiveOrNull maxViews) expiresAt
                    (if useProxy =? 0 then previewDirectUrl else withPassword previewProxyUrl)
                    (if useProxy =? 0 then downloadDirectUrl else withPassword downloadProxyUrl)
                    previewDirectUrl downloadDirectUrl
                    (withPassword previewProxyUrl) (withPassword downloadProxyUrl)
                    useProxy (directCreator c) useOriginalFilename).

(* ================================================================== *)
(** * API keys: createApiKey and updateApiKey                          *)
(* ================================================================== *)

(** The errors the API-key service throws. *)
Inductive KeyError : Type :=
| KeyNameEmpty
| KeyFormatInvalid
| KeyExpiryInvalid
| KeyNotFound
| KeyNameExists
| KeyNoFields.

Record KeyData : Type := mkKeyData {
  kd_name : option string;
  kd_custom_key : option string;
  kd_expires_at : Js.Val;
  kd_text_permission : option bool;
  kd_file_permission : option bool;
  kd_mount_permission : option bool;
  kd_basic_path : option string
}.

(** [new Date("9999-12-31T23:59:59Z")], in milliseconds since the epoch. *)
Definition FAR_FUTURE : Z := 253402300799000.

Definition ONE_DAY : Z := 86400000.

(** [v === null || v === "never"] *)
Definition isNever (v : Js.Val) : bool :=
  match v with
  | Js.Null => true
  | Js.Str s => String.eqb s "never"
  | _ => false
  end.

(** [new Date(v)] for a truthy [v]; [None] is an invalid date. *)
Definition newDate (env : Env) (v : Js.Val) : option Z :=
  match v with
  | Js.Str s => parseDate env s
  | Js.Num z => if Z.abs z <=? 8640000000000000 then Some z else None
  | Js.Frac m e =>
      let t := if e <? 0 then Z.quot m (10 ^ (- e)) else m * 10 ^ e in
      if Z.abs t <=? 8640000000000000 then Some t else None
  | _ => None
  end.

(** [expiresAt = new Date(); expiresAt.setDate(now.getDate() + 1)]: the
    default expiry is a second reading of the clock whose local day of the
    month is set to that of the first reading plus one.  With [t] the local
    time of the second reading, [setDate(n)] gives the local time
    [t + (n - DateFromTime(t)) * msPerDay], taken back to UTC and clipped. *)
Definition nextDayExpiry (env : Env) : option Z :=
  let first := now env + localTZA env (now env) true in
  let second := now2 env + localTZA env (now2 env) true in
  let local :=
    second + (Js.dateFromTime first + 1 - Js.dateFromTime second) * Js.msPerDay in
  Js.timeClip (local - localTZA env local false).

(** [expiresAt] of [createApiKey]; an invalid date is [None]. *)
Definition createExpiresAt (env : Env) (expires_at : Js.Val) : option Z :=
  if isNever expires_at then Some FAR_FUTURE
  else if Js.truthy expires_at then newDate env expires_at
  else nextDayExpiry env.

(** [flag === true ? 1 : 0] *)
Definition permissionBit (flag : option bool) : Z :=
  match flag with
  | Some true => 1
  | _ => 0
  end.

Definition createApiKey (env : Env) (w : World) (keyData : KeyData)
    : KeyError + (ApiKey * World) :=
  match nonEmpty (kd_name keyData) with
  | None => inl KeyNameEmpty
  | Some name =>
      if String.eqb (Js.trim name) EmptyString then inl KeyNameEmpty
      else if match nonEmpty (kd_custom_key keyData) with
              | Some k => negb (Js.slugFormatRegexTest k)
              | None => false
              end
      then inl KeyFormatInvalid
      else
        let id := randomUUID env in
        let key := match nonEmpty (kd_custom_key keyData) with
                   | Some k => k
                   | None => generateRandomString env
                   end in
        match createExpiresAt env (kd_expires_at keyData) with
        | None => inl KeyExpiryInvalid
        | Some expiresAt =>
            let basicPath := match nonEmpty (kd_basic_path keyData) with
                             | Some p => p
                             | None => "/"
                             end in
            let row := mkApiKey id (Js.trim name) key
                                (permissionBit (kd_text_permission keyData))
                                (permissionBit (kd_file_permission keyData))
                                (permissionBit (kd_mount_permission keyData))
                                basicPath (Some expiresAt) (now env) in
            inr (row, setApiKeys w (api_keys w ++ [row]))
        end
  end.

Record UpdateData : Type := mkUpdateData {
  ud_name : option string;
  ud_text_permission : option bool;
  ud_file_permission : option bool;
  ud_mount_permission : option bool;
  ud_basic_path : option string;
  ud_expires_at : Js.Val
}.

(** [expiresAt] of [updateApiKey]: [inr None] leaves the column alone. *)
Definition updateExpiresAt (env : Env) (expires_at : Js.Val) : KeyError + option Z :=
  if isNever expires_at then inr (Some FAR_FUTURE)
  else if Js.truthy expires_at then
    match newDate env expires_at with
    | Some d => inr (Some d)
    | None => inl KeyExpiryInvalid
    end
  else inr None.

(** [flag ? 1 : 0] *)
Definition truthBit (flag : bool) : Z := if flag then 1 else 0.

Definition orKeep {A : Type} (new : option A) (old : A) : A :=
  match new with
  | Some a => a
  | None => old
  end.

Definition updateApiKey (env : Env) (w : World) (id : string) (updateData : UpdateData)
    : KeyError + World :=
  match find (fun k => String.eqb (k_id k) id) (api_keys w) with
  | None => inl KeyNotFound
  | Some keyExists =>
      let name := nonEmpty (ud_name updateData) in
      if match name with
         | Some n => String.eqb (Js.trim n) EmptyString
         | None => false
         end
      then inl KeyNameEmpty
      else if match name with
              | Some n =>
                  negb (String.eqb n (k_name keyExists))
                  && match find (fun k => String.eqb (k_name k) (Js.trim n)
                                          && negb (String.eqb (k_id k) id)) (api_keys w) with
                     | Some _ => true
                     | None => false
                     end
              | None => false
              end
      then inl KeyNameExists
      else
        match updateExpiresAt env (ud_expires_at updateData) with
        | inl e => inl e
        | inr expiresAt =>
            match ud_name updateData, ud_text_permission updateData,
                  ud_file_permission updateData, ud_mount_permission updateData,
                  ud_basic_path updateData, expiresAt with
            | None, None, None, None, None, None => inl KeyNoFields
            | _, _, _, _, _, _ =>
                let upd (k : ApiKey) : ApiKey :=
                  mkApiKey (k_id k)
                           (orKeep (option_map Js.trim (ud_name updateData)) (k_name k))
                           (k_key k)
                           (orKeep (option_map truthBit (ud_text_permission updateData))
                                   (k_text_permission k))
                           (orKeep (option_map truthBit (ud_file_permission updateData))
                                   (k_file_permission k))
                           (orKeep (option_map truthBit (ud_mount_permission updateData))
                                   (k_mount_permission k))
                           (orKeep (ud_basic_path updateData) (k_basic_path k))
                           (match expiresAt with
                            | Some e => Some e
                            | None => k_expires_at k
                            end)
                           (k_created_at k) in
                inr (setApiKeys w (map (fun k => if String.eqb (k_id k) id then upd k else k)
                                       (api_keys w)))
            end
        end
  end.

(* ================================================================== *)
(** * API keys: expiry sweep, listing, lookup and deletion             *)
(* ================================================================== *)

(** [key.expires_at && new Date(key.expires_at) < now] *)
Definition keyExpired (env : Env) (k : ApiKey) : bool :=
  match k_expires_at k with
  | Some e => e <? now env
  | None => false
  end.

(** [DELETE FROM api_keys WHERE id = ?] *)
Definition deleteKeyRow (id : string) (ks : list ApiKey) : list ApiKey :=
  filter (fun k => negb (String.eqb (k_id k) id)) ks.

(** [checkAndDeleteExpiredApiKey(db, key)]: the answer and the store. *)
Definition checkAndDeleteExpiredApiKey (env : Env) (w : World) (key : option ApiKey)
    : bool * World :=
  match key with
  | None => (true, w)
  | Some k =>
      if keyExpired env k
      then (true, setApiKeys w (deleteKeyRow (k_id k) (api_keys w)))
      else (false, w)
  end.

(** [SUBSTR(key, 1, 6) || '...'] *)
Definition maskKey (key : string) : string := (String.substring 0 6 key ++ "...")%string.

(** [ORDER BY created_at DESC], on the texts of the column: a row may stay
    in front of another when its text is not the smaller one. *)
Definition newestFirst (a b : ApiKey) : bool :=
  negb (Js.isoTextLt (k_created_at a) (k_created_at b)).

(** [expires_at IS NOT NULL AND expires_at < ?] with the ISO text of the
    clock: the comparison is one of texts. *)
Definition sweptAt (env : Env) (k : ApiKey) : bool :=
  match k_expires_at k with
  | Some e => Js.isoTextLt e (now env)
  | None => false
  end.

(** [getAllApiKeys(db)]: the rows whose expiry text sorts before the text
    of the clock are deleted, then every row is listed with its masked key,
    in descending order of the creation text. *)
Definition getAllApiKeys (env : Env) (w : World) : list (ApiKey * string) * World :=
  let w' := setApiKeys w (filter (fun k => negb (sweptAt env k)) (api_keys w)) in
  (map (fun k => (k, maskKey (k_key k))) (stableSort newestFirst (api_keys w')), w').

(** [deleteApiKey(db, id)] *)
Definition deleteApiKey (w : World) (id : string) : KeyError + World :=
  match find (fun k => String.eqb (k_id k) id) (api_keys w) with
  | None => inl KeyNotFound
  | Some _ => inr (setApiKeys w (deleteKeyRow id (api_keys w)))
  end.

(** The columns [getApiKeyByKey] selects (it leaves out [created_at]). *)
Record ApiKeyInfo : Type := mkApiKeyInfo {
  ki_id : string;
  ki_name : string;
  ki_key : string;
  ki_text_permission : Z;
  ki_file_permission : Z;
  ki_mount_permission : Z;
  ki_basic_path : string;
  ki_expires_at : option Z
}.

Definition infoOf (k : ApiKey) : ApiKeyInfo :=
  mkApiKeyInfo (k_id k) (k_name k) (k_key k) (k_text_permission k) (k_file_permission k)
               (k_mount_permission k) (k_basic_path k) (k_expires_at k).

(** [getApiKeyByKey(db, key)]: [null] for a falsy key, else the first row
    with that key. *)
Definition getApiKeyByKey (w : World) (key : option string) : option ApiKeyInfo :=
  match nonEmpty key with
  | None => None
  | Some s => option_map infoOf (find (fun k => String.eqb (k_key k) s) (api_keys w))
  end.

(* ================================================================== *)
(** * Sample data for worked examples                                  *)
(* ================================================================== *)

Module Sample.

(** Stand-ins for the collaborators; only their shape matters below. *)
Definition env : Env :=
  mkEnv "file-new"
        (fun _ => "rnd001")
        "sid001"
        (fun p => ("hash:" ++ p)%string)
        (fun _ => "application/octet-stream")
        (fun f => (f, EmptyString))
        (fun f => f)
        (fun subPath _ _ => subPath)
        (fun cfg key => (c_bucket_name cfg ++ "/" ++ key)%string)
        (fun cfg key _ => ("put:" ++ c_bucket_name cfg ++ "/" ++ key)%string)
        (fun cfg key _ _ => ("get:" ++ c_bucket_name cfg ++ "/" ++ key)%string)
        (fun _ _ => DeleteOk)
        (fun _ _ => PutOk (Some "e7a9"))
        1700000000000
        1700000000000
        (fun _ _ => 0)
        (fun _ => None)
        "uuid-1"
        "randomkey123"
        "https://paste.example"
        (fun s => s).

(** The same collaborators in a zone one hour ahead of UTC that moves to
    two hours ahead at 2024-03-31T01:00:00Z, with both clock readings of a
    call at 2024-03-30T12:00:00Z. *)
Definition springEnv : Env :=
  mkEnv (generateFileId env) (slugCandidates env) (generateShortId env) (hashPassword env)
        (getMimeTypeFromFilename env) (getFileNameAndExt env) (getSafeFileName env)
        (normalizeS3SubPath env) (buildS3Url env) (generatePresignedPutUrl env)
        (generatePresignedUrl env) (deleteFileFromS3 env) (putObject env)
        1711800000000
        1711800000000
        (fun t isUTC =>
           if isUTC
           then (if t <? 1711846800000 then 3600000 else 7200000)
           else (if t <? 1711850400000 then 3600000 else 7200000))
        (parseDate env) (randomUUID env) (generateRandomString env) (requestBaseUrl env)
        (encodeURIComponent env).

Definition providerB2 : string := "Backblaze B2".

(** A public configuration owned by [admin1] with a ceiling of 10 bytes. *)
Definition cfg1 : S3Config :=
  mkS3Config "cfg1" (Some "admin1") 1 1 (Some 10) None "Cloudflare R2" "bucket1".

Definition admin1 : Caller := mkCaller true "admin1" AuthAdmin None.
Definition key1 : Caller := mkCaller false "k1" AuthApiKey (Some (Some "/")).
Definition key2 : Caller := mkCaller false "k2" AuthApiKey (Some (Some "/")).

Definition record (id slug key : string) (size : Z) (creator : option string) : FileRecord :=
  mkFileRecord id slug "a.bin" key ("bucket1/" ++ key) "cfg1" "application/octet-stream"
               size None creator None None None None None.

Definition emptyWorld : World := mkWorld [] [] [cfg1] [] [] None [] [] [].

(** The store already holds 20 bytes, above its ceiling of 10. *)
Definition fullWorld : World :=
  mkWorld [record "f0" "old" "old.bin" 20 (Some "admin1")] [] [cfg1] [] [] None
          [("cfg1", "old.bin")] [] [].

(** A record of key [k1] under slug [X], protected by a password. *)
Definition ownedWorld : World :=
  mkWorld [record "f1" "X" "x.bin" 4 (Some "apikey:k1")] [mkFilePassword "f1" "pw"]
          [cfg1] [] [] None [("cfg1", "x.bin")] [] [].

(** A placeholder of [admin1] waiting for its commit, next to 8 stored bytes. *)
Definition pendingWorld : World :=
  mkWorld [record "f0" "old" "old.bin" 8 (Some "admin1");
           record "f1" "new" "new.bin" 0 (Some "admin1")] [] [cfg1] [] [] None
          [("cfg1", "old.bin"); ("cfg1", "new.bin")] [] [].

Definition presignBody (size : Js.Val) (slug override : option string) : PresignBody :=
  mkPresignBody (Some "cfg1") (Some "a.bin") size Js.Undefined slug override.

Definition commitBody (etag : option string) (size expires_in : Js.Val) : CommitBody :=
  mkCommitBody (Some "f1") etag size None expires_in None Js.Undefined.

Definition directRequest (slug override expires_in : option string) : DirectRequest :=
  mkDirectRequest "a.bin" (Some "cfg1") slug None None None expires_in None override
                  None None [Byte.x00; Byte.x01].

Definition mountAt (name path : string) : MountRow :=
  mkMountRow (mkMount name "S3" "cfg1" path 1 0) (Some 1).

(** A request to create a key that never expires, and one with the default
    expiry. *)
Definition neverKey : KeyData :=
  mkKeyData (Some "ci") (Some "ci-key_01") Js.Null (Some true) (Some true) None None.

Definition defaultKey : KeyData :=
  mkKeyData (Some "tmp") None Js.Undefined None (Some true) None (Some "/a").

(** A key table with one expired key and one live key. *)
Definition keyWorld : World :=
  mkWorld [] [] [cfg1] []
          [mkApiKey "k-old" "old" "oldkey000" 1 1 0 "/" (Some 1600000000000) 1500000000000;
           mkApiKey "k-live" "live" "livekey00" 1 1 0 "/" (Some 1800000000000) 1690000000000]
          None [] [] [].

(** A record of key [k1] with two stored bytes, and nothing else. *)
Definition smallWorld : World :=
  mkWorld [record "f1" "X" "x.bin" 2 (Some "apikey:k1")] [mkFilePassword "f1" "pw"]
          [cfg1] [] [] None [("cfg1", "x.bin")] [] [].

(** The same collaborators, with an object store that answers with a
    quoted ETag. *)
Definition quotedEtag : string :=
  String (ascii_of_nat 34) ("e7a9" ++ String (ascii_of_nat 34) EmptyString).

Definition quotingEnv : Env :=
  mkEnv (generateFileId env) (slugCandidates env) (generateShortId env) (hashPassword env)
        (getMimeTypeFromFilename env) (getFileNameAndExt env) (getSafeFileName env)
        (normalizeS3SubPath env) (buildS3Url env) (generatePresignedPutUrl env)
        (generatePresignedUrl env) (deleteFileFromS3 env)
        (fun _ _ => PutOk (Some quotedEtag))
        (now env) (now2 env) (localTZA env) (parseDate env) (randomUUID env)
        (generateRandomString env)
        (requestBaseUrl env) (encodeURIComponent env).

End Sample.

(* ================================================================== *)
(** * Vocabulary of the specification                                  *)
(* ================================================================== *)

(** The slug alphabet, written out. *)
Definition slugAlphabet : list ascii :=
  list_ascii_of_string
    "ABCDEFGHIJKLMNOPQRSTUVWXYZabcdefghijklmnopqrstuvwxyz0123456789_-".

(** The specification of a well-formed slug: one or more characters, each
    from the alphabet. *)
Definition WellFormedSlug (s : string) : Prop :=
  s <> EmptyString /\ Forall (fun c => In c slugAlphabet) (list_ascii_of_string s).




(** Aggregate usage of a configuration: the sum of [size] over the
    FileRecords that reference it. *)
Definition sumSizes (rows : list FileRecord) : Z :=
  fold_right (fun f acc => f_size f + acc) 0 rows.

Definition usage (w : World) (cfg : string) : Z :=
  sumSizes (filter (fun f => String.eqb (f_s3_config_id f) cfg) (files w)).




(** The same commit request with another [etag] field. *)
Definition withEtag (etag : option string) (body : CommitBody) : CommitBody :=
  mkCommitBody (cb_file_id body) etag (cb_size body) (cb_password body)
               (cb_expires_in body) (cb_remark body) (cb_max_views body).

(** The same row with a null [etag] column. *)
Definition clearEtag (f : FileRecord) : FileRecord :=
  mkFileRecord (f_id f) (f_slug f) (f_filename f) (f_storage_path f) (f_s3_url f)
               (f_s3_config_id f) (f_mimetype f) (f_size f) None (f_created_by f)
               (f_remark f) (f_password f) (f_expires_at f) (f_max_views f) (f_use_proxy f).

(** The caller is an administrator, or an API key, for every accessor of
    the request context. *)
Definition AdminCaller (c : Caller) : Prop := isAdmin c = true /\ authType c = AuthAdmin.

Definition ApiKeyCaller (c : Caller) : Prop := isAdmin c = false /\ authType c = AuthApiKey.

(** The creator identity the handlers write: the user id of an
    administrator as it is, the id of an API key behind [apikey:]. *)
Definition creatorOf (c : Caller) : string :=
  if isAdmin c then userId c else ("apikey:" ++ userId c)%string.

(** The creator identity in the format [admin:<id>] or [apikey:<id>]. *)
Definition prefixedCreator (c : Caller) : string :=
  ((if isAdmin c then "admin:" else "apikey:") ++ userId c)%string.

(** An expiry given as [null] or as the sentinel [never]. *)
Definition NoExpiry (v : Js.Val) : Prop := v = Js.Null \/ v = Js.Str "never".

(** The two normal forms the accessibility filter compares: the basic path
    and the mount path without trailing slashes, the mount path [/] when
    nothing is left of it. *)
Definition normalBasicPath (basicPath : string) : string :=
  Js.stripTrailingSlashes basicPath.

Definition normalMountPath (mountPath : string) : string :=
  if String.eqb (Js.stripTrailingSlashes mountPath) EmptyString
  then "/" else Js.stripTrailingSlashes mountPath.

(** [child] lies below [parent]: it continues [parent] after a slash. *)
Definition Below (child parent : string) : Prop :=
  exists rest, child = (parent ++ "/" ++ rest)%string.

(** No two FileRecords carry the same slug; no two carry the same id. *)
Definition UniqueSlugs (w : World) : Prop := NoDup (map f_slug (files w)).



(** The slug is carried by some FileRecord. *)
Definition SlugTakenIn (w : World) (s : string) : Prop :=
  exists f, In f (files w) /\ f_slug f = s.

(** The double-quote character. *)
Definition quoteChar : ascii := ascii_of_nat 34.

(** An instant of the years 0000 to 9999, whose ISO text has a year of four
    digits: from 0000-01-01T00:00:00Z to before 10000-01-01T00:00:00Z. *)
Definition FourDigitYear (t : Z) : Prop := -62167219200000 <= t < 253402300800000.

(* ================================================================== *)
(** * Strings                                                          *)
(* ================================================================== *)

Lemma startsWith_app (p r : string) : Js.startsWith (p ++ r) p = true.
Proof.
  unfold Js.startsWith.
  induction p as [|c p IH]; simpl.
  - destruct r; reflexivity.
  - destruct (ascii_dec c c) as [_|n]; [exact IH | now elim n].
Qed.

Lemma startsWith_inv (s p : string) :
  Js.startsWith s p = true -> exists r, s = (p ++ r)%string.
Proof.
  unfold Js.startsWith. revert s.
  induction p as [|c p IH]; intros s H.
  - exists s. reflexivity.
  - destruct s as [|d s]; simpl in H; [discriminate|].
    destruct (ascii_dec c d) as [->|_]; [|discriminate].
    destruct (IH _ H) as [r ->]. exists r. reflexivity.
Qed.

Lemma startsWith_iff (s p : string) :
  Js.startsWith s p = true <-> exists r, s = (p ++ r)%string.
Proof.
  split; [apply startsWith_inv|]. intros [r ->]. apply startsWith_app.
Qed.


Lemma append_assoc (a b c : string) : ((a ++ b) ++ c = a ++ (b ++ c))%string.
Proof. induction a as [|x a IH]; simpl; [reflexivity | now rewrite IH]. Qed.


Lemma isSlugChar_alphabet (c : ascii) :
  Js.isSlugChar c = existsb (Ascii.eqb c) slugAlphabet.
Proof.
  destruct c as [[] [] [] [] [] [] [] []]; vm_compute; reflexivity.
Qed.

Lemma isSlugChar_In (c : ascii) : Js.isSlugChar c = true <-> In c slugAlphabet.
Proof.
  rewrite isSlugChar_alphabet, existsb_exists. split.
  - intros [x [Hin Heq]]. apply Ascii.eqb_eq in Heq. now subst.
  - intros Hin. exists c. split; [assumption | apply Ascii.eqb_refl].
Qed.

Lemma slugFormatRegexTest_spec (s : string) :
  Js.slugFormatRegexTest s = true <-> WellFormedSlug s.
Proof.
  unfold Js.slugFormatRegexTest, WellFormedSlug.
  rewrite andb_true_iff, negb_true_iff, String.eqb_neq.
  apply and_iff_compat_l.
  induction s as [|c s IH]; simpl.
  - split; [constructor | reflexivity].
  - rewrite andb_true_iff, IH, isSlugChar_In. split.
    + intros [H1 H2]. now constructor.
    + intros H. inversion H; subst. now split.
Qed.

Lemma truthyStr_Some (s : string) : s <> EmptyString -> Js.truthyStr (Some s) = true.
Proof. intros H. simpl. now apply negb_true_iff, String.eqb_neq. Qed.

Lemma nonEmpty_Some (s : string) : s <> EmptyString -> nonEmpty (Some s) = Some s.
Proof. intros H. simpl. apply String.eqb_neq in H. now rewrite H. Qed.

(* ================================================================== *)
(** * Rows and queries                                                 *)
(* ================================================================== *)

Lemma fileBySlug_Some (w : World) (s : string) (f : FileRecord) :
  fileBySlug w s = Some f -> In f (files w) /\ f_slug f = s.
Proof.
  unfold fileBySlug. intros H. apply find_some in H.
  destruct H as [H1 H2]. apply String.eqb_eq in H2. now split.
Qed.

Lemma fileBySlug_exists (w : World) (s : string) :
  (exists f, In f (files w) /\ f_slug f = s) <-> exists f, fileBySlug w s = Some f.
Proof.
  split.
  - intros [f [Hin Hs]]. unfold fileBySlug.
    destruct (find _ (files w)) as [g|] eqn:E; [now exists g|].
    exfalso. eapply find_none in E; [|exact Hin].
    simpl in E. rewrite Hs, String.eqb_refl in E. discriminate.
  - intros [f H]. exists f. now apply fileBySlug_Some.
Qed.

Lemma fileBySlug_None (w : World) (s : string) :
  (~ exists f, In f (files w) /\ f_slug f = s) <-> fileBySlug w s = None.
Proof.
  rewrite fileBySlug_exists. split.
  - intros H. destruct (fileBySlug w s) as [f|]; [|reflexivity].
    exfalso. apply H. now exists f.
  - intros H [f Hf]. congruence.
Qed.

Lemma fileById_Some (w : World) (i : string) (f : FileRecord) :
  fileById w i = Some f -> In f (files w) /\ f_id f = i.
Proof.
  unfold fileById. intros H. apply find_some in H.
  destruct H as [H1 H2]. apply String.eqb_eq in H2. now split.
Qed.

Lemma deleteFile_In (fid : string) (fs : list FileRecord) (f : FileRecord) :
  In f (deleteFile fid fs) <-> In f fs /\ f_id f <> fid.
Proof.
  unfold deleteFile. rewrite filter_In, negb_true_iff, String.eqb_neq. reflexivity.
Qed.

(* ================================================================== *)
(** * Slug allocation (C6)                                             *)
(* ================================================================== *)

Lemma randomSlugLoop_error (env : Env) (w : World) (remaining attempts : nat)
    (e : SlugError) :
  randomSlugLoop env w attempts remaining = inl e -> e = SlugExhausted.
Proof.
  revert attempts. induction remaining as [|n IH]; intros attempts; simpl.
  - intros H. now injection H.
  - destruct (fileBySlug w (slugCandidates env attempts)); [apply IH | discriminate].
Qed.

(** C6 (as amended).  Slug allocation with a custom slug.  For a call of
    [generateUniqueFileSlug] with a custom slug that is not the empty
    string: a slug that is not one or more characters of [A-Za-z0-9_-]
    fails with the format error; a well-formed slug that some FileRecord
    already carries fails with the conflict error when [override] is false;
    in the remaining cases (taken with [override] true, or not taken) the
    custom slug itself is returned.  The empty string is not validated: the
    guard [if (customSlug)] takes it for an absent slug, and the call
    answers as it does without a custom slug, never with the format error
    nor with the conflict error. *)
Theorem C6_custom_slug_allocation (env : Env) (w : World) (s : string) (override : bool) :
  (s <> EmptyString ->
     (~ WellFormedSlug s ->
        generateUniqueFileSlug env w (Some s) override = inl SlugFormatInvalid)
     /\ (WellFormedSlug s -> (exists f, In f (files w) /\ f_slug f = s) -> override = false ->
           generateUniqueFileSlug env w (Some s) override = inl SlugTaken)
     /\ (WellFormedSlug s ->
           ((exists f, In f (files w) /\ f_slug f = s) /\ override = true)
           \/ ~ (exists f, In f (files w) /\ f_slug f = s) ->
           generateUniqueFileSlug env w (Some s) override = inr s))
  /\ (s = EmptyString ->
        generateUniqueFileSlug env w (Some s) override
        = generateUniqueFileSlug env w None override
        /\ generateUniqueFileSlug env w (Some s) override <> inl SlugFormatInvalid
        /\ generateUniqueFileSlug env w (Some s) override <> inl SlugTaken).
Proof.
  split.
  - intros Hne. unfold generateUniqueFileSlug.
    rewrite (truthyStr_Some s Hne).
    destruct (Js.slugFormatRegexTest s) eqn:Hfmt; simpl.
    + apply slugFormatRegexTest_spec in Hfmt.
      split; [intros H; now elim H|]. split.
      * intros _ Hex ->. apply fileBySlug_exists in Hex. destruct Hex as [f ->]. reflexivity.
      * intros _ [[Hex ->]|Hno].
        -- apply fileBySlug_exists in Hex. destruct Hex as [f ->]. reflexivity.
        -- apply fileBySlug_None in Hno. now rewrite Hno.
    + assert (Hbad : ~ WellFormedSlug s).
      { intros H. apply slugFormatRegexTest_spec in H. congruence. }
      split; [reflexivity|]. split; intros H; now elim Hbad.
  - intros ->. split; [reflexivity|].
    change (generateUniqueFileSlug env w (Some EmptyString) override)
      with (randomSlugLoop env w 0 maxAttempts).
    split; intros H; apply randomSlugLoop_error in H; discriminate.
Qed.

Lemma C6_custom_slug_allocation_witness :
  generateUniqueFileSlug Sample.env Sample.ownedWorld (Some "X") false = inl SlugTaken.
Proof.
  refine (proj1 (proj2 (proj1 (C6_custom_slug_allocation Sample.env Sample.ownedWorld
                                 "X" false) _))
                _ _ eq_refl).
  - discriminate.
  - apply slugFormatRegexTest_spec. reflexivity.
  - exists (Sample.record "f1" "X" "x.bin" 4 (Some "apikey:k1")).
    split; [left; reflexivity | reflexivity].
Defined.

(** The claim as first stated fails for the empty custom slug: it does not
    match [A-Za-z0-9_-]+, yet the call does not fail with a validation
    error; a random slug is returned. *)
Lemma C6_empty_custom_slug_counterexample :
  ~ WellFormedSlug EmptyString
  /\ Js.slugFormatRegexTest EmptyString = false
  /\ generateUniqueFileSlug Sample.env Sample.emptyWorld (Some EmptyString) false
     = inr "rnd001".
Proof.
  split; [intros [H _]; now elim H|]. split; reflexivity.
Qed.

(* ================================================================== *)
(** * Stable sorting                                                   *)
(* ================================================================== *)

Section StableSortFacts.
Context {A : Type} (leb : A -> A -> bool).
Hypothesis leb_total : forall a b, leb a b = true \/ leb b a = true.
Hypothesis leb_trans : forall a b c, leb a b = true -> leb b c = true -> leb a c = true.

Lemma insertSorted_perm (x : A) (l : list A) : Permutation (x :: l) (insertSorted leb x l).
Proof.
  induction l as [|y r IH]; simpl; [apply Permutation_refl|].
  destruct (leb x y); [apply Permutation_refl|].
  eapply perm_trans; [apply perm_swap|]. now apply perm_skip.
Qed.

Lemma stableSort_perm (l : list A) : Permutation l (stableSort leb l).
Proof.
  induction l as [|x r IH]; simpl; [constructor|].
  eapply perm_trans; [apply perm_skip, IH | apply insertSorted_perm].
Qed.

Lemma stableSort_In (l : list A) (x : A) : In x (stableSort leb l) <-> In x l.
Proof.
  split; apply Permutation_in;
    [apply Permutation_sym|]; apply stableSort_perm.
Qed.

Lemma insertSorted_sorted (x : A) (l : list A) :
  StronglySorted (fun a b => leb a b = true) l ->
  StronglySorted (fun a b => leb a b = true) (insertSorted leb x l).
Proof.
  induction 1 as [|y r Hr IH Hy]; simpl.
  - constructor; constructor.
  - destruct (leb x y) eqn:E.
    + constructor; [now constructor|].
      constructor; [exact E|].
      rewrite Forall_forall in *. intros z Hz. eauto.
    + constructor; [exact IH|].
      rewrite Forall_forall in *. intros z Hz.
      apply (Permutation_in _ (Permutation_sym (insertSorted_perm x r))) in Hz.
      destruct Hz as [<-|Hz]; [|auto].
      destruct (leb_total y x) as [H|H]; [exact H | congruence].
Qed.

Lemma stableSort_sorted (l : list A) :
  StronglySorted (fun a b => leb a b = true) (stableSort leb l).
Proof.
  induction l as [|x r IH]; simpl; [constructor | now apply insertSorted_sorted].
Qed.
End StableSortFacts.

(* ================================================================== *)
(** * Longest-prefix resolution (C4)                                   *)
(* ================================================================== *)










(** The example of the specification, in both table orders: with mounts
    [/a] and [/a/b] on one store and the basic path [/a/b/c], the sub-path
    is [/c], relative to [/a/b]. *)
Lemma longest_prefix_example :
  resolveSubPath "cfg1" "/a/b/c" [Sample.mountAt "m1" "/a"; Sample.mountAt "m2" "/a/b"]
    = Some (Sample.mountAt "m2" "/a/b", "/c")
  /\ resolveSubPath "cfg1" "/a/b/c" [Sample.mountAt "m2" "/a/b"; Sample.mountAt "m1" "/a"]
    = Some (Sample.mountAt "m2" "/a/b", "/c").
Proof. split; reflexivity. Qed.

(* ================================================================== *)
(** * Quota admission (C1)                                             *)
(* ================================================================== *)










Lemma presignQuota_falsy (w : World) (s3Config : S3Config) (s3_config_id : string)
    (size : Js.Val) :
  Js.truthy size = false -> presignQuota w s3Config s3_config_id size = None.
Proof.
  intros H. unfold presignQuota. rewrite H.
  now destruct (c_total_storage_bytes s3Config).
Qed.

(** What [parseInt] reads from a declared size: an integer below 10^21 as
    it is, the leading digit of a number printed in exponent notation, the
    integer part of a fraction, nothing from an infinity, the leading
    integer of a string, and nothing from a string without one. *)
Example parseInt_sizes :
  Js.parseInt (Js.Num 1048576) = Some 1048576
  /\ Js.parseInt (Js.Num (10 ^ 21)) = Some 1
  /\ Js.parseInt (Js.Num (25 * 10 ^ 20)) = Some 2
  /\ Js.parseInt (Js.Num (2 ^ 1024)) = None
  /\ Js.parseInt (Js.Frac 15 (-1)) = Some 1
  /\ Js.parseInt (Js.Frac 123456 (-3)) = Some 123
  /\ Js.parseInt (Js.Frac (-5) (-1)) = Some 0
  /\ Js.parseInt (Js.Frac 1 (-6)) = Some 0
  /\ Js.parseInt (Js.Frac 5 (-7)) = Some 5
  /\ Js.parseInt (Js.Frac 15 (-8)) = Some 1
  /\ Js.parseInt (Js.Str "12px") = Some 12
  /\ Js.parseInt (Js.Str "1e9") = Some 1
  /\ Js.parseInt (Js.Str "0x1F") = Some 31
  /\ Js.parseInt (Js.Str "abc") = None.
Proof. repeat split; vm_compute; reflexivity. Qed.





(** The incoming size is what [parseInt] reads, not the declared number: a
    commit that declares 10^21 bytes next to 8 stored bytes under a ceiling
    of 10 reads the size 1 and is let through. *)
Example commit_declared_size_in_exponent_notation :
  commitQuota Sample.pendingWorld Sample.cfg1
              (Sample.record "f1" "new" "new.bin" 0 (Some "admin1")) (Js.Num (10 ^ 21))
  = None.
Proof. reflexivity. Qed.

(* ================================================================== *)
(** * Reasoning about handlers                                         *)
(* ================================================================== *)

Lemma bind_inv {A B : Type} (m : Handler A) (k : A -> Handler B) (w w' : World)
    (r : ApiError + B) :
  bind m k w = (r, w') ->
  (exists e, m w = (inl e, w') /\ r = inl e)
  \/ (exists a w1, m w = (inr a, w1) /\ k a w1 = (r, w')).
Proof.
  unfold bind. destruct (m w) as [[e|a] w1]; intros H.
  - left. exists e. injection H as <- <-. now split.
  - right. now exists a, w1.
Qed.

Lemma bind_ok {A B : Type} (m : Handler A) (k : A -> Handler B) (w w1 : World) (a : A) :
  m w = (inr a, w1) -> bind m k w = k a w1.
Proof. unfold bind. now intros ->. Qed.

Lemma bind_err {A B : Type} (m : Handler A) (k : A -> Handler B) (w w1 : World)
    (e : ApiError) :
  m w = (inl e, w1) -> bind m k w = (inl e, w1).
Proof. unfold bind. now intros ->. Qed.

Lemma rejectIf_inv (cond : bool) (e : ApiError) (w w' : World) (r : ApiError + unit) :
  rejectIf cond e w = (r, w') ->
  w' = w /\ ((cond = true /\ r = inl e) \/ (cond = false /\ r = inr tt)).
Proof.
  unfold rejectIf, fail, ret. destruct cond; intros H; injection H as <- <-; auto.
Qed.

Lemma orFail_inv {A : Type} (o : option A) (e : ApiError) (w w' : World) (r : ApiError + A) :
  orFail o e w = (r, w') ->
  w' = w /\ ((o = None /\ r = inl e) \/ (exists a, o = Some a /\ r = inr a)).
Proof.
  unfold orFail, fail, ret. destruct o; intros H; injection H as <- <-; eauto.
Qed.

Lemma getWorld_inv (w w' : World) (r : ApiError + World) :
  getWorld w = (r, w') -> w' = w /\ r = inr w.
Proof. unfold getWorld. intros H. injection H as <- <-. auto. Qed.

Lemma modify_inv (f : World -> World) (w w' : World) (r : ApiError + unit) :
  modify f w = (r, w') -> w' = f w /\ r = inr tt.
Proof. unfold modify. intros H. injection H as <- <-. auto. Qed.

Lemma orThrow_inv {A : Type} (r : Thrown + A) (w w' : World) (x : ApiError + A) :
  orThrow r w = (x, w') ->
  w' = w /\ ((exists t, r = inl t /\ x = inl (InternalError t))
             \/ (exists a, r = inr a /\ x = inr a)).
Proof.
  unfold orThrow, fail, ret. destruct r as [t|a]; intros H; injection H as <- <-; eauto.
Qed.

(** Case split on the first step of a sequence. *)
Ltac bind_cases H :=
  let e := fresh "e" in
  let He := fresh "He" in
  let Hm := fresh "Hm" in
  let a := fresh "a" in
  let w1 := fresh "w" in
  apply bind_inv in H; destruct H as [(e & Hm & He) | (a & w1 & Hm & H)].

(** The first step of a sequence that ends well has ended well. *)
Ltac bind_ok_step H :=
  let e := fresh "e" in
  let He := fresh "He" in
  let Hm := fresh "Hm" in
  let a := fresh "a" in
  let w1 := fresh "w" in
  apply bind_inv in H; destruct H as [(e & _ & He) | (a & w1 & Hm & H)];
  [discriminate He|].

Ltac inv_sum :=
  repeat match goal with
         | H : inl _ = inl _ |- _ => injection H as H
         | H : inr _ = inr _ |- _ => injection H as H
         | H : inr _ = inl _ |- _ => discriminate H
         | H : inl _ = inr _ |- _ => discriminate H
         | H : Some _ = Some _ |- _ => injection H as H
         end.

Lemma allocateSlug_inv (env : Env) (customSlug : option string) (override : bool)
    (w w' : World) (r : ApiError + string) :
  allocateSlug env customSlug override w = (r, w') ->
  w' = w
  /\ match r with
     | inl e => isCapacityError e = false /\ isSizeLimitError e = false
     | inr s => generateUniqueFileSlug env w customSlug override = inr s
     end.
Proof.
  unfold allocateSlug, bind, getWorld.
  destruct (generateUniqueFileSlug env w customSlug override) as [[]|s];
    intros H; injection H as <- <-; auto.
Qed.

Lemma storagePathFor_inv (env : Env) (c : Caller) (s3Config : S3Config)
    (customPath fileNamePart : string) (w w' : World) (r : ApiError + string) :
  storagePathFor env c s3Config customPath fileNamePart w = (r, w') ->
  w' = w /\ forall e, r = inl e -> e = NoStoragePermission.
Proof.
  unfold storagePathFor.
  destruct (authType c); try (intros H; injection H as <- <-; split; [reflexivity | discriminate]).
  destruct (apiKeyInfo c) as [[basicPath|]|];
    try (intros H; injection H as <- <-; split; [reflexivity | discriminate]).
  destruct (negb (String.eqb basicPath EmptyString) && negb (String.eqb basicPath "/"));
    try (intros H; injection H as <- <-; split; [reflexivity | discriminate]).
  unfold bind, getWorld, rejectIf, fail, ret.
  destruct (negb _); intros H; injection H as <- <-; split; try reflexivity; try discriminate.
  intros e H. now injection H.
Qed.

Lemma removeExisting_files (env : Env) (existingFile : FileRecord) (w : World) :
  files (removeExisting env existingFile w) = files w
  \/ files (removeExisting env existingFile w) = deleteFile (f_id existingFile) (files w).
Proof.
  unfold removeExisting.
  destruct (configById w (f_s3_config_id existingFile)) as [cfg|]; [|now right].
  destruct (deleteFileFromS3 env cfg (f_storage_path existingFile)); auto.
Qed.

Lemma removeExisting_subset (env : Env) (existingFile : FileRecord) (w : World)
    (g : FileRecord) :
  In g (files (removeExisting env existingFile w)) -> In g (files w).
Proof.
  destruct (removeExisting_files env existingFile w) as [-> | ->]; [auto|].
  intros H. now apply deleteFile_In in H.
Qed.

(** The override step of the presign route never answers with an error,
    and the rows it leaves are rows of the old table. *)
Lemma presignOverride_inv (env : Env) (override : bool) (slug : option string)
    (w w' : World) (r : ApiError + unit) :
  presignOverride env override slug w = (r, w') ->
  r = inr tt /\ forall g, In g (files w') -> In g (files w).
Proof.
  unfold presignOverride.
  destruct (if override then nonEmpty slug else None) as [s|];
    unfold modify, ret; intros H; injection H as <- <-; split; auto.
  intros g. destruct (fileBySlug w s); [apply removeExisting_subset | auto].
Qed.

(** An error of the presign route that is a size-limit or a capacity error
    needs a truthy declared size. *)
Lemma presign_error_kind (env : Env) (c : Caller) (body : PresignBody) (w w' : World)
    (e : ApiError) :
  presign env c body w = (inl e, w') ->
  isSizeLimitError e = true \/ isCapacityError e = true ->
  Js.truthy (pb_size body) = true.
Proof.
  intros H K. destruct (Js.truthy (pb_size body)) eqn:T; [reflexivity|]. exfalso.
  assert (K' : isSizeLimitError e = false /\ isCapacityError e = false ->  False).
  { intros [K1 K2]. destruct K; congruence. }
  clear K. apply K'. clear K'.
  unfold presign in H.
  bind_cases H.
  { apply orFail_inv in Hm. destruct Hm as [_ [[_ Hr]|(x & _ & Hr)]]; inv_sum; subst; auto. }
  bind_cases H.
  { apply orFail_inv in Hm0. destruct Hm0 as [_ [[_ Hr]|(x & _ & Hr)]]; inv_sum; subst; auto. }
  bind_cases H.
  { apply getWorld_inv in Hm1. destruct Hm1 as [_ Hr]. inv_sum. }
  bind_cases H.
  { apply rejectIf_inv in Hm2. rewrite T in Hm2. simpl in Hm2.
    destruct Hm2 as [_ [[Hc _]|[_ Hr]]]; [discriminate | inv_sum]. }
  bind_cases H.
  { apply orFail_inv in Hm3. destruct Hm3 as [_ [[_ Hr]|(x & _ & Hr)]]; inv_sum; subst; auto. }
  bind_cases H.
  { rewrite (presignQuota_falsy _ _ _ _ T) in Hm4. unfold ret in Hm4. inv_sum.
    injection Hm4 as Hm4 _. discriminate. }
  bind_cases H.
  { apply rejectIf_inv in Hm5. destruct Hm5 as [_ [[_ Hr]|[_ Hr]]]; inv_sum; subst; auto. }
  bind_cases H.
  { apply allocateSlug_inv in Hm6. destruct Hm6 as [_ Hr]. inv_sum. subst. tauto. }
  bind_cases H.
  { apply presignOverride_inv in Hm7. destruct Hm7 as [Hr _]. discriminate. }
  bind_cases H.
  { apply orThrow_inv in Hm8. destruct Hm8 as [_ [(t & _ & Hr)|(x & _ & Hr)]];
      inv_sum; subst; auto. }
  destruct (getFileNameAndExt env a0) as [fileName fileExt].
  bind_cases H.
  { apply storagePathFor_inv in Hm9. destruct Hm9 as [_ Hr].
    inv_sum. subst. rewrite (Hr _ eq_refl). auto. }
  bind_cases H.
  { apply modify_inv in Hm10. destruct Hm10 as [_ Hr]. discriminate. }
  unfold ret in H. discriminate.
Qed.

(** A presign request that is answered with success has appended one
    placeholder row; the rows before it are rows of the old table. *)
Lemma presign_success (env : Env) (c : Caller) (body : PresignBody) (w w' : World)
    (d : PresignData) :
  presign env c body w = (inr d, w') ->
  exists fs f,
    files w' = fs ++ [f]
    /\ (forall g, In g fs -> In g (files w))
    /\ f_id f = file_id d /\ f_slug f = slug d /\ f_storage_path f = storage_path d
    /\ f_size f = 0 /\ f_etag f = None
    /\ f_created_by f = presignCreator c.
Proof.
  intros H. unfold presign in H.
  bind_ok_step H. bind_ok_step H. bind_ok_step H. bind_ok_step H. bind_ok_step H.
  bind_ok_step H. bind_ok_step H. bind_ok_step H. bind_ok_step H. bind_ok_step H.
  destruct (getFileNameAndExt env a0) as [fileName fileExt].
  bind_ok_step H. bind_ok_step H.
  unfold ret in H. injection H as <- <-.
  apply orFail_inv in Hm, Hm0, Hm3. destruct Hm as [-> _], Hm0 as [-> _], Hm3 as [-> _].
  apply getWorld_inv in Hm1. destruct Hm1 as [-> Hw]. injection Hw as ->.
  apply rejectIf_inv in Hm2, Hm5. destruct Hm2 as [-> _], Hm5 as [-> _].
  assert (w5 = w) as ->.
  { destruct (presignQuota w a3 a (pb_size body)); unfold fail, ret in Hm4; congruence. }
  apply allocateSlug_inv in Hm6. destruct Hm6 as [-> _].
  apply orThrow_inv in Hm8. destruct Hm8 as [-> _].
  apply storagePathFor_inv in Hm9. destruct Hm9 as [-> _].
  apply modify_inv in Hm10. destruct Hm10 as [-> _].
  eexists _, _. split; [reflexivity|].
  split; [|repeat split].
  apply presignOverride_inv in Hm7. apply Hm7.
Qed.

(* ================================================================== *)
(** * Presign without a declared size (C10)                            *)
(* ================================================================== *)

(** C10.  For every presign request whose body omits [size] or gives a
    falsy one, neither the upload-limit check nor the capacity pre-check is
    made: the answer is never the size-limit error nor the capacity error,
    whatever the limit, the ceiling and the usage are, and when the request
    is answered with success the placeholder FileRecord it inserted has
    size 0 and a null ETag.  Hence a size-limit or capacity error at
    presign time needs a truthy declared size. *)
Theorem C10_presign_without_size (env : Env) (c : Caller) (body : PresignBody) (w : World) :
  Js.truthy (pb_size body) = false ->
  (forall e, fst (presign env c body w) = inl e ->
             isSizeLimitError e = false /\ isCapacityError e = false)
  /\ (forall d, fst (presign env c body w) = inr d ->
        exists fs f,
          files (snd (presign env c body w)) = fs ++ [f]
          /\ f_id f = file_id d /\ f_size f = 0 /\ f_etag f = None).
Proof.
  intros T. destruct (presign env c body w) as [r w'] eqn:E. simpl. split.
  - intros e ->.
    destruct (isSizeLimitError e) eqn:K1.
    + pose proof (presign_error_kind _ _ _ _ _ _ E (or_introl K1)). congruence.
    + destruct (isCapacityError e) eqn:K2; [|auto].
      pose proof (presign_error_kind _ _ _ _ _ _ E (or_intror K2)). congruence.
  - intros d ->. destruct (presign_success _ _ _ _ _ _ E)
      as (fs & f & Hf & _ & Hid & _ & _ & Hsz & Het & _).
    now exists fs, f.
Qed.

(** A request without a size against a store already above its ceiling. *)
Lemma C10_presign_without_size_witness :
  exists d fs f,
    fst (presign Sample.env Sample.admin1 (Sample.presignBody Js.Undefined None None)
                 Sample.fullWorld) = inr d
    /\ files (snd (presign Sample.env Sample.admin1
                           (Sample.presignBody Js.Undefined None None) Sample.fullWorld))
       = fs ++ [f]
    /\ f_id f = file_id d /\ f_size f = 0 /\ f_etag f = None.
Proof.
  pose proof (C10_presign_without_size Sample.env Sample.admin1
                (Sample.presignBody Js.Undefined None None) Sample.fullWorld eq_refl)
    as [_ H].
  eexists. destruct (H _ eq_refl) as (fs & f & H1 & H2).
  exists fs, f. split; [reflexivity | split; assumption].
Defined.

(* ================================================================== *)
(** * The commit route (C2, C7)                                        *)
(* ================================================================== *)

Lemma commitLookup_world (c : Caller) (body : CommitBody) (w w' : World)
    (r : ApiError + (string * FileRecord * S3Config)) :
  commitLookup c body w = (r, w') -> w' = w.
Proof.
  unfold commitLookup. intros H.
  bind_cases H; [apply orFail_inv in Hm; tauto|].
  apply orFail_inv in Hm. destruct Hm as [-> _].
  bind_cases H; [apply getWorld_inv in Hm; tauto|].
  apply getWorld_inv in Hm. destruct Hm as [-> _].
  bind_cases H; [apply orFail_inv in Hm; tauto|].
  apply orFail_inv in Hm. destruct Hm as [-> _].
  bind_cases H; [apply rejectIf_inv in Hm; tauto|].
  apply rejectIf_inv in Hm. destruct Hm as [-> _].
  bind_cases H; [apply rejectIf_inv in Hm; tauto|].
  apply rejectIf_inv in Hm. destruct Hm as [-> _].
  bind_cases H; [apply orFail_inv in Hm; tauto|].
  apply orFail_inv in Hm. destruct Hm as [-> _].
  unfold ret in H. now injection H.
Qed.

(** What the validation has established when it lets a request through. *)
Lemma commitLookup_ok (c : Caller) (body : CommitBody) (w w' : World) (fid : string)
    (file : FileRecord) (s3Config : S3Config) :
  commitLookup c body w = (inr (fid, file, s3Config), w') ->
  nonEmpty (cb_file_id body) = Some fid
  /\ fileById w fid = Some file
  /\ commitConfig w c file = Some s3Config
  /\ (isAdmin c = true -> Js.truthyStr (f_created_by file) = true ->
      f_created_by file = Some (userId c))
  /\ (authType c = AuthApiKey -> Js.truthyStr (f_created_by file) = true ->
      f_created_by file = Some (apikeyCreator (userId c))).
Proof.
  unfold commitLookup. intros H.
  bind_ok_step H. apply orFail_inv in Hm. destruct Hm as [-> [[_ ?]|(x & Hx & Hr)]]; inv_sum.
  bind_ok_step H. apply getWorld_inv in Hm. destruct Hm as [-> Hr0]. inv_sum.
  bind_ok_step H. apply orFail_inv in Hm. destruct Hm as [-> [[_ ?]|(y & Hy & Hr1)]]; inv_sum.
  bind_ok_step H. apply rejectIf_inv in Hm. destruct Hm as [-> [[_ ?]|[Hc1 _]]]; inv_sum.
  bind_ok_step H. apply rejectIf_inv in Hm. destruct Hm as [-> [[_ ?]|[Hc2 _]]]; inv_sum.
  bind_ok_step H. apply orFail_inv in Hm. destruct Hm as [-> [[_ ?]|(z & Hz & Hr2)]]; inv_sum.
  unfold ret in H. injection H as <- <- <- <-. subst.
  repeat split; try assumption.
  - intros Ha Ht. rewrite Ha, Ht in Hc1. simpl in Hc1. apply negb_false_iff in Hc1.
    destruct (f_created_by y) as [s|]; [|discriminate].
    simpl in Hc1. apply String.eqb_eq in Hc1. now subst.
  - intros Ha Ht. rewrite Ha, Ht in Hc2. simpl in Hc2. apply negb_false_iff in Hc2.
    destruct (f_created_by y) as [s|]; [|discriminate].
    simpl in Hc2. apply String.eqb_eq in Hc2. now subst.
Qed.

(** After a successful validation the route is the capacity check with its
    compensation, then the persistence step. *)
Lemma commit_after_lookup (env : Env) (c : Caller) (body : CommitBody) (w : World)
    (fid : string) (file : FileRecord) (s3Config : S3Config) :
  commitLookup c body w = (inr (fid, file, s3Config), w) ->
  commit env c body w =
    match commitQuota w s3Config file (cb_size body) with
    | Some e => (inl e, rollbackCommit env s3Config file w)
    | None => commitPersist env c body fid file s3Config w
    end.
Proof.
  intros H. unfold commit. rewrite (bind_ok _ _ _ _ _ H).
  unfold commitCapacityCheck, bind, getWorld.
  destruct (commitQuota w s3Config file (cb_size body)); reflexivity.
Qed.

Lemma commit_lookup_err (env : Env) (c : Caller) (body : CommitBody) (w : World)
    (e : ApiError) :
  commitLookup c body w = (inl e, w) -> commit env c body w = (inl e, w).
Proof. intros H. unfold commit. now rewrite (bind_err _ _ _ _ _ H). Qed.





Lemma find_map_same {A : Type} (p : A -> bool) (g : A -> A) (l : list A) :
  (forall x, p (g x) = p x) -> find p (map g l) = option_map g (find p l).
Proof.
  intros Hp. induction l as [|x r IH]; simpl; [reflexivity|].
  rewrite Hp. destruct (p x); [reflexivity | exact IH].
Qed.

(** The persistence step, written out. *)
Lemma commitPersist_run (env : Env) (c : Caller) (body : CommitBody) (fid : string)
    (file : FileRecord) (s3Config : S3Config) (w : World) :
  commitPersist env c body fid file s3Config w =
    match commitExpiresAt env (cb_expires_in body) with
    | inl t => (inl (InternalError t), w)
    | inr expiresAt =>
        let w1 := setFiles w (commitUpdate env c body expiresAt fid (files w)) in
        let w2 := match nonEmpty (cb_password body) with
                  | Some password =>
                      setPasswords w1 (upsertPassword fid password (file_passwords w1))
                  | None => w1
                  end in
        let w3 := clearCache (touchAncestors w2 (c_id s3Config) (f_storage_path file))
                             (f_s3_config_id file) in
        (match find (fun f => String.eqb (f_id f) fid)
                    (commitUpdate env c body expiresAt fid (files w)) with
         | Some updated =>
             inr (mkCommitData (summaryOf updated)
                    (Js.truthyStr (option_map (hashPassword env) (nonEmpty (cb_password body))))
                    expiresAt
                    (commitMaxViews (cb_max_views body))
                    ("/file/" ++ fs_slug (summaryOf updated))%string)
         | None => inl (InternalError ThrownTypeError)
         end, w3)
    end.
Proof.
  unfold commitPersist, bind, orThrow, modify, getWorld, orFail, ret, fail, fileById.
  destruct (commitExpiresAt env (cb_expires_in body)) as [t|expiresAt]; [reflexivity|].
  destruct (nonEmpty (cb_password body)); simpl;
    destruct (find _ (commitUpdate env c body expiresAt fid (files w))); reflexivity.
Qed.

(** Without an ETag in the request the UPDATE writes the rows it writes
    with any ETag, except for the [etag] column, which is null. *)
Lemma commitUpdate_withEtag (env : Env) (c : Caller) (body : CommitBody)
    (etag : option string) (expiresAt : option Z) (fid : string) (fs : list FileRecord) :
  nonEmpty (cb_etag body) = None ->
  commitUpdate env c body expiresAt fid fs
  = map (fun f => if String.eqb (f_id f) fid then clearEtag f else f)
        (commitUpdate env c (withEtag etag body) expiresAt fid fs).
Proof.
  intros He. unfold commitUpdate. rewrite map_map. apply map_ext. intros f.
  destruct (String.eqb (f_id f) fid) eqn:E; simpl; rewrite E; [|reflexivity].
  unfold commitUpdateRow, clearEtag. simpl. now rewrite He.
Qed.

(** The rows a successful commit leaves under the committed id. *)
Lemma commitUpdate_row (env : Env) (c : Caller) (body : CommitBody)
    (expiresAt : option Z) (fid : string) (fs : list FileRecord) (f : FileRecord) :
  In f (commitUpdate env c body expiresAt fid fs) -> f_id f = fid ->
  exists f0, In f0 fs /\ f_id f0 = fid /\ f = commitUpdateRow env c body expiresAt f0.
Proof.
  unfold commitUpdate. rewrite in_map_iff. intros (f0 & Hf & Hin) Hid.
  destruct (String.eqb (f_id f0) fid) eqn:E.
  - apply String.eqb_eq in E. now exists f0.
  - apply String.eqb_neq in E. subst f. contradiction.
Qed.

(** The size the UPDATE binds: nothing for a falsy declared size, the
    integer read from a truthy one when it is not negative, else 0. *)
Lemma commitFileSize_spec (size : Js.Val) :
  (Js.truthy size = false -> commitFileSize size = None)
  /\ (Js.truthy size = true -> forall n, Js.parseInt size = Some n -> 0 <= n ->
        commitFileSize size = Some n)
  /\ (Js.truthy size = true ->
        Js.parseInt size = None \/ (exists n, Js.parseInt size = Some n /\ n < 0) ->
        commitFileSize size = Some 0).
Proof.
  unfold commitFileSize. refine (conj _ (conj _ _)).
  - now intros ->.
  - intros -> n -> Hn. apply Z.ltb_ge in Hn. now rewrite Hn.
  - intros -> [->|(n & -> & Hn)]; [reflexivity|]. apply Z.ltb_lt in Hn. now rewrite Hn.
Qed.

(** The expiry the UPDATE binds: the clock moved on by the hours read from
    a truthy [expires_in] when they are positive, null otherwise. *)
Lemma commitExpiresAt_spec (env : Env) (expires_in : Js.Val) (expiresAt : option Z) :
  commitExpiresAt env expires_in = inr expiresAt ->
  (forall h, Js.truthy expires_in = true -> Js.parseInt expires_in = Some h -> 0 < h ->
             hoursFromNow env h = expiresAt /\ expiresAt <> None)
  /\ (Js.truthy expires_in = false \/ Js.parseInt expires_in = None
      \/ (exists h, Js.parseInt expires_in = Some h /\ h <= 0) ->
      expiresAt = None).
Proof.
  unfold commitExpiresAt, expiryAfter. intros H. split.
  - intros h T P Hh. rewrite T, P in H. apply Z.ltb_lt in Hh. rewrite Hh in H.
    destruct (hoursFromNow env h) as [t|]; [|discriminate H].
    injection H as <-. split; [reflexivity | discriminate].
  - intros [T|[P|(h & P & Hh)]].
    + rewrite T in H. now injection H.
    + destruct (Js.truthy expires_in); [|now injection H]. rewrite P in H. now injection H.
    + destruct (Js.truthy expires_in); [|now injection H]. rewrite P in H.
      apply Z.ltb_ge in Hh. rewrite Hh in H. now injection H.
Qed.

(** Where local time is UTC, the expiry is the clock plus the hours. *)
Lemma hoursFromNow_utc (env : Env) (h t : Z) :
  (forall x b, localTZA env x b = 0) ->
  hoursFromNow env h = Some t -> t = now env + h * 3600000.
Proof.
  intros Hz. unfold hoursFromNow, Js.timeClip. rewrite !Hz.
  destruct (Z.abs _ <=? Js.maxTime); [|discriminate].
  intros H. injection H as <-. unfold Js.msPerHour. lia.
Qed.

Lemma commitMaxViews_spec (max_views : Js.Val) :
  (Js.truthy max_views = true -> commitMaxViews max_views = Js.parseInt max_views)
  /\ (Js.truthy max_views = false -> commitMaxViews max_views = None).
Proof. unfold commitMaxViews. split; now intros ->. Qed.

(** C7.  Commit without ETag.  For every commit request without an [etag]
    and for every ETag that could have been sent with it: the answer is the
    same as with the ETag (a request that succeeds with an ETag succeeds
    without it, a failure is the same failure), a failure leaves the same
    state, and on success the state differs only in the [etag] column of
    the committed record, which is null.  On success the committed record
    holds what the request gives: the creator of the caller, the remark,
    the hash of the password, the size read from a truthy [size] (the old
    size for a falsy one), the clock moved on by the hours of a positive
    [expires_in] (null otherwise), and the number read from a truthy
    [max_views] (null otherwise). *)
Theorem C7_commit_without_etag (env : Env) (c : Caller) (body : CommitBody) (w : World) :
  nonEmpty (cb_etag body) = None ->
  (forall etag,
      fst (commit env c body w) = fst (commit env c (withEtag etag body) w)
      /\ (forall e, fst (commit env c body w) = inl e ->
            snd (commit env c body w) = snd (commit env c (withEtag etag body) w))
      /\ (forall d, fst (commit env c body w) = inr d ->
            snd (commit env c body w)
            = setFiles (snd (commit env c (withEtag etag body) w))
                (map (fun f => if String.eqb (f_id f) (fs_id (updatedFile d))
                               then clearEtag f else f)
                     (files (snd (commit env c (withEtag etag body) w))))))
  /\ (forall d, fst (commit env c body w) = inr d ->
        (exists f, In f (files (snd (commit env c body w)))
                   /\ f_id f = fs_id (updatedFile d))
        /\ forall f, In f (files (snd (commit env c body w))) ->
                     f_id f = fs_id (updatedFile d) ->
            f_etag f = None
            /\ f_created_by f
               = Some (match authType c with
                       | AuthAdmin => userId c
                       | _ => ("apikey:" ++ userId c)%string
                       end)
            /\ f_remark f = nonEmpty (cb_remark body)
            /\ f_password f = option_map (hashPassword env) (nonEmpty (cb_password body))
            /\ (exists f0, In f0 (files w) /\ f_id f0 = f_id f
                           /\ f_slug f = f_slug f0 /\ f_storage_path f = f_storage_path f0
                           /\ (Js.truthy (cb_size body) = false -> f_size f = f_size f0))
            /\ (Js.truthy (cb_size body) = true ->
                (forall n, Js.parseInt (cb_size body) = Some n -> 0 <= n -> f_size f = n)
                /\ (Js.parseInt (cb_size body) = None
                    \/ (exists n, Js.parseInt (cb_size body) = Some n /\ n < 0) ->
                    f_size f = 0))
            /\ (forall h, Js.truthy (cb_expires_in body) = true ->
                          Js.parseInt (cb_expires_in body) = Some h -> 0 < h ->
                  f_expires_at f = hoursFromNow env h
                  /\ f_expires_at f <> None
                  /\ ((forall x b, localTZA env x b = 0) ->
                      f_expires_at f = Some (now env + h * 3600000)))
            /\ (Js.truthy (cb_expires_in body) = false
                \/ Js.parseInt (cb_expires_in body) = None
                \/ (exists h, Js.parseInt (cb_expires_in body) = Some h /\ h <= 0) ->
                f_expires_at f = None)
            /\ (Js.truthy (cb_max_views body) = true ->
                f_max_views f = Js.parseInt (cb_max_views body))
            /\ (Js.truthy (cb_max_views body) = false -> f_max_views f = None)
            /\ expiresAt d = f_expires_at f
            /\ maxViews d = f_max_views f).
Proof.
  intros Hnone.
  destruct (commitLookup c body w) as [[e|[[fid file] cfg]] w1] eqn:E;
    pose proof (commitLookup_world _ _ _ _ _ E) as ->.
  - split.
    + intros etag.
      assert (Hl : commitLookup c (withEtag etag body) w = (inl e, w)) by exact E.
      rewrite (commit_lookup_err env _ _ _ _ E), (commit_lookup_err env _ _ _ _ Hl). simpl.
      split; [reflexivity|]. split; [reflexivity|]. intros d H. discriminate.
    + rewrite (commit_lookup_err env _ _ _ _ E). intros d H. discriminate.
  - destruct (commitLookup_ok _ _ _ _ _ _ _ E) as (_ & Hfile & _).
    assert (Hfound : forall b x,
               find (fun f => String.eqb (f_id f) fid) (commitUpdate env c b x fid (files w))
               = Some (commitUpdateRow env c b x file)).
    { intros b x. unfold commitUpdate. rewrite find_map_same.
      - unfold fileById in Hfile. rewrite Hfile. simpl.
        apply find_some in Hfile. destruct Hfile as [_ Hid]. now rewrite Hid.
      - intros y. destruct (String.eqb (f_id y) fid) eqn:Ey; simpl; rewrite ?Ey; reflexivity. }
    pose proof (find_some _ _ Hfile) as [Hin0 Hid0]. apply String.eqb_eq in Hid0.
    split.
    + intros etag.
      assert (Hl : commitLookup c (withEtag etag body) w = (inr (fid, file, cfg), w))
        by exact E.
      rewrite (commit_after_lookup env _ _ _ _ _ _ E),
        (commit_after_lookup env _ _ _ _ _ _ Hl).
      change (cb_size (withEtag etag body)) with (cb_size body).
      destruct (commitQuota w cfg file (cb_size body)) as [e|]; simpl.
      { split; [reflexivity|]. split; [reflexivity|]. intros d H. discriminate. }
      rewrite !commitPersist_run.
      change (cb_expires_in (withEtag etag body)) with (cb_expires_in body).
      destruct (commitExpiresAt env (cb_expires_in body)) as [t|ex]; simpl.
      { split; [reflexivity|]. split; [reflexivity|]. intros d H. discriminate. }
      change (cb_password (withEtag etag body)) with (cb_password body).
      change (cb_max_views (withEtag etag body)) with (cb_max_views body).
      rewrite !Hfound. simpl.
      split; [reflexivity|]. split; [intros e H; discriminate|].
      intros d H. injection H as <-. simpl. rewrite Hid0.
      rewrite (commitUpdate_withEtag env c body etag ex fid (files w) Hnone).
      destruct (nonEmpty (cb_password body)); reflexivity.
    + rewrite (commit_after_lookup env _ _ _ _ _ _ E).
      destruct (commitQuota w cfg file (cb_size body)) as [e|]; simpl;
        [intros d H; discriminate|].
      rewrite commitPersist_run.
      destruct (commitExpiresAt env (cb_expires_in body)) as [t|ex] eqn:Ex; simpl;
        [intros d H; discriminate|].
      rewrite Hfound. simpl. intros d H. injection H as <-. simpl.
      assert (Hfiles : files
                match nonEmpty (cb_password body) with
                | Some password =>
                    setPasswords (setFiles w (commitUpdate env c body ex fid (files w)))
                                 (upsertPassword fid password (file_passwords w))
                | None => setFiles w (commitUpdate env c body ex fid (files w))
                end
              = commitUpdate env c body ex fid (files w)).
      { destruct (nonEmpty (cb_password body)); reflexivity. }
      rewrite !Hfiles.
      split.
      { exists (commitUpdateRow env c body ex file). split; [|reflexivity].
        unfold commitUpdate. apply in_map_iff. exists file.
        split; [|exact Hin0]. now rewrite Hid0, String.eqb_refl. }
      intros f Hin Hid. rewrite Hid0 in Hid.
      destruct (commitUpdate_row _ _ _ _ _ _ _ Hin Hid) as (f0 & Hf0 & Hf0id & ->).
      destruct (commitFileSize_spec (cb_size body)) as (S1 & S2 & S3).
      destruct (commitExpiresAt_spec env _ _ Ex) as (X1 & X2).
      destruct (commitMaxViews_spec (cb_max_views body)) as (M1 & M2).
      simpl.
      refine (conj _ (conj _ (conj eq_refl (conj eq_refl (conj _ (conj _ (conj _ (conj X2
                (conj M1 (conj M2 (conj eq_refl eq_refl))))))))))).
      * exact Hnone.
      * unfold commitCreator, apikeyCreator. reflexivity.
      * exists f0. refine (conj Hf0 (conj eq_refl (conj eq_refl (conj eq_refl _)))).
        intros T. now rewrite (S1 T).
      * intros T. split.
        -- intros n P Hn. now rewrite (S2 T n P Hn).
        -- intros P. now rewrite (S3 T P).
      * intros h T P Hh. destruct (X1 h T P Hh) as [X3 X4].
        split; [now rewrite X3|]. split; [exact X4|].
        intros Hz. destruct ex as [t|]; [|now elim X4].
        now rewrite (hoursFromNow_utc env h t Hz X3).
Qed.

(** A commit without an ETag that supplies a size, a password, an expiry of
    24 hours, a remark and a view limit: it succeeds and all of them are
    stored, next to a null ETag. *)
Lemma C7_commit_without_etag_witness :
  exists d f,
    fst (commit Sample.env Sample.admin1
           (mkCommitBody (Some "f1") None (Js.Num 2) (Some "pw") (Js.Str "24") (Some "notes")
                         (Js.Num 5))
           Sample.pendingWorld) = inr d
    /\ fileById (snd (commit Sample.env Sample.admin1
                        (mkCommitBody (Some "f1") None (Js.Num 2) (Some "pw") (Js.Str "24")
                                      (Some "notes") (Js.Num 5))
                        Sample.pendingWorld)) "f1" = Some f
    /\ f_etag f = None
    /\ f_created_by f = Some "admin1"
    /\ f_remark f = Some "notes"
    /\ f_password f = Some "hash:pw"
    /\ f_size f = 2
    /\ f_expires_at f = Some (1700000000000 + 24 * 3600000)
    /\ f_max_views f = Some 5.
Proof.
  pose proof (proj2 (C7_commit_without_etag Sample.env Sample.admin1
                       (mkCommitBody (Some "f1") None (Js.Num 2) (Some "pw") (Js.Str "24")
                                     (Some "notes") (Js.Num 5))
                       Sample.pendingWorld eq_refl)) as H.
  destruct (commit Sample.env Sample.admin1
              (mkCommitBody (Some "f1") None (Js.Num 2) (Some "pw") (Js.Str "24") (Some "notes")
                            (Js.Num 5))
              Sample.pendingWorld) as [[e|d] w'] eqn:E; [vm_compute in E; discriminate E|].
  cbn [fst snd] in H |- *.
  assert (Hd : fs_id (updatedFile d) = "f1") by (vm_compute in E; now injection E as <- _).
  destruct (H d eq_refl) as [(f & Hin & Hid) Hf].
  exists d, f. split; [reflexivity|].
  split.
  { rewrite Hd in Hid. vm_compute in E. injection E as _ <-.
    destruct Hin as [<-|[<-|[]]]; [discriminate Hid | reflexivity]. }
  destruct (Hf f Hin Hid) as (H1 & H2 & H3 & H4 & _ & H6 & H7 & _ & H9 & _).
  refine (conj H1 (conj H2 (conj H3 (conj H4 (conj _ (conj _ _)))))).
  - apply (proj1 (H6 eq_refl) 2); [vm_compute; reflexivity | lia].
  - apply (proj2 (proj2 (H7 24 eq_refl eq_refl ltac:(lia)))). reflexivity.
  - rewrite (H9 eq_refl). vm_compute. reflexivity.
Defined.

(* ================================================================== *)
(** * Creator identity (C9)                                            *)
(* ================================================================== *)

Lemma directConfigId_world (c : Caller) (req : DirectRequest) (w w' : World)
    (r : ApiError + string) :
  directConfigId c req w = (r, w') -> w' = w.
Proof.
  unfold directConfigId, bind, getWorld.
  destruct (nonEmpty (q_s3_config_id req)) as [i|].
  - destruct (rejectIf _ ApiKeyNeedsPublicConfig w) as [[e|[]] w1] eqn:E;
      apply rejectIf_inv in E; destruct E as [-> _]; unfold ret; intros H; now injection H.
  - intros H. now apply orFail_inv in H.
Qed.

Lemma directOverride_inv (env : Env) (c : Caller) (override : bool)
    (customSlug : option string) (w w' : World) (r : ApiError + unit) :
  directOverride env c override customSlug w = (r, w') ->
  (forall g, In g (files w') -> In g (files w))
  /\ (forall e, r = inl e -> e = OverrideForbidden /\ w' = w).
Proof.
  unfold directOverride.
  destruct (if override then nonEmpty customSlug else None) as [s|].
  - unfold bind, getWorld. destruct (fileBySlug w s) as [ex|].
    + destruct (rejectIf _ OverrideForbidden w) as [[e|[]] w1] eqn:E;
        apply rejectIf_inv in E; destruct E as [-> E]; unfold modify; intros H;
        injection H as <- <-.
      * split; [auto|]. intros e0 H. injection H as <-.
        destruct E as [[_ E]|[_ E]]; inv_sum. now subst.
      * split; [apply removeExisting_subset | discriminate].
    + unfold ret. intros H. injection H as <- <-. split; [auto | discriminate].
  - unfold ret. intros H. injection H as <- <-. split; [auto | discriminate].
Qed.

Lemma transfer_files (env : Env) (providerB2 : string) (s3Config : S3Config)
    (storagePath : string) (w w' : World) (r : ApiError + option string) :
  transfer env providerB2 s3Config storagePath w = (r, w') -> files w' = files w.
Proof.
  unfold transfer, bind, modify, ret, fail.
  destruct (String.eqb (c_provider_type s3Config) providerB2).
  - destruct (putObject env s3Config storagePath); intros H; now injection H as _ <-.
  - destruct (putObject env s3Config (normalizedPathOf storagePath)); intros H;
      now injection H as _ <-.
Qed.

(** A direct upload that is answered with success has appended one
    complete row; the rows before it are rows of the old table. *)
Lemma uploadDirect_success (env : Env) (providerB2 : string) (c : Caller)
    (req : DirectRequest) (w w' : World) (d : DirectData) :
  uploadDirect env providerB2 c req w = (inr d, w') ->
  exists fs f,
    files w' = fs ++ [f]
    /\ (forall g, In g fs -> In g (files w))
    /\ f_id f = d_id d /\ f_slug f = d_slug d
    /\ f_size f = Z.of_nat (List.length (q_content req))
    /\ f_created_by f = Some (directCreator c)
    /\ d_created_by d = directCreator c
    /\ expiryAfter env (queryInt (q_expires_in req)) = inr (f_expires_at f)
    /\ d_expires_at d = f_expires_at f.
Proof.
  intros H. unfold uploadDirect in H.
  bind_ok_step H. bind_ok_step H. bind_ok_step H. bind_ok_step H. bind_ok_step H.
  bind_ok_step H. bind_ok_step H. bind_ok_step H. bind_ok_step H.
  destruct (getFileNameAndExt env (q_filename req)) as [fileName fileExt].
  bind_ok_step H. bind_ok_step H. bind_ok_step H. bind_ok_step H. bind_ok_step H.
  bind_ok_step H. bind_ok_step H.
  unfold ret in H. injection H as <- <-.
  apply directConfigId_world in Hm. subst w0.
  apply getWorld_inv in Hm0. destruct Hm0 as [-> Hw]. injection Hw as ->.
  apply orFail_inv in Hm1. destruct Hm1 as [-> _].
  apply rejectIf_inv in Hm2, Hm3, Hm4. destruct Hm2 as [-> _], Hm3 as [-> _], Hm4 as [-> _].
  assert (w6 = w) as ->.
  { destruct (directQuota w a1 a _); unfold fail, ret in Hm5; congruence. }
  apply allocateSlug_inv in Hm6. destruct Hm6 as [-> _].
  apply directOverride_inv in Hm7. destruct Hm7 as [Hsub _].
  apply storagePathFor_inv in Hm8. destruct Hm8 as [-> _].
  apply transfer_files in Hm9.
  apply orThrow_inv in Hm10.
  destruct Hm10 as [-> [(t & _ & Hr)|(x & Hx & Hr)]]; [discriminate Hr|].
  injection Hr as ->.
  apply modify_inv in Hm11, Hm13, Hm14.
  destruct Hm11 as [-> _], Hm13 as [-> _], Hm14 as [-> _].
  assert (Hw13 : files w13 = files w8 ++
            [mkFileRecord (generateFileId env) a6 (q_filename req) a8
               (buildS3Url env a1 a8) a (getMimeTypeFromFilename env (q_filename req))
               (Z.of_nat (List.length (q_content req))) a9 (Some (directCreator c))
               (Some match nonEmpty (q_remark req) with Some r => r | None => EmptyString end)
               (option_map (hashPassword env) (nonEmpty (q_password req)))
               x
               (positiveOrNull (queryInt (q_max_views req)))
               (Some (if negb (optStrEqb (q_use_proxy req) "0") then 1 else 0))]).
  { destruct (nonEmpty (q_password req));
      [apply modify_inv in Hm12 | unfold ret in Hm12; injection Hm12 as _ Hm12];
      [destruct Hm12 as [-> _]|subst w13]; simpl; now rewrite Hm9. }
  simpl. rewrite Hw13.
  eexists _, _. split; [reflexivity|]. split; [exact Hsub|]. repeat split. exact Hx.
Qed.

Lemma commit_success (env : Env) (c : Caller) (body : CommitBody) (w w' : World)
    (d : CommitData) :
  commit env c body w = (inr d, w') ->
  exists fid file s3Config ex,
    commitLookup c body w = (inr (fid, file, s3Config), w)
    /\ commitQuota w s3Config file (cb_size body) = None
    /\ commitExpiresAt env (cb_expires_in body) = inr ex
    /\ files w' = commitUpdate env c body ex fid (files w)
    /\ fs_id (updatedFile d) = fid
    /\ expiresAt d = ex.
Proof.
  intros H.
  destruct (commitLookup c body w) as [[e|[[fid file] cfg]] w1] eqn:E;
    pose proof (commitLookup_world _ _ _ _ _ E) as ->.
  - rewrite (commit_lookup_err env _ _ _ _ E) in H. discriminate.
  - rewrite (commit_after_lookup env _ _ _ _ _ _ E) in H.
    destruct (commitQuota w cfg file (cb_size body)) eqn:Q; [discriminate|].
    rewrite commitPersist_run in H.
    destruct (commitExpiresAt env (cb_expires_in body)) as [t|ex] eqn:Ex; [discriminate|].
    exists fid, file, cfg, ex. split; [reflexivity|].
    split; [first [reflexivity | exact Q]|].
    split; [first [reflexivity | exact Ex]|].
    cbv zeta in H.
    destruct (find (fun f => String.eqb (f_id f) fid)
                   (commitUpdate env c body ex fid (files w)))
      as [u|] eqn:F; [|discriminate].
    injection H as <- <-. split; [|split; [|reflexivity]].
    + destruct (nonEmpty (cb_password body)); reflexivity.
    + apply find_some in F. destruct F as [_ F]. now apply String.eqb_eq in F.
Qed.

Lemma creators_agree (c : Caller) :
  AdminCaller c \/ ApiKeyCaller c ->
  presignCreator c = Some (creatorOf c)
  /\ directCreator c = creatorOf c
  /\ commitCreator c = creatorOf c.
Proof.
  unfold AdminCaller, ApiKeyCaller, presignCreator, directCreator, commitCreator, creatorOf,
    apikeyCreator.
  intros [[-> ->]|[-> ->]]; repeat split.
Qed.

(** C9 (as amended).  Creator identity.  For a caller that is an
    administrator or an API key, every FileRecord inserted by the presign
    route or by the direct route, and every FileRecord updated by the commit
    route, has [created_by] equal to the user id itself for an administrator
    (no [admin:] prefix is added) and to [apikey:<id>] for an API key.  The
    value is stable: a commit is only accepted on a record without a creator
    or with this very creator, and the three routes leave the rows they do
    not insert or update as they were (or delete them, on an override). *)
Theorem C9_creator_identity (env : Env) (providerB2 : string) (c : Caller) (w : World) :
  AdminCaller c \/ ApiKeyCaller c ->
  (forall body d w', presign env c body w = (inr d, w') ->
     exists fs f, files w' = fs ++ [f] /\ f_id f = file_id d
                  /\ f_created_by f = Some (creatorOf c)
                  /\ forall g, In g fs -> In g (files w))
  /\ (forall req d w', uploadDirect env providerB2 c req w = (inr d, w') ->
        exists fs f, files w' = fs ++ [f] /\ f_id f = d_id d
                     /\ f_created_by f = Some (creatorOf c)
                     /\ d_created_by d = creatorOf c
                     /\ forall g, In g fs -> In g (files w))
  /\ (forall body d w', commit env c body w = (inr d, w') ->
        (forall f, In f (files w') -> f_id f = fs_id (updatedFile d) ->
                   f_created_by f = Some (creatorOf c))
        /\ (forall f0, fileById w (fs_id (updatedFile d)) = Some f0 ->
                       Js.truthyStr (f_created_by f0) = true ->
                       f_created_by f0 = Some (creatorOf c))
        /\ (forall f, In f (files w') -> f_id f <> fs_id (updatedFile d) -> In f (files w))).
Proof.
  intros Hc. destruct (creators_agree c Hc) as (Hp & Hd & Hk).
  split; [|split].
  - intros body d w' H.
    destruct (presign_success _ _ _ _ _ _ H) as (fs & f & H1 & H2 & H3 & _ & _ & _ & _ & H4).
    exists fs, f. rewrite H4, Hp. auto.
  - intros req d w' H.
    destruct (uploadDirect_success _ _ _ _ _ _ _ H)
      as (fs & f & H1 & H2 & H3 & _ & _ & H4 & H5 & _ & _).
    exists fs, f. rewrite H4, H5, Hd. auto.
  - intros body d w' H.
    destruct (commit_success _ _ _ _ _ _ H)
      as (fid & file & cfg & ex & Hl & _ & _ & Hf & -> & _).
    destruct (commitLookup_ok _ _ _ _ _ _ _ Hl) as (_ & Hfile & _ & Ha & Hk').
    split; [|split].
    + intros f Hin Hid. rewrite Hf in Hin.
      destruct (commitUpdate_row _ _ _ _ _ _ _ Hin Hid) as (f0 & _ & _ & ->).
      simpl. now rewrite Hk.
    + intros f0 Hf0 Ht. rewrite Hfile in Hf0. injection Hf0 as <-.
      unfold creatorOf. destruct Hc as [[Hadm Hau]|[Hadm Hau]]; rewrite Hadm.
      * now apply Ha.
      * now apply Hk'.
    + intros f Hin Hid. rewrite Hf in Hin. unfold commitUpdate in Hin.
      apply in_map_iff in Hin. destruct Hin as (f0 & Hf0 & Hin).
      destruct (String.eqb (f_id f0) fid) eqn:E.
      * apply String.eqb_eq in E. subst f. simpl in Hid. contradiction.
      * now subst f.
Qed.

(** A direct upload by the administrator [admin1]. *)
Lemma C9_creator_identity_witness :
  exists fs f,
    files (snd (uploadDirect Sample.env Sample.providerB2 Sample.admin1
                  (Sample.directRequest None None None) Sample.emptyWorld)) = fs ++ [f]
    /\ f_created_by f = Some (creatorOf Sample.admin1).
Proof.
  pose proof (C9_creator_identity Sample.env Sample.providerB2 Sample.admin1
                Sample.emptyWorld (or_introl (conj eq_refl eq_refl))) as (_ & H & _).
  destruct (uploadDirect Sample.env Sample.providerB2 Sample.admin1
              (Sample.directRequest None None None) Sample.emptyWorld) as [[e|d] w'] eqn:E.
  - vm_compute in E. discriminate E.
  - destruct (H _ _ _ E) as (fs & f & H1 & _ & H3 & _).
    exists fs, f. split; [exact H1 | exact H3].
Defined.

(** The claim as first stated fails for administrators: the record that the
    administrator [admin1] uploads carries [admin1], not [admin:admin1]. *)
Lemma C9_admin_creator_counterexample :
  exists d f,
    fst (uploadDirect Sample.env Sample.providerB2 Sample.admin1
           (Sample.directRequest None None None) Sample.emptyWorld) = inr d
    /\ files (snd (uploadDirect Sample.env Sample.providerB2 Sample.admin1
                     (Sample.directRequest None None None) Sample.emptyWorld)) = [f]
    /\ f_created_by f = Some "admin1"
    /\ f_created_by f <> Some (prefixedCreator Sample.admin1).
Proof.
  vm_compute. eexists _, _. split; [reflexivity|]. split; [reflexivity|].
  split; [reflexivity | discriminate].
Qed.

(* ================================================================== *)
(** * Expiry sentinel (C8)                                             *)
(* ================================================================== *)

Lemma NoExpiry_isNever (v : Js.Val) : NoExpiry v -> isNever v = true.
Proof. intros [->| ->]; reflexivity. Qed.

Lemma createApiKey_never (env : Env) (w : World) (keyData : KeyData) :
  NoExpiry (kd_expires_at keyData) ->
  createApiKey env w keyData = inl KeyNameEmpty
  \/ createApiKey env w keyData = inl KeyFormatInvalid
  \/ exists row,
       createApiKey env w keyData = inr (row, setApiKeys w (api_keys w ++ [row]))
       /\ k_expires_at row = Some FAR_FUTURE.
Proof.
  intros Hn. apply NoExpiry_isNever in Hn. unfold createApiKey, createExpiresAt.
  rewrite Hn.
  destruct (nonEmpty (kd_name keyData)) as [name|]; [|now left].
  destruct (String.eqb (Js.trim name) EmptyString); [now left|].
  destruct (match nonEmpty (kd_custom_key keyData) with
            | Some k => negb (Js.slugFormatRegexTest k)
            | None => false
            end); [right; now left|].
  right. right. eexists. split; reflexivity.
Qed.

Lemma updateApiKey_never (env : Env) (w : World) (id : string) (updateData : UpdateData) :
  NoExpiry (ud_expires_at updateData) ->
  updateApiKey env w id updateData = inl KeyNotFound
  \/ updateApiKey env w id updateData = inl KeyNameEmpty
  \/ updateApiKey env w id updateData = inl KeyNameExists
  \/ exists w',
       updateApiKey env w id updateData = inr w'
       /\ (exists k, In k (api_keys w') /\ k_id k = id)
       /\ (forall k, In k (api_keys w') -> k_id k = id -> k_expires_at k = Some FAR_FUTURE).
Proof.
  intros Hn. apply NoExpiry_isNever in Hn. unfold updateApiKey, updateExpiresAt.
  rewrite Hn.
  destruct (find (fun k => String.eqb (k_id k) id) (api_keys w)) as [k0|] eqn:F; [|now left].
  match goal with |- context [if ?b then inl KeyNameEmpty else _] => destruct b end;
    [right; now left|].
  match goal with |- context [if ?b then inl KeyNameExists else _] => destruct b end;
    [right; right; now left|].
  right. right. right.
  apply find_some in F. destruct F as [Hin0 Hid0]. simpl in Hid0.
  destruct (ud_name updateData), (ud_text_permission updateData),
    (ud_file_permission updateData), (ud_mount_permission updateData),
    (ud_basic_path updateData);
    (eexists; split; [reflexivity|]; split;
     [ eexists; split;
       [ simpl; apply in_map_iff; exists k0; split; [reflexivity | exact Hin0]
       | rewrite Hid0; simpl; now apply String.eqb_eq in Hid0 ]
     | simpl; intros k Hin Hid; apply in_map_iff in Hin; destruct Hin as (k1 & <- & _);
       destruct (String.eqb (k_id k1) id) eqn:E;
       [ reflexivity | apply String.eqb_neq in E; contradiction ] ]).
Qed.

Lemma commitExpiresAt_never (env : Env) (v : Js.Val) :
  NoExpiry v \/ v = Js.Undefined -> commitExpiresAt env v = inr None.
Proof. intros [[->| ->]| ->]; reflexivity. Qed.

Lemma directExpiry_never (env : Env) (q : option string) :
  q = None \/ q = Some "never" \/ q = Some "null" ->
  expiryAfter env (queryInt q) = inr None.
Proof. intros [->|[->| ->]]; reflexivity. Qed.

(** C8 (as amended).  Expiry sentinel.  An expiry of [null] or [never]
    given to [createApiKey] or to [updateApiKey] is stored as the fixed
    timestamp 9999-12-31T23:59:59Z: unless the call is refused for the key
    name, the key format or a missing key, it succeeds and the key row
    carries that timestamp.  FileRecords have no such mapping: a commit
    whose [expires_in] is [null], [never] or absent, and a direct upload
    whose [expires_in] parameter is absent, [never] or [null], store a null
    [expires_at] and report a null expiry. *)
Theorem C8_expiry_sentinel (env : Env) (w : World) :
  (forall keyData, NoExpiry (kd_expires_at keyData) ->
     createApiKey env w keyData = inl KeyNameEmpty
     \/ createApiKey env w keyData = inl KeyFormatInvalid
     \/ exists row,
          createApiKey env w keyData = inr (row, setApiKeys w (api_keys w ++ [row]))
          /\ k_expires_at row = Some FAR_FUTURE)
  /\ (forall id updateData, NoExpiry (ud_expires_at updateData) ->
        updateApiKey env w id updateData = inl KeyNotFound
        \/ updateApiKey env w id updateData = inl KeyNameEmpty
        \/ updateApiKey env w id updateData = inl KeyNameExists
        \/ exists w',
             updateApiKey env w id updateData = inr w'
             /\ (exists k, In k (api_keys w') /\ k_id k = id)
             /\ (forall k, In k (api_keys w') -> k_id k = id ->
                           k_expires_at k = Some FAR_FUTURE))
  /\ (forall c body d w',
        NoExpiry (cb_expires_in body) \/ cb_expires_in body = Js.Undefined ->
        commit env c body w = (inr d, w') ->
        expiresAt d = None
        /\ (exists f, In f (files w') /\ f_id f = fs_id (updatedFile d))
        /\ forall f, In f (files w') -> f_id f = fs_id (updatedFile d) ->
                     f_expires_at f = None)
  /\ (forall providerB2 c req d w',
        q_expires_in req = None \/ q_expires_in req = Some "never"
        \/ q_expires_in req = Some "null" ->
        uploadDirect env providerB2 c req w = (inr d, w') ->
        d_expires_at d = None
        /\ exists fs f, files w' = fs ++ [f] /\ f_id f = d_id d /\ f_expires_at f = None).
Proof.
  split; [intros; now apply createApiKey_never|].
  split; [intros; now apply updateApiKey_never|].
  split.
  - intros c body d w' Hn H.
    pose proof (commitExpiresAt_never env _ Hn) as Hx.
    destruct (commit_success _ _ _ _ _ _ H)
      as (fid & file & cfg & ex & Hl & _ & Hex & Hf & Hid & Hd).
    rewrite Hx in Hex. injection Hex as <-.
    split; [exact Hd|]. split.
    + destruct (commitLookup_ok _ _ _ _ _ _ _ Hl) as (_ & Hfile & _).
      apply find_some in Hfile. destruct Hfile as [Hin0 Hid0]. apply String.eqb_eq in Hid0.
      exists (commitUpdateRow env c body None file). rewrite Hf, Hid.
      split; [|exact Hid0]. unfold commitUpdate. apply in_map_iff. exists file.
      split; [|exact Hin0]. now rewrite Hid0, String.eqb_refl.
    + intros f Hin Hfid. rewrite Hf in Hin. rewrite Hid in Hfid.
      destruct (commitUpdate_row _ _ _ _ _ _ _ Hin Hfid) as (f0 & _ & _ & ->). reflexivity.
  - intros providerB2 c req d w' Hn H.
    pose proof (directExpiry_never env _ Hn) as Hx.
    destruct (uploadDirect_success _ _ _ _ _ _ _ H)
      as (fs & f & H1 & _ & H3 & _ & _ & _ & _ & H4 & H5).
    rewrite Hx in H4. injection H4 as H4.
    split; [congruence|]. exists fs, f. auto.
Qed.

(** A key created with a null expiry. *)
Lemma C8_expiry_sentinel_witness :
  exists row,
    createApiKey Sample.env Sample.emptyWorld
      (mkKeyData (Some "ci") None Js.Null (Some true) (Some true) None None)
    = inr (row, setApiKeys Sample.emptyWorld (api_keys Sample.emptyWorld ++ [row]))
    /\ k_expires_at row = Some FAR_FUTURE.
Proof.
  destruct (proj1 (C8_expiry_sentinel Sample.env Sample.emptyWorld)
              (mkKeyData (Some "ci") None Js.Null (Some true) (Some true) None None)
              (or_introl eq_refl)) as [H|[H|H]].
  - vm_compute in H. discriminate H.
  - vm_compute in H. discriminate H.
  - exact H.
Defined.

(** The claim as first stated fails for FileRecords: a commit with a null
    [expires_in], and one with [never], store a null [expires_at], not the
    far-future timestamp. *)
Lemma C8_file_expiry_counterexample :
  (exists d,
      fst (commit Sample.env Sample.admin1 (Sample.commitBody None (Js.Num 2) Js.Null)
                  Sample.pendingWorld) = inr d)
  /\ option_map f_expires_at
       (fileById (snd (commit Sample.env Sample.admin1
                              (Sample.commitBody None (Js.Num 2) Js.Null)
                              Sample.pendingWorld)) "f1")
     = Some None
  /\ option_map f_expires_at
       (fileById (snd (commit Sample.env Sample.admin1
                              (Sample.commitBody None (Js.Num 2) (Js.Str "never"))
                              Sample.pendingWorld)) "f1")
     = Some None
  /\ Some (@None Z) <> Some (Some FAR_FUTURE).
Proof.
  vm_compute. split; [eexists; reflexivity|].
  split; [reflexivity|]. split; [reflexivity | discriminate].
Qed.

(* ================================================================== *)
(** * Mount accessibility (C3)                                         *)
(* ================================================================== *)

Lemma stripTrailingSlashes_not_slash (s : string) : Js.stripTrailingSlashes s <> "/".
Proof.
  destruct s as [|c r]; simpl; [discriminate|].
  destruct (Ascii.eqb c "/") eqn:Ec; simpl.
  - destruct (String.eqb (Js.stripTrailingSlashes r) EmptyString) eqn:Er; [discriminate|].
    apply String.eqb_neq in Er. intros H. injection H as _ H. contradiction.
  - apply Ascii.eqb_neq in Ec. intros H. injection H as H _. contradiction.
Qed.

Lemma startsWith_Below (s p : string) : Js.startsWith s (p ++ "/") = true <-> Below s p.
Proof.
  rewrite startsWith_iff. unfold Below.
  split; intros [r H]; exists r; now rewrite H, ?append_assoc.
Qed.

Lemma notPublic_spec (r : MountRow) : notPublic r = true <-> is_public r <> Some 1.
Proof.
  unfold notPublic. destruct (is_public r) as [v|]; [|split; [discriminate | reflexivity]].
  rewrite negb_true_iff, Z.eqb_neq. split; [congruence|]. intros H E. apply H. now subst.
Qed.

(** What the filter of [getAccessibleMountsByBasicPath] computes: a mount is
    kept when it is not an S3 mount of a non-public configuration, and the
    basic path is [/], or the normal mount path is the normal basic path or
    lies below it, or the normal basic path lies below the normal mount
    path. *)
Lemma mountAccessible_spec (basicPath : string) (mount : MountRow) :
  mountAccessible basicPath mount = true
  <-> ~ (storage_type mount = "S3" /\ is_public mount <> Some 1)
      /\ (basicPath = "/"
          \/ normalMountPath (mount_path mount) = normalBasicPath basicPath
          \/ Below (normalMountPath (mount_path mount)) (normalBasicPath basicPath)
          \/ Below (normalBasicPath basicPath) (normalMountPath (mount_path mount))).
Proof.
  unfold mountAccessible.
  fold (normalMountPath (mount_path mount)).
  destruct (String.eqb (storage_type mount) "S3" && notPublic mount) eqn:Eg.
  - apply andb_true_iff in Eg. destruct Eg as [E1 E2].
    apply String.eqb_eq in E1. apply notPublic_spec in E2.
    split; [discriminate | intros [H _]; now elim H].
  - assert (Hg : ~ (storage_type mount = "S3" /\ is_public mount <> Some 1)).
    { intros [H1 H2]. apply String.eqb_eq in H1. apply notPublic_spec in H2.
      now rewrite H1, H2 in Eg. }
    destruct (String.eqb basicPath "/") eqn:Eb.
    + apply String.eqb_eq in Eb. simpl. split; auto.
    + apply String.eqb_neq in Eb. fold (normalBasicPath basicPath).
      assert (En : String.eqb (normalBasicPath basicPath) "/" = false).
      { apply String.eqb_neq. apply stripTrailingSlashes_not_slash. }
      rewrite En.
      destruct (String.eqb (normalMountPath (mount_path mount)) (normalBasicPath basicPath)
                || Js.startsWith (normalMountPath (mount_path mount))
                                 (normalBasicPath basicPath ++ "/")) eqn:E2.
      * apply orb_true_iff in E2. rewrite String.eqb_eq, startsWith_Below in E2.
        split; [intros _|reflexivity]. split; [exact Hg|]. tauto.
      * apply orb_false_iff in E2. destruct E2 as [E2 E3].
        apply String.eqb_neq in E2.
        assert (E3' : ~ Below (normalMountPath (mount_path mount)) (normalBasicPath basicPath)).
        { intros H. apply startsWith_Below in H. congruence. }
        destruct (Js.startsWith (normalBasicPath basicPath)
                                (normalMountPath (mount_path mount) ++ "/")) eqn:E4.
        -- apply startsWith_Below in E4. split; [intros _|reflexivity]. split; [exact Hg|]. tauto.
        -- assert (E4' : ~ Below (normalBasicPath basicPath)
                                 (normalMountPath (mount_path mount))).
           { intros H. apply startsWith_Below in H. congruence. }
           split; [discriminate|]. intros [_ [H|[H|[H|H]]]]; contradiction.
Qed.

Lemma getAccessibleMountsByBasicPath_spec (rows : list MountRow) (basicPath : string)
    (mount : MountRow) :
  In mount (getAccessibleMountsByBasicPath rows basicPath)
  <-> In mount rows /\ mountAccessible basicPath mount = true.
Proof. apply filter_In. Qed.

(** C3.  The accessible set at the input where the code leaves the claim: a
    public S3 mount at the root [/] is an ancestor of the basic path [/a],
    yet it is not in the accessible set, because the test for an ancestor
    appends a slash to the normal mount path, which for the root is [/]
    already.  A mount at [/a] is accepted as the ancestor of [/a/b]. *)
Theorem C3_root_mount_not_accessible_below_root :
  getAccessibleMountsByBasicPath [Sample.mountAt "root" "/"] "/a" = []
  /\ normalMountPath "/" = "/"
  /\ Js.startsWith "/a" (normalMountPath "/" ++ "/") = false
  /\ getAccessibleMountsByBasicPath [Sample.mountAt "a" "/a"] "/a/b"
     = [Sample.mountAt "a" "/a"].
Proof. repeat split. Qed.

(* ================================================================== *)
(** * Override and ownership (C5)                                      *)
(* ================================================================== *)

(** C5.  Override by another creator.  The record with slug [X] belongs to
    the API key [k1] and has a password row and an object.  The key [k2]
    asks for the slug [X] with [override=true].  The direct route refuses
    with the permission error and leaves the state as it was.  The presign
    route has no ownership check: it answers with success, and the record
    of [k1], its password row and its object are gone. *)
Theorem C5_presign_override_ignores_owner :
  (exists d,
      fst (presign Sample.env Sample.key2
                   (Sample.presignBody Js.Undefined (Some "X") (Some "true"))
                   Sample.ownedWorld) = inr d
      /\ slug d = "X")
  /\ map f_created_by
       (files (snd (presign Sample.env Sample.key2
                            (Sample.presignBody Js.Undefined (Some "X") (Some "true"))
                            Sample.ownedWorld)))
     = [Some "apikey:k2"]
  /\ file_passwords (snd (presign Sample.env Sample.key2
                                  (Sample.presignBody Js.Undefined (Some "X") (Some "true"))
                                  Sample.ownedWorld)) = []
  /\ objects (snd (presign Sample.env Sample.key2
                           (Sample.presignBody Js.Undefined (Some "X") (Some "true"))
                           Sample.ownedWorld)) = []
  /\ uploadDirect Sample.env Sample.providerB2 Sample.key2
                  (Sample.directRequest (Some "X") (Some "true") None) Sample.ownedWorld
     = (inl OverrideForbidden, Sample.ownedWorld)
  /\ statusOf OverrideForbidden = 403.
Proof.
  vm_compute. split; [eexists; split; reflexivity|]. repeat split.
Qed.

(** The ownership check of the direct route, for every state: when the
    slug is carried by a record of another creator, the override is refused
    with the permission error and nothing is changed. *)
Lemma directOverride_refuses (env : Env) (c : Caller) (s : string) (w : World)
    (existingFile : FileRecord) :
  s <> EmptyString ->
  fileBySlug w s = Some existingFile ->
  f_created_by existingFile <> Some (directCreator c) ->
  directOverride env c true (Some s) w = (inl OverrideForbidden, w).
Proof.
  intros Hs Hf Hc. unfold directOverride. rewrite (nonEmpty_Some s Hs).
  unfold bind, getWorld. rewrite Hf.
  assert (E : optStrEqb (f_created_by existingFile) (directCreator c) = false).
  { destruct (f_created_by existingFile) as [t|]; [|reflexivity].
    simpl. apply String.eqb_neq. congruence. }
  now rewrite E.
Qed.

(** The override block of the presign route removes the record whoever
    created it. *)
Lemma presignOverride_removes (env : Env) (s : string) (w : World)
    (existingFile : FileRecord) :
  s <> EmptyString ->
  fileBySlug w s = Some existingFile ->
  presignOverride env true (Some s) w = (inr tt, removeExisting env existingFile w).
Proof.
  intros Hs Hf. unfold presignOverride. rewrite (nonEmpty_Some s Hs).
  unfold modify. now rewrite Hf.
Qed.

(** A taken slug without [override] is answered with the conflict (409)
    and nothing is changed. *)
Lemma allocateSlug_conflict (env : Env) (s : string) (w : World) :
  WellFormedSlug s -> (exists f, In f (files w) /\ f_slug f = s) ->
  allocateSlug env (Some s) false w = (inl SlugConflict, w)
  /\ statusOf SlugConflict = 409.
Proof.
  intros Hwf Hex. split; [|reflexivity].
  unfold allocateSlug, bind, getWorld, generateUniqueFileSlug.
  rewrite (truthyStr_Some s (proj1 Hwf)).
  apply slugFormatRegexTest_spec in Hwf. rewrite Hwf. simpl.
  apply fileBySlug_exists in Hex. destruct Hex as [f ->]. reflexivity.
Qed.

(** The same override by the creator [k1] itself leaves one record for [X]
    in both routes. *)
Lemma override_by_owner_example :
  map f_slug (files (snd (presign Sample.env Sample.key1
                                  (Sample.presignBody Js.Undefined (Some "X") (Some "true"))
                                  Sample.ownedWorld))) = ["X"]
  /\ map f_slug (files (snd (uploadDirect Sample.env Sample.providerB2 Sample.key1
                                          (Sample.directRequest (Some "X") (Some "true") None)
                                          Sample.ownedWorld))) = ["X"].
Proof. split; reflexivity. Qed.

(* ================================================================== *)
(** * The resolution inside the upload routes, and sanity checks       *)
(* ================================================================== *)

(** For an API key confined to a basic path other than the root, the
    storage key of an upload starts with the resolved sub-path. *)
Lemma storagePathFor_apikey (env : Env) (c : Caller) (s3Config : S3Config)
    (customPath fileNamePart basicPath : string) (w : World) :
  authType c = AuthApiKey -> apiKeyInfo c = Some (Some basicPath) ->
  basicPath <> EmptyString -> basicPath <> "/" ->
  existsb (fun mount => String.eqb (storage_config_id mount) (c_id s3Config))
          (getAccessibleMounts w basicPath) = true ->
  storagePathFor env c s3Config customPath fileNamePart w
  = (inr (actualStoragePath env s3Config basicPath (getAccessibleMounts w basicPath)
          ++ folderPath s3Config ++ customPath ++ fileNamePart)%string, w).
Proof.
  intros Ha Hk H1 H2 Hp. unfold storagePathFor. rewrite Ha, Hk.
  apply String.eqb_neq in H1, H2. rewrite H1, H2. simpl.
  unfold bind, getWorld, rejectIf. now rewrite Hp.
Qed.

(** Without a configuration among the accessible mounts the upload is
    refused before any transfer. *)
Lemma storagePathFor_no_permission (env : Env) (c : Caller) (s3Config : S3Config)
    (customPath fileNamePart basicPath : string) (w : World) :
  authType c = AuthApiKey -> apiKeyInfo c = Some (Some basicPath) ->
  basicPath <> EmptyString -> basicPath <> "/" ->
  existsb (fun mount => String.eqb (storage_config_id mount) (c_id s3Config))
          (getAccessibleMounts w basicPath) = false ->
  storagePathFor env c s3Config customPath fileNamePart w = (inl NoStoragePermission, w).
Proof.
  intros Ha Hk H1 H2 Hp. unfold storagePathFor. rewrite Ha, Hk.
  apply String.eqb_neq in H1, H2. rewrite H1, H2. simpl.
  unfold bind, getWorld, rejectIf. now rewrite Hp.
Qed.

Example parseInt_never : Js.parseInt (Js.Str "never") = None.
Proof. reflexivity. Qed.

Example parseInt_prefix : Js.parseInt (Js.Str " 12abc") = Some 12.
Proof. reflexivity. Qed.

Example parseInt_hex : Js.parseInt (Js.Str "0x1F") = Some 31.
Proof. reflexivity. Qed.

Example stripTrailingSlashes_example : Js.stripTrailingSlashes "/a/b//" = "/a/b".
Proof. reflexivity. Qed.

Example slug_format_examples :
  Js.slugFormatRegexTest "my-file_01" = true
  /\ Js.slugFormatRegexTest "my file" = false
  /\ Js.slugFormatRegexTest EmptyString = false.
Proof. repeat split. Qed.

Example default_upload_limit : maxUploadSizeBytes Sample.emptyWorld = Some 104857600.
Proof. reflexivity. Qed.

(** The random-slug loop gives up after ten taken candidates. *)
Example random_slug_exhausted :
  generateUniqueFileSlug Sample.env
    (setFiles Sample.emptyWorld [Sample.record "f9" "rnd001" "r.bin" 1 None]) None false
  = inl SlugExhausted.
Proof. reflexivity. Qed.

(** An empty custom slug counts as no custom slug. *)
Example empty_custom_slug :
  generateUniqueFileSlug Sample.env Sample.emptyWorld (Some EmptyString) false = inr "rnd001".
Proof. reflexivity. Qed.

(* ================================================================== *)
(** * API keys: expiry sweep, listing, lookup and deletion             *)
(* ================================================================== *)

Lemma keyExpired_spec (env : Env) (k : ApiKey) :
  keyExpired env k = true <-> exists e, k_expires_at k = Some e /\ e < now env.
Proof.
  unfold keyExpired. destruct (k_expires_at k) as [e|].
  - rewrite Z.ltb_lt. split; [intros H; now exists e | intros [e' [H1 H2]]; congruence].
  - split; [discriminate | intros [e [H _]]; discriminate].
Qed.

Lemma deleteKeyRow_In (id : string) (ks : list ApiKey) (x : ApiKey) :
  In x (deleteKeyRow id ks) <-> In x ks /\ k_id x <> id.
Proof.
  unfold deleteKeyRow. rewrite filter_In, negb_true_iff, String.eqb_neq. reflexivity.
Qed.

(** X1.  [checkAndDeleteExpiredApiKey] answers [true] exactly for a missing
    key and for a key whose expiry lies before the current time.  A key
    without an expiry or with a later one is kept and the store is not
    written.  When an expired key is reported, the rows with its id are
    gone and every other row is kept. *)
Theorem checkAndDeleteExpiredApiKey_spec (env : Env) (w : World) (key : option ApiKey) :
  (fst (checkAndDeleteExpiredApiKey env w key) = true
   <-> key = None \/ exists k e, key = Some k /\ k_expires_at k = Some e /\ e < now env)
  /\ (fst (checkAndDeleteExpiredApiKey env w key) = false ->
      snd (checkAndDeleteExpiredApiKey env w key) = w)
  /\ (key = None -> snd (checkAndDeleteExpiredApiKey env w key) = w)
  /\ (forall k, key = Some k -> fst (checkAndDeleteExpiredApiKey env w key) = true ->
        forall x, In x (api_keys (snd (checkAndDeleteExpiredApiKey env w key)))
                  <-> In x (api_keys w) /\ k_id x <> k_id k).
Proof.
  destruct key as [k|]; simpl.
  - destruct (keyExpired env k) eqn:E; simpl.
    + apply keyExpired_spec in E. destruct E as [e [H1 H2]].
      split; [split; [intros _; right; now exists k, e | reflexivity]|].
      split; [discriminate|]. split; [discriminate|].
      intros k' Hk _ x. injection Hk as <-. apply deleteKeyRow_In.
    + split.
      * split; [discriminate|]. intros [H|(k' & e & Hk & H1 & H2)]; [discriminate|].
        injection Hk as <-.
        assert (keyExpired env k = true) by (apply keyExpired_spec; now exists e).
        congruence.
      * split; [reflexivity|]. split; [discriminate|]. intros k' _ H. discriminate.
  - split; [split; [now left | reflexivity]|].
    split; [discriminate|]. split; [reflexivity|]. intros k H. discriminate.
Qed.

Lemma isoTextLt_spec (a b : Z) :
  Js.isoTextLt a b = true
  <-> Js.isoRank a < Js.isoRank b
      \/ (Js.isoRank a = Js.isoRank b
          /\ (Js.isoYearKey a < Js.isoYearKey b
              \/ (Js.isoYearKey a = Js.isoYearKey b /\ a < b))).
Proof.
  unfold Js.isoTextLt.
  rewrite !orb_true_iff, !andb_true_iff, !orb_true_iff, !andb_true_iff,
    !Z.ltb_lt, !Z.eqb_eq.
  reflexivity.
Qed.

Lemma isoTextLt_false (a b : Z) :
  Js.isoTextLt a b = false
  <-> ~ (Js.isoRank a < Js.isoRank b
         \/ (Js.isoRank a = Js.isoRank b
             /\ (Js.isoYearKey a < Js.isoYearKey b
                 \/ (Js.isoYearKey a = Js.isoYearKey b /\ a < b)))).
Proof.
  rewrite <- isoTextLt_spec. destruct (Js.isoTextLt a b); split; congruence.
Qed.

(** Between instants of the years 0000 to 9999 the order of the texts is
    the order of the instants. *)
Lemma isoTextLt_four_digits (a b : Z) :
  FourDigitYear a -> FourDigitYear b -> Js.isoTextLt a b = (a <? b).
Proof.
  unfold FourDigitYear, Js.isoTextLt, Js.isoRank, Js.isoYearKey, Js.yearZero,
    Js.yearTenThousand.
  intros [Ha1 Ha2] [Hb1 Hb2].
  apply Z.ltb_ge in Ha1, Hb1. apply Z.ltb_lt in Ha2, Hb2.
  rewrite Ha1, Ha2, Hb1, Hb2. reflexivity.
Qed.

(** The text of a year after 9999 starts with [+], which sorts before the
    digit that starts the text of a year from 0000 to 9999. *)
Lemma isoTextLt_later_year (a b : Z) :
  253402300800000 <= a -> FourDigitYear b -> Js.isoTextLt a b = true.
Proof.
  unfold FourDigitYear, Js.isoTextLt, Js.isoRank, Js.isoYearKey, Js.yearZero,
    Js.yearTenThousand.
  intros Ha [Hb1 Hb2].
  assert (Ha1 : (a <? -62167219200000) = false) by (apply Z.ltb_ge; lia).
  assert (Ha2 : (a <? 253402300800000) = false) by (apply Z.ltb_ge; lia).
  apply Z.ltb_ge in Hb1. apply Z.ltb_lt in Hb2.
  rewrite Ha1, Ha2, Hb1, Hb2. reflexivity.
Qed.

(** The text of the far-future timestamp sorts before no text of an
    earlier or equal instant. *)
Lemma isoTextLt_far_future (t : Z) : t <= FAR_FUTURE -> Js.isoTextLt FAR_FUTURE t = false.
Proof.
  unfold FAR_FUTURE, Js.isoTextLt, Js.isoRank, Js.isoYearKey, Js.yearZero,
    Js.yearTenThousand.
  intros Ht.
  change (253402300799000 <? -62167219200000) with false.
  change (253402300799000 <? 253402300800000) with true.
  destruct (t <? -62167219200000); [reflexivity|].
  destruct (t <? 253402300800000); [|reflexivity].
  apply Z.ltb_ge in Ht. cbn [Z.ltb Z.eqb Z.compare Pos.compare Pos.compare_cont orb andb].
  exact Ht.
Qed.

Lemma newestFirst_total (a b : ApiKey) : newestFirst a b = true \/ newestFirst b a = true.
Proof.
  unfold newestFirst. rewrite !negb_true_iff, !isoTextLt_false. lia.
Qed.

Lemma newestFirst_trans (a b c : ApiKey) :
  newestFirst a b = true -> newestFirst b c = true -> newestFirst a c = true.
Proof.
  unfold newestFirst. rewrite !negb_true_iff, !isoTextLt_false. lia.
Qed.

Lemma substring_length_le (n : nat) (s : string) :
  (String.length (String.substring 0 n s) <= n)%nat.
Proof.
  revert s. induction n as [|n IH]; intros s; destruct s as [|c r]; simpl; try lia.
  specialize (IH r). lia.
Qed.

Lemma append_length (a b : string) :
  String.length (a ++ b) = (String.length a + String.length b)%nat.
Proof. induction a as [|c a IH]; simpl; [reflexivity | now rewrite IH]. Qed.

(** X2.  [getAllApiKeys] first deletes, for good, the rows whose expiry
    text sorts before the text of the clock: the table it leaves holds
    exactly the other rows.  With the clock and the expiry in the years
    0000 to 9999 these are the rows that have expired; a row without an
    expiry is never deleted; a row whose expiry lies after the year 9999 is
    deleted although it has not expired.  The call lists exactly the rows
    it leaves, each once per row, in descending order of the creation text
    (the newest first when the creation times are in the years 0000 to
    9999), and beside each row a mask made of at most the first six
    characters of the key and three dots. *)
Theorem getAllApiKeys_spec (env : Env) (w : World) :
  (forall k, In k (api_keys (snd (getAllApiKeys env w)))
             <-> In k (api_keys w) /\ sweptAt env k = false)
  /\ (forall k, k_expires_at k = None -> sweptAt env k = false)
  /\ (forall k e, k_expires_at k = Some e -> FourDigitYear e -> FourDigitYear (now env) ->
                  (sweptAt env k = true <-> e < now env))
  /\ (forall k e, k_expires_at k = Some e -> 253402300800000 <= e ->
                  FourDigitYear (now env) -> sweptAt env k = true)
  /\ Permutation (map fst (fst (getAllApiKeys env w)))
                 (api_keys (snd (getAllApiKeys env w)))
  /\ StronglySorted (fun a b => Js.isoTextLt (k_created_at a) (k_created_at b) = false)
                    (map fst (fst (getAllApiKeys env w)))
  /\ ((forall k, In k (api_keys w) -> FourDigitYear (k_created_at k)) ->
      StronglySorted (fun a b => k_created_at b <= k_created_at a)
                     (map fst (fst (getAllApiKeys env w))))
  /\ (forall k m, In (k, m) (fst (getAllApiKeys env w)) ->
        m = (String.substring 0 6 (k_key k) ++ "...")%string
        /\ (String.length m <= 9)%nat
        /\ sweptAt env k = false).
Proof.
  unfold getAllApiKeys. simpl.
  set (live := filter (fun k => negb (sweptAt env k)) (api_keys w)).
  assert (Hmap : map fst (map (fun k => (k, maskKey (k_key k))) (stableSort newestFirst live))
                 = stableSort newestFirst live).
  { rewrite map_map. simpl. apply map_id. }
  rewrite Hmap.
  assert (Hsorted : StronglySorted
                      (fun a b => Js.isoTextLt (k_created_at a) (k_created_at b) = false)
                      (stableSort newestFirst live)).
  { pose proof (stableSort_sorted newestFirst newestFirst_total newestFirst_trans live) as Hs.
    revert Hs. generalize (stableSort newestFirst live). intros l Hs.
    induction Hs as [|a l Hl IH Ha]; constructor; [exact IH|].
    rewrite Forall_forall in *. intros x Hx. specialize (Ha x Hx).
    unfold newestFirst in Ha. now apply negb_true_iff. }
  refine (conj _ (conj _ (conj _ (conj _ (conj _ (conj Hsorted (conj _ _))))))).
  - intros k. unfold live. rewrite filter_In, negb_true_iff. reflexivity.
  - intros k Hk. unfold sweptAt. now rewrite Hk.
  - intros k e Hk He Hn. unfold sweptAt. rewrite Hk, (isoTextLt_four_digits e _ He Hn).
    apply Z.ltb_lt.
  - intros k e Hk He Hn. unfold sweptAt. rewrite Hk. now apply isoTextLt_later_year.
  - apply Permutation_sym, stableSort_perm.
  - intros Hall.
    assert (Hin : forall x, In x (stableSort newestFirst live) -> FourDigitYear (k_created_at x)).
    { intros x Hx. apply (proj1 (stableSort_In newestFirst _ _)) in Hx. unfold live in Hx.
      apply filter_In in Hx. now apply Hall. }
    revert Hin Hsorted. generalize (stableSort newestFirst live). intros l Hin Hs.
    induction Hs as [|a l Hl IH Ha]; constructor.
    + apply IH. intros x Hx. apply Hin. now right.
    + rewrite Forall_forall in *. intros x Hx. specialize (Ha x Hx).
      rewrite (isoTextLt_four_digits _ _ (Hin a (or_introl eq_refl))
                 (Hin x (or_intror Hx))) in Ha.
      now apply Z.ltb_ge.
  - intros k m Hin. apply in_map_iff in Hin. destruct Hin as (k' & Heq & Hin).
    injection Heq as -> <-. split; [reflexivity|]. split.
    + unfold maskKey. rewrite append_length. simpl.
      pose proof (substring_length_le 6 (k_key k)). lia.
    + apply (proj1 (stableSort_In newestFirst _ _)) in Hin. unfold live in Hin.
      apply filter_In in Hin. now apply negb_true_iff.
Qed.

(** A key whose expiry lies in the year 10000 is swept by a clock of the
    year 2023, and a key that expires in 2027 is kept. *)
Example sweep_of_a_later_year :
  map (fun k => k_id k)
      (api_keys (snd (getAllApiKeys Sample.env
                        (setApiKeys Sample.emptyWorld
                           [mkApiKey "k-far" "far" "farkey000" 1 1 0 "/"
                                     (Some 253402300800000) 1690000000000;
                            mkApiKey "k-live" "live" "livekey00" 1 1 0 "/"
                                     (Some 1800000000000) 1690000000000]))))
  = ["k-live"].
Proof. reflexivity. Qed.

Lemma find_app_first {A : Type} (p : A -> bool) (l1 l2 : list A) (a : A) :
  find p l1 = Some a -> find p (l1 ++ l2) = Some a.
Proof.
  induction l1 as [|x r IH]; simpl; [discriminate|].
  destruct (p x); [auto | exact IH].
Qed.

Lemma find_app_none {A : Type} (p : A -> bool) (l1 l2 : list A) :
  find p l1 = None -> find p (l1 ++ l2) = find p l2.
Proof.
  induction l1 as [|x r IH]; simpl; [reflexivity|].
  destruct (p x); [discriminate | exact IH].
Qed.

Lemma createApiKey_row (env : Env) (w w' : World) (keyData : KeyData) (row : ApiKey) :
  createApiKey env w keyData = inr (row, w') ->
  w' = setApiKeys w (api_keys w ++ [row])
  /\ k_id row = randomUUID env
  /\ k_created_at row = now env
  /\ k_key row = match nonEmpty (kd_custom_key keyData) with
                 | Some k => k
                 | None => generateRandomString env
                 end
  /\ k_expires_at row = createExpiresAt env (kd_expires_at keyData)
  /\ (forall k, nonEmpty (kd_custom_key keyData) = Some k -> WellFormedSlug k).
Proof.
  unfold createApiKey.
  destruct (nonEmpty (kd_name keyData)) as [name|]; [|discriminate].
  destruct (String.eqb (Js.trim name) EmptyString); [discriminate|].
  destruct (nonEmpty (kd_custom_key keyData)) as [ck|] eqn:Eck.
  - destruct (negb (Js.slugFormatRegexTest ck)) eqn:Efmt; [discriminate|].
    destruct (createExpiresAt env (kd_expires_at keyData)) as [e|]; [|discriminate].
    intros H. injection H as <- <-.
    refine (conj eq_refl (conj eq_refl (conj eq_refl (conj eq_refl (conj eq_refl _))))).
    intros k0 Hk. injection Hk as <-. apply slugFormatRegexTest_spec.
    now apply negb_false_iff.
  - destruct (createExpiresAt env (kd_expires_at keyData)) as [e|]; [|discriminate].
    intros H. injection H as <- <-.
    refine (conj eq_refl (conj eq_refl (conj eq_refl (conj eq_refl (conj eq_refl _))))).
    intros k0 Hk. discriminate.
Qed.

(** X3.  Create, then look up.  After [createApiKey] has returned a key
    whose key string is not empty, [getApiKeyByKey] on that string finds a
    row with it.  The store is not checked for the key string at creation:
    when an older row already carries it, the lookup still answers with
    that older row; otherwise it answers with the new row. *)
Theorem createApiKey_then_lookup (env : Env) (w w' : World) (keyData : KeyData)
    (row : ApiKey) :
  createApiKey env w keyData = inr (row, w') ->
  k_key row <> EmptyString ->
  (forall old, find (fun k => String.eqb (k_key k) (k_key row)) (api_keys w) = Some old ->
               getApiKeyByKey w' (Some (k_key row)) = Some (infoOf old))
  /\ (find (fun k => String.eqb (k_key k) (k_key row)) (api_keys w) = None ->
      getApiKeyByKey w' (Some (k_key row)) = Some (infoOf row))
  /\ (exists info, getApiKeyByKey w' (Some (k_key row)) = Some info
                   /\ ki_key info = k_key row).
Proof.
  intros Hc Hne. destruct (createApiKey_row _ _ _ _ _ Hc) as (-> & _).
  unfold getApiKeyByKey. rewrite (nonEmpty_Some _ Hne). simpl.
  assert (H1 : forall old,
             find (fun k => String.eqb (k_key k) (k_key row)) (api_keys w) = Some old ->
             find (fun k => String.eqb (k_key k) (k_key row)) (api_keys w ++ [row]) = Some old).
  { intros old. apply find_app_first. }
  assert (H2 : find (fun k => String.eqb (k_key k) (k_key row)) (api_keys w) = None ->
               find (fun k => String.eqb (k_key k) (k_key row)) (api_keys w ++ [row])
               = Some row).
  { intros Hn. rewrite (find_app_none _ _ _ Hn). simpl. now rewrite String.eqb_refl. }
  split; [intros old Ho; now rewrite (H1 old Ho)|].
  split; [intros Hn; now rewrite (H2 Hn)|].
  destruct (find (fun k => String.eqb (k_key k) (k_key row)) (api_keys w)) as [old|] eqn:F.
  - rewrite (H1 old eq_refl). eexists. split; [reflexivity|].
    apply find_some in F. destruct F as [_ F]. simpl. now apply String.eqb_eq in F.
  - rewrite (H2 eq_refl). eexists. split; reflexivity.
Qed.

Lemma createApiKey_then_lookup_witness :
  exists row w',
    createApiKey Sample.env Sample.keyWorld Sample.neverKey = inr (row, w')
    /\ getApiKeyByKey w' (Some "ci-key_01") = Some (infoOf row).
Proof.
  destruct (createApiKey Sample.env Sample.keyWorld Sample.neverKey) as [e|[row w']] eqn:E;
    [vm_compute in E; discriminate E|].
  exists row, w'. split; [reflexivity|].
  assert (Hk : k_key row = "ci-key_01").
  { vm_compute in E. injection E as <- _. reflexivity. }
  rewrite <- Hk.
  apply (proj1 (proj2 (createApiKey_then_lookup Sample.env Sample.keyWorld w'
                         Sample.neverKey row E ltac:(rewrite Hk; discriminate)))).
  rewrite Hk. reflexivity.
Defined.

(** A falsy key string is never looked up. *)
Lemma getApiKeyByKey_falsy (w : World) :
  getApiKeyByKey w None = None /\ getApiKeyByKey w (Some EmptyString) = None.
Proof. split; reflexivity. Qed.

Lemma find_none_iff {A : Type} (p : A -> bool) (l : list A) :
  find p l = None <-> forall x, In x l -> p x = false.
Proof.
  split; [intros H x Hx; now apply (find_none _ _ H)|].
  induction l as [|a r IH]; simpl; [reflexivity|]. intros H.
  rewrite (H a (or_introl eq_refl)). apply IH. intros x Hx. apply H. now right.
Qed.

(** X4.  [deleteApiKey] fails with the not-found error exactly when no row
    has the id, and then nothing is written.  Otherwise every row with the
    id is gone, every other row and every other table is kept, and a second
    deletion of the same id fails with the not-found error. *)
Theorem deleteApiKey_spec (w : World) (id : string) :
  (deleteApiKey w id = inl KeyNotFound <-> forall k, In k (api_keys w) -> k_id k <> id)
  /\ (forall w', deleteApiKey w id = inr w' ->
        w' = setApiKeys w (api_keys w')
        /\ (forall k, In k (api_keys w') <-> In k (api_keys w) /\ k_id k <> id)
        /\ deleteApiKey w' id = inl KeyNotFound).
Proof.
  unfold deleteApiKey. split.
  - destruct (find (fun k => String.eqb (k_id k) id) (api_keys w)) as [k0|] eqn:F.
    + split; [discriminate|]. intros H. apply find_some in F. destruct F as [Hin Hid].
      apply String.eqb_eq in Hid. now elim (H k0 Hin).
    + split; [|reflexivity]. intros _ k Hk.
      apply (proj1 (find_none_iff _ _) F) in Hk. now apply String.eqb_neq.
  - intros w'. destruct (find (fun k => String.eqb (k_id k) id) (api_keys w)); [|discriminate].
    intros H. injection H as <-. simpl.
    split; [reflexivity|]. split; [intros k; apply deleteKeyRow_In|].
    assert (F : find (fun k => String.eqb (k_id k) id) (deleteKeyRow id (api_keys w)) = None).
    { apply find_none_iff. intros x Hx. apply deleteKeyRow_In in Hx.
      now apply String.eqb_neq. }
    now rewrite F.
Qed.

(** The shape of a successful update: one function on rows, applied to the
    rows with the id, that keeps id, key string and creation time. *)
Lemma updateApiKey_shape (env : Env) (w w' : World) (id : string) (updateData : UpdateData) :
  updateApiKey env w id updateData = inr w' ->
  exists g,
    (forall k, k_id (g k) = k_id k /\ k_key (g k) = k_key k
               /\ k_created_at (g k) = k_created_at k)
    /\ w' = setApiKeys w (map (fun k => if String.eqb (k_id k) id then g k else k)
                              (api_keys w))
    /\ (exists k, In k (api_keys w) /\ k_id k = id).
Proof.
  unfold updateApiKey.
  destruct (find (fun k => String.eqb (k_id k) id) (api_keys w)) as [k0|] eqn:F; [|discriminate].
  apply find_some in F. destruct F as [Hin Hid]. apply String.eqb_eq in Hid.
  match goal with |- context [if ?b then inl KeyNameEmpty else _] => destruct b end;
    [discriminate|].
  match goal with |- context [if ?b then inl KeyNameExists else _] => destruct b end;
    [discriminate|].
  destruct (updateExpiresAt env (ud_expires_at updateData)) as [e|expiresAt]; [discriminate|].
  destruct (ud_name updateData), (ud_text_permission updateData),
    (ud_file_permission updateData), (ud_mount_permission updateData),
    (ud_basic_path updateData), expiresAt;
    try discriminate;
    (intros H; injection H as <-;
     eexists (fun k => mkApiKey (k_id k) _ (k_key k) _ _ _ _ _ (k_created_at k));
     split; [intros k; repeat split | split; [reflexivity | now exists k0]]).
Qed.

(** X5.  A successful [updateApiKey] rewrites only the rows with the given
    id, of which there is at least one: the number and order of rows, and
    the id, key string and creation time of every row are as before, and
    the rows with another id are unchanged.  An update that names no field
    never succeeds. *)
Theorem updateApiKey_preserves (env : Env) (w : World) (id : string)
    (updateData : UpdateData) :
  (forall w', updateApiKey env w id updateData = inr w' ->
     map (fun k => (k_id k, k_key k, k_created_at k)) (api_keys w')
     = map (fun k => (k_id k, k_key k, k_created_at k)) (api_keys w)
     /\ filter (fun k => negb (String.eqb (k_id k) id)) (api_keys w')
        = filter (fun k => negb (String.eqb (k_id k) id)) (api_keys w)
     /\ (exists k, In k (api_keys w) /\ k_id k = id)
     /\ files w' = files w /\ s3_configs w' = s3_configs w)
  /\ (ud_name updateData = None -> ud_text_permission updateData = None ->
      ud_file_permission updateData = None -> ud_mount_permission updateData = None ->
      ud_basic_path updateData = None -> Js.truthy (ud_expires_at updateData) = false ->
      ud_expires_at updateData <> Js.Null ->
      exists e, updateApiKey env w id updateData = inl e).
Proof.
  split.
  - intros w' H. destruct (updateApiKey_shape _ _ _ _ _ H) as (g & Hg & -> & Hex).
    simpl. split; [|split; [|split; [exact Hex | split; reflexivity]]].
    + rewrite map_map. apply map_ext. intros k.
      destruct (String.eqb (k_id k) id); [|reflexivity].
      destruct (Hg k) as (-> & -> & ->). reflexivity.
    + clear H Hex. induction (api_keys w) as [|k r IH]; simpl; [reflexivity|].
      destruct (String.eqb (k_id k) id) eqn:E; simpl.
      * destruct (Hg k) as (-> & _). rewrite E. simpl. exact IH.
      * rewrite E. simpl. now rewrite IH.
  - intros H1 H2 H3 H4 H5 H6 H7. unfold updateApiKey, updateExpiresAt.
    rewrite H1, H2, H3, H4, H5, H6. simpl.
    assert (Hn : isNever (ud_expires_at updateData) = false).
    { destruct (ud_expires_at updateData) as [| |z|m x|s]; try reflexivity; [now elim H7|].
      simpl in H6. apply negb_false_iff, String.eqb_eq in H6. now subst. }
    rewrite Hn.
    destruct (find (fun k => String.eqb (k_id k) id) (api_keys w)); eexists; reflexivity.
Qed.

Lemma createExpiresAt_never (env : Env) (v : Js.Val) :
  NoExpiry v -> createExpiresAt env v = Some FAR_FUTURE.
Proof. intros [->| ->]; reflexivity. Qed.

(** X6.  A key created with an expiry of [null] or [never] outlives every
    sweep before the end of the year 9999: at any later clock up to the
    far-future timestamp, [checkAndDeleteExpiredApiKey] keeps it and writes
    nothing, and [getAllApiKeys] keeps it in the table and lists it. *)
Theorem never_expiring_key_survives (env later : Env) (w w' : World) (keyData : KeyData)
    (row : ApiKey) :
  NoExpiry (kd_expires_at keyData) ->
  createApiKey env w keyData = inr (row, w') ->
  now later <= FAR_FUTURE ->
  checkAndDeleteExpiredApiKey later w' (Some row) = (false, w')
  /\ In row (api_keys (snd (getAllApiKeys later w')))
  /\ In (row, maskKey (k_key row)) (fst (getAllApiKeys later w')).
Proof.
  intros Hn Hc Hlater.
  destruct (createApiKey_row _ _ _ _ _ Hc) as (-> & _ & _ & _ & He & _).
  rewrite (createExpiresAt_never env _ Hn) in He.
  assert (Hx : keyExpired later row = false).
  { unfold keyExpired. rewrite He. apply Z.ltb_ge. exact Hlater. }
  assert (Hs : sweptAt later row = false).
  { unfold sweptAt. rewrite He. now apply isoTextLt_far_future. }
  assert (Hin : In row (filter (fun k => negb (sweptAt later k)) (api_keys w ++ [row]))).
  { apply filter_In. split; [apply in_or_app; right; now left | now rewrite Hs]. }
  split; [|split].
  - unfold checkAndDeleteExpiredApiKey. now rewrite Hx.
  - exact Hin.
  - unfold getAllApiKeys. simpl. apply in_map_iff. exists row. split; [reflexivity|].
    now apply (stableSort_In newestFirst).
Qed.

Lemma never_expiring_key_survives_witness :
  exists row w',
    createApiKey Sample.env Sample.keyWorld Sample.neverKey = inr (row, w')
    /\ checkAndDeleteExpiredApiKey Sample.env w' (Some row) = (false, w').
Proof.
  destruct (createApiKey Sample.env Sample.keyWorld Sample.neverKey) as [e|[row w']] eqn:E;
    [vm_compute in E; discriminate E|].
  exists row, w'. split; [reflexivity|].
  apply (never_expiring_key_survives Sample.env Sample.env Sample.keyWorld w'
           Sample.neverKey row (or_introl eq_refl) E).
  vm_compute. discriminate.
Defined.

Lemma timeClip_Some (t e : Z) : Js.timeClip t = Some e -> e = t.
Proof.
  unfold Js.timeClip. destruct (Z.abs t <=? Js.maxTime); [|discriminate].
  intros H. now injection H as <-.
Qed.

(** X7.  A key created without an [expires_at] (absent, empty or 0) gets the
    same time of day on the next day of the local calendar.  When the two
    clock readings of the call fall on the same day of the month in local
    time, and local time has the same offset from UTC one day later, that is
    one day (86 400 000 ms) after the second reading: the key is live at
    every clock up to then, and the first check after that deletes it. *)
Theorem default_key_expiry (env later : Env) (w w' : World) (keyData : KeyData)
    (row : ApiKey) :
  Js.truthy (kd_expires_at keyData) = false ->
  kd_expires_at keyData <> Js.Null ->
  Js.dateFromTime (now env + localTZA env (now env) true)
  = Js.dateFromTime (now2 env + localTZA env (now2 env) true) ->
  localTZA env (now2 env + localTZA env (now2 env) true + 86400000) false
  = localTZA env (now2 env) true ->
  createApiKey env w keyData = inr (row, w') ->
  k_expires_at row = Some (now2 env + 86400000)
  /\ k_created_at row = now env
  /\ (now later <= now2 env + 86400000 ->
      fst (checkAndDeleteExpiredApiKey later w' (Some row)) = false)
  /\ (now2 env + 86400000 < now later ->
      fst (checkAndDeleteExpiredApiKey later w' (Some row)) = true
      /\ forall k, In k (api_keys (snd (checkAndDeleteExpiredApiKey later w' (Some row)))) ->
                   k_id k <> k_id row).
Proof.
  intros Hf Hnull Hday Htza Hc.
  destruct (createApiKey_row _ _ _ _ _ Hc) as (-> & _ & _ & _ & He & _).
  assert (Hx : createExpiresAt env (kd_expires_at keyData) = nextDayExpiry env).
  { unfold createExpiresAt. rewrite Hf.
    destruct (kd_expires_at keyData) as [| |z|m x|s]; try reflexivity; [now elim Hnull|].
    simpl in Hf. apply negb_false_iff, String.eqb_eq in Hf. now subst. }
  assert (Hcreated : k_created_at row = now env).
  { unfold createApiKey in Hc.
    destruct (nonEmpty (kd_name keyData)); [|discriminate Hc].
    destruct (String.eqb _ _); [discriminate Hc|].
    destruct (match nonEmpty (kd_custom_key keyData) with
              | Some k => negb (Js.slugFormatRegexTest k) | None => false end);
      [discriminate Hc|].
    destruct (createExpiresAt env (kd_expires_at keyData)); [|discriminate Hc].
    injection Hc as <- _. reflexivity. }
  assert (Hn : nextDayExpiry env = Some (now2 env + 86400000)).
  { destruct (k_expires_at row) as [e|] eqn:Ee.
    - rewrite Hx in He. rewrite <- He. f_equal.
      unfold nextDayExpiry in He. apply eq_sym, timeClip_Some in He.
      rewrite Hday in He.
      replace (now2 env + localTZA env (now2 env) true
               + (Js.dateFromTime (now2 env + localTZA env (now2 env) true) + 1
                  - Js.dateFromTime (now2 env + localTZA env (now2 env) true)) * Js.msPerDay)
        with (now2 env + localTZA env (now2 env) true + 86400000) in He
        by (unfold Js.msPerDay; lia).
      rewrite Htza in He. lia.
    - unfold createApiKey in Hc.
      destruct (nonEmpty (kd_name keyData)); [|discriminate Hc].
      destruct (String.eqb _ _); [discriminate Hc|].
      destruct (match nonEmpty (kd_custom_key keyData) with
                | Some k => negb (Js.slugFormatRegexTest k) | None => false end);
        [discriminate Hc|].
      destruct (createExpiresAt env (kd_expires_at keyData)); [|discriminate Hc].
      injection Hc as <- _. discriminate Ee. }
  rewrite Hx, Hn in He. split; [exact He|]. split; [exact Hcreated|].
  assert (Hk : forall l : Env, keyExpired l row = (now2 env + 86400000 <? now l)).
  { intros l. unfold keyExpired. now rewrite He. }
  unfold checkAndDeleteExpiredApiKey. rewrite !Hk.
  split.
  - intros Hl. apply Z.ltb_ge in Hl. now rewrite Hl.
  - intros Hl. apply Z.ltb_lt in Hl. rewrite Hl. simpl. split; [reflexivity|].
    intros k Hin. now apply deleteKeyRow_In in Hin.
Qed.

Lemma default_key_expiry_witness :
  exists row w',
    createApiKey Sample.env Sample.keyWorld Sample.defaultKey = inr (row, w')
    /\ k_expires_at row = Some (1700000000000 + 86400000)
    /\ k_created_at row = 1700000000000.
Proof.
  destruct (createApiKey Sample.env Sample.keyWorld Sample.defaultKey) as [e|[row w']] eqn:E;
    [vm_compute in E; discriminate E|].
  exists row, w'. split; [reflexivity|].
  pose proof (default_key_expiry Sample.env Sample.env Sample.keyWorld w' Sample.defaultKey row
                eq_refl ltac:(discriminate) eq_refl eq_refl E) as (H1 & H2 & _).
  split; [exact H1 | exact H2].
Defined.

(** Across the change to summer time the next local day at the same time of
    day comes 23 hours later. *)
Example default_key_expiry_across_offset_change :
  nextDayExpiry Sample.springEnv = Some (1711800000000 + 23 * 3600000)
  /\ createExpiresAt Sample.springEnv Js.Undefined = Some 1711882800000.
Proof. split; vm_compute; reflexivity. Qed.

(* ================================================================== *)
(** * Slug allocation: freshness and uniqueness                        *)
(* ================================================================== *)

Lemma SlugTakenIn_spec (w : World) (s : string) :
  SlugTakenIn w s <-> fileBySlug w s <> None.
Proof.
  unfold SlugTakenIn. rewrite fileBySlug_exists. split.
  - intros [f H]. congruence.
  - destruct (fileBySlug w s) as [f|]; [intros _; now exists f | intros H; now elim H].
Qed.

Lemma randomSlugLoop_spec (env : Env) (w : World) (remaining attempts : nat) :
  match randomSlugLoop env w attempts remaining with
  | inr s =>
      exists i, (attempts <= i < attempts + remaining)%nat
                /\ s = slugCandidates env i
                /\ ~ SlugTakenIn w s
                /\ forall j, (attempts <= j < i)%nat -> SlugTakenIn w (slugCandidates env j)
  | inl e =>
      e = SlugExhausted
      /\ forall j, (attempts <= j < attempts + remaining)%nat ->
                   SlugTakenIn w (slugCandidates env j)
  end.
Proof.
  revert attempts. induction remaining as [|n IH]; intros attempts; simpl.
  - split; [reflexivity | intros j Hj; lia].
  - destruct (fileBySlug w (slugCandidates env attempts)) as [f|] eqn:E.
    + assert (Ht : SlugTakenIn w (slugCandidates env attempts)).
      { apply SlugTakenIn_spec. congruence. }
      specialize (IH (S attempts)).
      destruct (randomSlugLoop env w (S attempts) n) as [e|s].
      * destruct IH as [-> IH]. split; [reflexivity|]. intros j Hj.
        destruct (Nat.eq_dec j attempts) as [->|Hne]; [exact Ht | apply IH; lia].
      * destruct IH as (i & Hi & Hs & Hfree & Hbefore). exists i.
        split; [lia|]. split; [exact Hs|]. split; [exact Hfree|]. intros j Hj.
        destruct (Nat.eq_dec j attempts) as [->|Hne]; [exact Ht | apply Hbefore; lia].
    + exists attempts. split; [lia|]. split; [reflexivity|]. split.
      * intros Ht. apply SlugTakenIn_spec in Ht. congruence.
      * intros j Hj. lia.
Qed.

(** Without [override] a returned slug is free. *)
Lemma generateUniqueFileSlug_free (env : Env) (w : World) (customSlug : option string)
    (s : string) :
  generateUniqueFileSlug env w customSlug false = inr s -> ~ SlugTakenIn w s.
Proof.
  intros H. destruct (Js.truthyStr customSlug) eqn:T.
  - unfold generateUniqueFileSlug in H. rewrite T in H.
    destruct customSlug as [c|]; [|discriminate T].
    destruct (negb (Js.slugFormatRegexTest c)); [discriminate|].
    destruct (fileBySlug w c) as [f|] eqn:E; [discriminate|].
    injection H as <-. intros Ht. apply SlugTakenIn_spec in Ht. congruence.
  - unfold generateUniqueFileSlug in H. rewrite T in H.
    pose proof (randomSlugLoop_spec env w maxAttempts 0) as Hloop.
    rewrite H in Hloop. destruct Hloop as (i & _ & _ & Hfree & _). exact Hfree.
Qed.

(** X8.  Freshness of allocated slugs.  Without [override], a slug that
    [generateUniqueFileSlug] returns is carried by no FileRecord, whether it
    was given or drawn.  When no custom slug is given, the slug returned is
    the first of the ten candidates drawn that is not taken, and the call
    fails, with the exhaustion error only, exactly when all ten candidates
    are taken. *)
Theorem generateUniqueFileSlug_fresh (env : Env) (w : World) (customSlug : option string) :
  (forall s, generateUniqueFileSlug env w customSlug false = inr s -> ~ SlugTakenIn w s)
  /\ (Js.truthyStr customSlug = false ->
      forall override,
        (forall s, generateUniqueFileSlug env w customSlug override = inr s ->
           exists i, (i < 10)%nat /\ s = slugCandidates env i /\ ~ SlugTakenIn w s
                     /\ forall j, (j < i)%nat -> SlugTakenIn w (slugCandidates env j))
        /\ (forall e, generateUniqueFileSlug env w customSlug override = inl e ->
              e = SlugExhausted)
        /\ (generateUniqueFileSlug env w customSlug override = inl SlugExhausted
            <-> forall j, (j < 10)%nat -> SlugTakenIn w (slugCandidates env j))).
Proof.
  pose proof (randomSlugLoop_spec env w maxAttempts 0) as Hloop.
  assert (Hrandom : forall override, Js.truthyStr customSlug = false ->
            generateUniqueFileSlug env w customSlug override
            = randomSlugLoop env w 0 maxAttempts).
  { intros override Hf. unfold generateUniqueFileSlug. now rewrite Hf. }
  split.
  - intros s. apply generateUniqueFileSlug_free.
  - intros T override. rewrite (Hrandom override T).
    destruct (randomSlugLoop env w 0 maxAttempts) as [e|s].
    + destruct Hloop as [-> Hall]. split; [discriminate|]. split; [congruence|].
      split; [intros _ j Hj; apply Hall; unfold maxAttempts; lia | reflexivity].
    + destruct Hloop as (i & Hi & Hs & Hfree & Hbefore).
      split; [|split; [discriminate|]].
      * intros s' H. injection H as <-. exists i. unfold maxAttempts in Hi.
        split; [lia|]. split; [exact Hs|]. split; [exact Hfree|].
        intros j Hj. apply Hbefore. lia.
      * split; [discriminate|]. intros Hall. exfalso. apply Hfree. subst s.
        apply Hall. unfold maxAttempts in Hi. lia.
Qed.

(** A malformed custom slug reaches the outer [catch] of the routes: the
    answer is the internal error (500), not a validation error, and an
    exhausted random draw likewise. *)
Lemma allocateSlug_format_error (env : Env) (s : string) (override : bool) (w : World) :
  s <> EmptyString -> ~ WellFormedSlug s ->
  allocateSlug env (Some s) override w = (inl (InternalError (ThrownSlug SlugFormatInvalid)), w)
  /\ statusOf (InternalError (ThrownSlug SlugFormatInvalid)) = 500.
Proof.
  intros Hne Hbad. split; [|reflexivity].
  unfold allocateSlug, bind, getWorld, generateUniqueFileSlug.
  rewrite (truthyStr_Some s Hne).
  destruct (Js.slugFormatRegexTest s) eqn:E; [|reflexivity].
  apply slugFormatRegexTest_spec in E. contradiction.
Qed.

Lemma presignOverride_off (env : Env) (slug : option string) (w : World) :
  presignOverride env false slug w = (inr tt, w).
Proof. reflexivity. Qed.

Lemma directOverride_off (env : Env) (c : Caller) (customSlug : option string) (w : World) :
  directOverride env c false customSlug w = (inr tt, w).
Proof. reflexivity. Qed.

(** A presign without [override] that is answered with success has written
    one thing: the placeholder row, under a slug no row carried. *)
Lemma presign_plain (env : Env) (c : Caller) (body : PresignBody) (w w' : World)
    (d : PresignData) :
  pb_override body <> Some "true" ->
  presign env c body w = (inr d, w') ->
  exists f,
    w' = setFiles w (files w ++ [f])
    /\ f_id f = file_id d /\ f_slug f = slug d /\ f_size f = 0 /\ f_etag f = None
    /\ f_password f = None
    /\ ~ SlugTakenIn w (slug d).
Proof.
  intros Ho H.
  assert (Eo : optStrEqb (pb_override body) "true" = false).
  { destruct (pb_override body) as [o|]; [|reflexivity]. simpl.
    apply String.eqb_neq. congruence. }
  unfold presign in H. rewrite Eo in H.
  bind_ok_step H. bind_ok_step H. bind_ok_step H. bind_ok_step H. bind_ok_step H.
  bind_ok_step H. bind_ok_step H. bind_ok_step H. bind_ok_step H. bind_ok_step H.
  destruct (getFileNameAndExt env a0) as [fileName fileExt].
  bind_ok_step H. bind_ok_step H.
  unfold ret in H. injection H as <- <-.
  apply orFail_inv in Hm, Hm0, Hm3. destruct Hm as [-> _], Hm0 as [-> _], Hm3 as [-> _].
  apply getWorld_inv in Hm1. destruct Hm1 as [-> Hw]. injection Hw as ->.
  apply rejectIf_inv in Hm2, Hm5. destruct Hm2 as [-> _], Hm5 as [-> _].
  assert (w5 = w) as ->.
  { destruct (presignQuota w a3 a (pb_size body)); unfold fail, ret in Hm4; congruence. }
  apply allocateSlug_inv in Hm6. destruct Hm6 as [-> Hslug].
  rewrite presignOverride_off in Hm7. injection Hm7 as _ <-.
  apply orThrow_inv in Hm8. destruct Hm8 as [-> _].
  apply storagePathFor_inv in Hm9. destruct Hm9 as [-> _].
  apply modify_inv in Hm10. destruct Hm10 as [-> _].
  eexists. split; [reflexivity|]. simpl. repeat split.
  apply (generateUniqueFileSlug_free env w (pb_slug body) _ Hslug).
Qed.

Lemma NoDup_app_single {A : Type} (l : list A) (x : A) :
  NoDup l -> ~ In x l -> NoDup (l ++ [x]).
Proof.
  intros Hl Hx. induction Hl as [|a r Ha Hr IH]; simpl.
  - constructor; [intros [] | constructor].
  - constructor.
    + intros Hin. apply in_app_or in Hin. destruct Hin as [Hin|[<-|[]]]; [contradiction|].
      apply Hx. now left.
    + apply IH. intros Hin. apply Hx. now right.
Qed.

Lemma sumSizes_app (l1 l2 : list FileRecord) :
  sumSizes (l1 ++ l2) = sumSizes l1 + sumSizes l2.
Proof.
  unfold sumSizes. induction l1 as [|f r IH]; simpl; [reflexivity|]. rewrite IH. lia.
Qed.

Lemma usage_append (w : World) (f : FileRecord) (cfg : string) :
  usage (setFiles w (files w ++ [f])) cfg
  = usage w cfg + (if String.eqb (f_s3_config_id f) cfg then f_size f else 0).
Proof.
  unfold usage. simpl. rewrite filter_app, sumSizes_app. simpl.
  destruct (String.eqb (f_s3_config_id f) cfg); unfold sumSizes; simpl; lia.
Qed.

(** X9.  A presign without [override] keeps slugs unique: when no two
    FileRecords carried the same slug before a successful presign, none do
    after it. *)
Theorem presign_keeps_slugs_unique (env : Env) (c : Caller) (body : PresignBody)
    (w w' : World) (d : PresignData) :
  pb_override body <> Some "true" ->
  UniqueSlugs w ->
  presign env c body w = (inr d, w') ->
  UniqueSlugs w' /\ SlugTakenIn w' (slug d).
Proof.
  intros Ho Hu H. destruct (presign_plain _ _ _ _ _ _ Ho H) as (f & -> & _ & Hs & _ & _ & _ & Hfree).
  unfold UniqueSlugs, SlugTakenIn in *. simpl. split.
  - rewrite map_app. simpl. apply NoDup_app_single; [exact Hu|].
    intros Hin. apply in_map_iff in Hin. destruct Hin as (g & Hg & Hin).
    apply Hfree. exists g. split; [exact Hin | congruence].
  - exists f. split; [apply in_or_app; right; now left | exact Hs].
Qed.

Lemma presign_keeps_slugs_unique_witness :
  UniqueSlugs (snd (presign Sample.env Sample.key1
                            (Sample.presignBody (Js.Num 2) (Some "Y") None)
                            Sample.smallWorld)).
Proof.
  destruct (presign Sample.env Sample.key1 (Sample.presignBody (Js.Num 2) (Some "Y") None)
                    Sample.smallWorld) as [[e|d] w'] eqn:E;
    [vm_compute in E; discriminate E|].
  simpl.
  apply (presign_keeps_slugs_unique Sample.env Sample.key1
           (Sample.presignBody (Js.Num 2) (Some "Y") None) Sample.smallWorld w' d).
  - discriminate.
  - unfold UniqueSlugs. simpl. constructor; [intros [] | constructor].
  - exact E.
Defined.

(** X10.  A presign reserves nothing.  A successful presign without
    [override] leaves the usage of every configuration, the object store,
    the password rows and the caches as they were: the declared size counts
    against the ceiling only once the upload is committed. *)
Theorem presign_reserves_nothing (env : Env) (c : Caller) (body : PresignBody)
    (w w' : World) (d : PresignData) :
  pb_override body <> Some "true" ->
  presign env c body w = (inr d, w') ->
  (forall cfg, usage w' cfg = usage w cfg)
  /\ objects w' = objects w
  /\ file_passwords w' = file_passwords w
  /\ cache_cleared w' = cache_cleared w
  /\ dirs_touched w' = dirs_touched w.
Proof.
  intros Ho H. destruct (presign_plain _ _ _ _ _ _ Ho H) as (f & -> & _ & _ & Hz & _).
  split; [|repeat split].
  intros cfg. rewrite usage_append, Hz. destruct (String.eqb (f_s3_config_id f) cfg); lia.
Qed.

Lemma presign_reserves_nothing_witness :
  usage (snd (presign Sample.env Sample.key1
                      (Sample.presignBody (Js.Num 2) (Some "Y") None) Sample.smallWorld))
        "cfg1"
  = usage Sample.smallWorld "cfg1".
Proof.
  destruct (presign Sample.env Sample.key1 (Sample.presignBody (Js.Num 2) (Some "Y") None)
                    Sample.smallWorld) as [[e|d] w'] eqn:E;
    [vm_compute in E; discriminate E|].
  simpl.
  apply (presign_reserves_nothing Sample.env Sample.key1
           (Sample.presignBody (Js.Num 2) (Some "Y") None) Sample.smallWorld w' d).
  - discriminate.
  - exact E.
Defined.

(* ================================================================== *)
(** * What a refused request leaves behind                             *)
(* ================================================================== *)

Lemma failWith_inv (o : option ApiError) (w w' : World) (r : ApiError + unit) :
  match o with
  | Some e => fail e
  | None => ret tt
  end w = (r, w') ->
  w' = w /\ match o with
            | Some e => r = inl e
            | None => r = inr tt
            end.
Proof. destruct o; unfold fail, ret; intros H; injection H as <- <-; auto. Qed.

Lemma orFail_err {A : Type} (o : option A) (err e : ApiError) (w w' : World) :
  orFail o err w = (inl e, w') -> w' = w /\ e = err.
Proof.
  intros H. apply orFail_inv in H. destruct H as [-> [[_ Hr]|(x & _ & Hr)]]; inv_sum.
  now subst.
Qed.

Lemma rejectIf_err (b : bool) (err e : ApiError) (w w' : World) :
  rejectIf b err w = (inl e, w') -> w' = w /\ e = err.
Proof.
  intros H. apply rejectIf_inv in H. destruct H as [-> [[_ Hr]|[_ Hr]]]; inv_sum.
  now subst.
Qed.





(** With [override], a [path] that is a number ends the presign with an
    internal error after the record under the slug has been removed. *)
Example presign_path_not_a_string :
  presign Sample.env Sample.key1
          (mkPresignBody (Some "cfg1") (Some "a.bin") (Js.Num 2) (Js.Num 5) (Some "X")
                         (Some "true"))
          Sample.smallWorld
  = (inl (InternalError ThrownTypeError),
     mkWorld [] [] [Sample.cfg1] [] [] None [] ["cfg1"] []).
Proof. vm_compute. reflexivity. Qed.

(** The upload limit compares the declared size as a number: a size given
    as the text [1e9] is a thousand million bytes, above the default limit
    of 100 MB. *)
Example presign_size_in_exponent_text :
  fst (presign Sample.env Sample.admin1
               (Sample.presignBody (Js.Str "1e9") None None) Sample.emptyWorld)
  = inl (UploadTooLarge (Some 104857600) (Js.Str "1e9")).
Proof. vm_compute. reflexivity. Qed.

Lemma commitQuota_kind (w : World) (s3Config : S3Config) (file : FileRecord) (size : Js.Val)
    (e : ApiError) :
  commitQuota w s3Config file size = Some e -> isCapacityError e = true.
Proof.
  unfold commitQuota. destruct (c_total_storage_bytes s3Config); [|discriminate].
  match goal with |- context [if ?b then _ else _] => destruct b end; [|discriminate].
  intros H. injection H as <-. reflexivity.
Qed.

Lemma commitUpdate_finds (env : Env) (c : Caller) (body : CommitBody) (ex : option Z)
    (fid : string) (w : World) (file : FileRecord) :
  fileById w fid = Some file ->
  find (fun f => String.eqb (f_id f) fid) (commitUpdate env c body ex fid (files w))
  = Some (commitUpdateRow env c body ex file).
Proof.
  intros Hf. unfold commitUpdate. rewrite find_map_same.
  - unfold fileById in Hf. rewrite Hf. simpl.
    apply find_some in Hf. destruct Hf as [_ Hf]. simpl in Hf. now rewrite Hf.
  - intros x. destruct (String.eqb (f_id x) fid) eqn:Ex; simpl; rewrite ?Ex; reflexivity.
Qed.

Lemma commitLookup_err_kind (c : Caller) (body : CommitBody) (w w' : World) (e : ApiError) :
  commitLookup c body w = (inl e, w') ->
  isCapacityError e = false /\ statusOf e <> 500.
Proof.
  intros E. unfold commitLookup in E.
  bind_cases E.
  { injection He as ->. apply orFail_err in Hm. destruct Hm as [_ ->].
    split; [reflexivity | discriminate]. }
  bind_cases E.
  { apply getWorld_inv in Hm0. destruct Hm0 as [_ Hr]. discriminate. }
  bind_cases E.
  { injection He as ->. apply orFail_err in Hm1. destruct Hm1 as [_ ->].
    split; [reflexivity | discriminate]. }
  bind_cases E.
  { injection He as ->. apply rejectIf_err in Hm2. destruct Hm2 as [_ ->].
    split; [reflexivity | discriminate]. }
  bind_cases E.
  { injection He as ->. apply rejectIf_err in Hm3. destruct Hm3 as [_ ->].
    split; [reflexivity | discriminate]. }
  bind_cases E.
  { injection He as ->. apply orFail_err in Hm4. destruct Hm4 as [_ ->].
    split; [reflexivity | discriminate]. }
  unfold ret in E. discriminate.
Qed.

Lemma commitExpiresAt_thrown (env : Env) (expires_in : Js.Val) (t : Thrown) :
  commitExpiresAt env expires_in = inl t ->
  t = ThrownRangeError
  /\ Js.truthy expires_in = true
  /\ exists h, Js.parseInt expires_in = Some h /\ 0 < h /\ hoursFromNow env h = None.
Proof.
  unfold commitExpiresAt, expiryAfter.
  destruct (Js.truthy expires_in); [|discriminate].
  destruct (Js.parseInt expires_in) as [h|]; [|discriminate].
  destruct (0 <? h) eqn:Hh; [|discriminate].
  destruct (hoursFromNow env h) eqn:Hn; [discriminate|].
  intros H. injection H as <-. apply Z.ltb_lt in Hh.
  split; [reflexivity|]. split; [reflexivity|]. exists h. auto.
Qed.

(** X12.  A commit that is refused with a status of the 400 range for any
    reason other than capacity has written nothing: a missing or unknown
    file id, a record of another creator and an inaccessible configuration
    all leave the state as it was.  A refusal for capacity leaves the state
    of the rollback.  An [expires_in] whose hours carry the expiry beyond
    the range of dates ends the request with an internal error before the
    UPDATE: nothing has been written then either. *)
Theorem commit_error_state (env : Env) (c : Caller) (body : CommitBody) (w w' : World)
    (e : ApiError) :
  commit env c body w = (inl e, w') ->
  (statusOf e <> 500 -> isCapacityError e = false -> w' = w)
  /\ (isCapacityError e = true ->
      exists fid file s3Config,
        commitLookup c body w = (inr (fid, file, s3Config), w)
        /\ w' = rollbackCommit env s3Config file w)
  /\ (e = InternalError ThrownRangeError ->
      w' = w
      /\ Js.truthy (cb_expires_in body) = true
      /\ exists h, Js.parseInt (cb_expires_in body) = Some h /\ 0 < h
                   /\ hoursFromNow env h = None).
Proof.
  intros H.
  destruct (commitLookup c body w) as [[e0|[[fid file] cfg]] w1] eqn:E;
    pose proof (commitLookup_world _ _ _ _ _ E) as ->.
  - rewrite (commit_lookup_err env _ _ _ _ E) in H. injection H as <- <-.
    destruct (commitLookup_err_kind _ _ _ _ _ E) as [K S].
    split; [reflexivity|]. split; [intros K'; congruence|].
    intros ->. now elim S.
  - rewrite (commit_after_lookup env _ _ _ _ _ _ E) in H.
    destruct (commitQuota w cfg file (cb_size body)) as [e1|] eqn:Q.
    + injection H as <- <-. apply commitQuota_kind in Q. split; [congruence|].
      split; [intros _; now exists fid, file, cfg|].
      intros ->. discriminate Q.
    + rewrite commitPersist_run in H.
      destruct (commitExpiresAt env (cb_expires_in body)) as [t|ex] eqn:Ex.
      * injection H as <- <-.
        destruct (commitExpiresAt_thrown _ _ _ Ex) as (-> & T & Hh).
        split; [reflexivity|]. split; [discriminate|]. intros _. auto.
      * exfalso. cbv zeta in H.
        destruct (commitLookup_ok _ _ _ _ _ _ _ E) as (_ & Hfile & _).
        rewrite (commitUpdate_finds env c body ex fid w file Hfile) in H. discriminate.
Qed.

(** A commit for an unknown file id. *)
Lemma commit_error_state_witness :
  commit Sample.env Sample.admin1
         (mkCommitBody (Some "nope") None (Js.Num 1) None Js.Null None Js.Undefined)
         Sample.pendingWorld
  = (inl FileNotFound, Sample.pendingWorld).
Proof.
  destruct (commit Sample.env Sample.admin1
              (mkCommitBody (Some "nope") None (Js.Num 1) None Js.Null None Js.Undefined)
              Sample.pendingWorld) as [[e|d] w'] eqn:E;
    [|vm_compute in E; discriminate E].
  rewrite (proj1 (commit_error_state _ _ _ _ _ _ E)).
  - vm_compute in E. now injection E as <- _.
  - vm_compute in E. injection E as <- _. discriminate.
  - vm_compute in E. now injection E as <- _.
Defined.

(** Three thousand million hours from the clock lie beyond the last date:
    the commit ends with an internal error and writes nothing. *)
Example commit_expiry_out_of_range :
  commit Sample.env Sample.admin1
         (mkCommitBody (Some "f1") None (Js.Num 2) None (Js.Num 3000000000) None Js.Undefined)
         Sample.pendingWorld
  = (inl (InternalError ThrownRangeError), Sample.pendingWorld).
Proof. vm_compute. reflexivity. Qed.

(** X13.  A commit never touches a record of another creator.  When the
    record named by the request carries a creator other than the caller's
    own identity, the commit of an administrator or of an API key is
    refused with status 403 and nothing is written. *)
Theorem commit_refuses_other_creator (env : Env) (c : Caller) (body : CommitBody)
    (w : World) (fid other : string) (file : FileRecord) :
  AdminCaller c \/ ApiKeyCaller c ->
  nonEmpty (cb_file_id body) = Some fid ->
  fileById w fid = Some file ->
  f_created_by file = Some other ->
  other <> EmptyString ->
  other <> creatorOf c ->
  commit env c body w = (inl NotFileOwner, w) /\ statusOf NotFileOwner = 403.
Proof.
  intros Hc Hid Hfile Hcr Hne Hother. split; [|reflexivity].
  apply commit_lookup_err. unfold commitLookup, bind, orFail, getWorld, ret, fail, rejectIf.
  rewrite Hid, Hfile, Hcr. simpl.
  apply String.eqb_neq in Hne. rewrite Hne. simpl.
  unfold creatorOf in Hother.
  destruct Hc as [[Ha Ht]|[Ha Ht]]; rewrite Ha in *; rewrite Ht; simpl.
  - apply String.eqb_neq in Hother. now rewrite Hother.
  - unfold apikeyCreator. apply String.eqb_neq in Hother. now rewrite Hother.
Qed.

Lemma commit_refuses_other_creator_witness :
  commit Sample.env Sample.key2 (Sample.commitBody None (Js.Num 1) Js.Null)
         Sample.smallWorld
  = (inl NotFileOwner, Sample.smallWorld).
Proof.
  apply (commit_refuses_other_creator Sample.env Sample.key2
           (Sample.commitBody None (Js.Num 1) Js.Null) Sample.smallWorld "f1" "apikey:k1"
           (Sample.record "f1" "X" "x.bin" 2 (Some "apikey:k1"))
           (or_intror (conj eq_refl eq_refl)) eq_refl eq_refl eq_refl);
    discriminate.
Defined.

(* ================================================================== *)
(** * What a commit leaves behind                                      *)
(* ================================================================== *)

(** The state and the answer of a successful commit, written out. *)
Lemma commit_success_full (env : Env) (c : Caller) (body : CommitBody) (w w' : World)
    (d : CommitData) :
  commit env c body w = (inr d, w') ->
  exists fid file s3Config ex,
    commitLookup c body w = (inr (fid, file, s3Config), w)
    /\ commitQuota w s3Config file (cb_size body) = None
    /\ f_id file = fid
    /\ updatedFile d = summaryOf (commitUpdateRow env c body ex file)
    /\ hasPassword d
       = Js.truthyStr (option_map (hashPassword env) (nonEmpty (cb_password body)))
    /\ w' = clearCache
              (touchAncestors
                 (match nonEmpty (cb_password body) with
                  | Some password =>
                      setPasswords (setFiles w (commitUpdate env c body ex fid (files w)))
                                   (upsertPassword fid password (file_passwords w))
                  | None => setFiles w (commitUpdate env c body ex fid (files w))
                  end)
                 (c_id s3Config) (f_storage_path file))
              (f_s3_config_id file).
Proof.
  intros H.
  destruct (commitLookup c body w) as [[e|[[fid file] cfg]] w1] eqn:E;
    pose proof (commitLookup_world _ _ _ _ _ E) as ->.
  - rewrite (commit_lookup_err env _ _ _ _ E) in H. discriminate.
  - rewrite (commit_after_lookup env _ _ _ _ _ _ E) in H.
    destruct (commitQuota w cfg file (cb_size body)) eqn:Q; [discriminate|].
    rewrite commitPersist_run in H.
    destruct (commitExpiresAt env (cb_expires_in body)) as [t|ex]; [discriminate|].
    exists fid, file, cfg, ex. split; [reflexivity|]. split; [exact Q|].
    destruct (commitLookup_ok _ _ _ _ _ _ _ E) as (_ & Hfile & _).
    cbv zeta in H.
    rewrite (commitUpdate_finds env c body ex fid w file Hfile) in H.
    injection H as <- <-. apply fileById_Some in Hfile. destruct Hfile as [_ Hid].
    refine (conj Hid (conj eq_refl (conj eq_refl _))).
    destruct (nonEmpty (cb_password body)); reflexivity.
Qed.






(** A size that prints in exponent notation is stored as its leading digit,
    and a fraction as its integer part. *)
Example commit_stores_what_parseInt_reads :
  map f_size (files (snd (commit Sample.env Sample.admin1
                                 (Sample.commitBody None (Js.Num (10 ^ 21)) Js.Null)
                                 Sample.pendingWorld)))
  = map f_size (files (snd (commit Sample.env Sample.admin1
                                   (Sample.commitBody None (Js.Frac 15 (-1)) Js.Null)
                                   Sample.pendingWorld))).
Proof. vm_compute. reflexivity. Qed.

Lemma upsertPassword_find (fid password : string) (ps : list FilePassword) :
  find (fun p => String.eqb (p_file_id p) fid) (upsertPassword fid password ps)
  = Some (mkFilePassword fid password).
Proof.
  unfold upsertPassword.
  destruct (find (fun p => String.eqb (p_file_id p) fid) ps) as [p0|] eqn:F.
  - induction ps as [|p r IH]; simpl in *; [discriminate|].
    destruct (String.eqb (p_file_id p) fid) eqn:E; simpl.
    + now rewrite String.eqb_refl.
    + rewrite E. apply IH. exact F.
  - rewrite (find_app_none _ _ _ F). simpl. now rewrite String.eqb_refl.
Qed.

Lemma upsertPassword_others (fid password : string) (ps : list FilePassword) :
  filter (fun p => negb (String.eqb (p_file_id p) fid)) (upsertPassword fid password ps)
  = filter (fun p => negb (String.eqb (p_file_id p) fid)) ps.
Proof.
  unfold upsertPassword.
  destruct (find (fun p => String.eqb (p_file_id p) fid) ps) as [p0|].
  - induction ps as [|p r IH]; simpl; [reflexivity|].
    destruct (String.eqb (p_file_id p) fid) eqn:E; simpl.
    + rewrite String.eqb_refl. simpl. exact IH.
    + rewrite E. simpl. now rewrite IH.
  - rewrite filter_app. simpl. rewrite String.eqb_refl. simpl. apply app_nil_r.
Qed.

(** X15.  Password of a committed record.  A successful commit with a
    password stores its hash in the record and makes the plaintext row of
    the record hold that password (updating the row or inserting one); the
    rows of other records are kept.  A successful commit without a password
    sets the hash to null and reports no password, yet leaves the plaintext
    rows untouched: a plaintext row a former commit left stays behind. *)
Theorem commit_password (env : Env) (c : Caller) (body : CommitBody) (w w' : World)
    (d : CommitData) :
  commit env c body w = (inr d, w') ->
  (forall f, In f (files w') -> f_id f = fs_id (updatedFile d) ->
             f_password f = option_map (hashPassword env) (nonEmpty (cb_password body)))
  /\ (forall password, nonEmpty (cb_password body) = Some password ->
        find (fun p => String.eqb (p_file_id p) (fs_id (updatedFile d))) (file_passwords w')
        = Some (mkFilePassword (fs_id (updatedFile d)) password)
        /\ filter (fun p => negb (String.eqb (p_file_id p) (fs_id (updatedFile d))))
                  (file_passwords w')
           = filter (fun p => negb (String.eqb (p_file_id p) (fs_id (updatedFile d))))
                    (file_passwords w))
  /\ (nonEmpty (cb_password body) = None ->
      file_passwords w' = file_passwords w /\ hasPassword d = false).
Proof.
  intros H.
  destruct (commit_success_full _ _ _ _ _ _ H)
    as (fid & file & cfg & ex & _ & _ & Hid & Hd & Hp & ->).
  assert (Hfid : fs_id (updatedFile d) = fid) by (rewrite Hd; exact Hid).
  rewrite Hfid. split; [|split].
  - intros f Hin Hf.
    assert (Hin' : In f (commitUpdate env c body ex fid (files w))).
    { destruct (nonEmpty (cb_password body)); exact Hin. }
    destruct (commitUpdate_row _ _ _ _ _ _ _ Hin' Hf) as (f0 & _ & _ & ->). reflexivity.
  - intros password Hpw. rewrite Hpw. simpl.
    split; [apply upsertPassword_find | apply upsertPassword_others].
  - intros Hpw. rewrite Hp, Hpw. split; reflexivity.
Qed.

Lemma commit_password_witness :
  file_passwords (snd (commit Sample.env Sample.key1
                              (Sample.commitBody None (Js.Num 1) Js.Null) Sample.smallWorld))
  = [mkFilePassword "f1" "pw"]
  /\ map f_password (files (snd (commit Sample.env Sample.key1
                                        (Sample.commitBody None (Js.Num 1) Js.Null)
                                        Sample.smallWorld)))
     = [None].
Proof.
  destruct (commit Sample.env Sample.key1 (Sample.commitBody None (Js.Num 1) Js.Null)
                   Sample.smallWorld) as [[e|d] w'] eqn:E;
    [vm_compute in E; discriminate E|].
  pose proof (commit_password _ _ _ _ _ _ E) as (_ & _ & H).
  destruct (H eq_refl) as [Hp _]. simpl. split; [exact Hp|].
  vm_compute in E. injection E as _ <-. reflexivity.
Defined.

(* ================================================================== *)
(** * What a direct upload leaves behind                               *)
(* ================================================================== *)

Lemma transfer_inv (env : Env) (providerB2 : string) (s3Config : S3Config)
    (storagePath : string) (w w' : World) (r : ApiError + option string) :
  transfer env providerB2 s3Config storagePath w = (r, w') ->
  match r with
  | inl e => e = InternalError ThrownUpload /\ w' = w
  | inr etag =>
      exists key raw,
        (key = storagePath \/ key = normalizedPathOf storagePath)
        /\ putObject env s3Config key = PutOk raw
        /\ w' = setObjects w (addObject (c_id s3Config) key (objects w))
        /\ (etag = option_map removeQuotes raw
            \/ etag = option_map removeQuotes (nonEmpty raw))
  end.
Proof.
  unfold transfer, bind, modify, ret, fail.
  destruct (String.eqb (c_provider_type s3Config) providerB2).
  - destruct (putObject env s3Config storagePath) as [raw|] eqn:P; intros H;
      injection H as <- <-; [|auto].
    exists storagePath, raw. auto.
  - destruct (putObject env s3Config (normalizedPathOf storagePath)) as [raw|] eqn:P;
      intros H; injection H as <- <-; [|auto].
    exists (normalizedPathOf storagePath), raw. auto.
Qed.

Lemma addObject_In (cfg key : string) (objs : list (string * string)) :
  exists x, In x (addObject cfg key objs) /\ fst x = cfg /\ snd x = key.
Proof.
  unfold addObject.
  destruct (existsb (fun x => String.eqb (fst x) cfg && String.eqb (snd x) key) objs) eqn:E.
  - apply existsb_exists in E. destruct E as (x & Hin & Hx).
    apply andb_true_iff in Hx. rewrite !String.eqb_eq in Hx. now exists x.
  - exists (cfg, key). split; [apply in_or_app; right; now left | auto].
Qed.

Lemma addObject_keeps (cfg key : string) (objs : list (string * string))
    (x : string * string) :
  In x objs -> In x (addObject cfg key objs).
Proof.
  unfold addObject. destruct (existsb _ objs); [auto|]. intros H. apply in_or_app. now left.
Qed.

Lemma removeQuotes_clean (s : string) :
  ~ In quoteChar (list_ascii_of_string (removeQuotes s)).
Proof.
  induction s as [|c r IH]; simpl; [intros []|].
  fold quoteChar. destruct (Ascii.eqb c quoteChar) eqn:E; [exact IH|].
  simpl. intros [H|H]; [|contradiction]. apply Ascii.eqb_neq in E. contradiction.
Qed.

Lemma directOverride_files (env : Env) (c : Caller) (override : bool)
    (customSlug : option string) (w w' : World) :
  directOverride env c override customSlug w = (inr tt, w') ->
  w' = w
  \/ exists s existingFile,
       override = true /\ nonEmpty customSlug = Some s
       /\ fileBySlug w s = Some existingFile
       /\ f_created_by existingFile = Some (directCreator c)
       /\ w' = removeExisting env existingFile w.
Proof.
  unfold directOverride. destruct override; [|unfold ret; intros H; left; congruence].
  destruct (nonEmpty customSlug) as [s|]; [|unfold ret; intros H; left; congruence].
  unfold bind, getWorld. destruct (fileBySlug w s) as [ex|] eqn:F;
    [|unfold ret; intros H; left; congruence].
  destruct (optStrEqb (f_created_by ex) (directCreator c)) eqn:E; simpl.
  - unfold modify. intros H. injection H as <-. right. exists s, ex.
    refine (conj eq_refl (conj eq_refl (conj F (conj _ eq_refl)))).
    destruct (f_created_by ex) as [t|]; [|discriminate]. simpl in E.
    apply String.eqb_eq in E. now subst.
  - unfold fail. discriminate.
Qed.

(** The state and the answer of a successful direct upload, written out
    from the state [w1] the override block has left. *)
Lemma uploadDirect_success_full (env : Env) (providerB2 : string) (c : Caller)
    (req : DirectRequest) (w w' : World) (d : DirectData) :
  uploadDirect env providerB2 c req w = (inr d, w') ->
  exists s3Config w1 f key raw,
    configById w (f_s3_config_id f) = Some s3Config
    /\ (isAdmin c = true -> c_admin_id s3Config = Some (userId c))
    /\ (authType c = AuthApiKey -> c_is_public s3Config = 1)
    /\ Js.gt (Some (f_size f)) (maxUploadSizeBytes w) = false
    /\ directQuota w s3Config (f_s3_config_id f) (f_size f) = None
    /\ generateUniqueFileSlug env w (q_slug req) (optStrEqb (q_override req) "true")
       = inr (f_slug f)
    /\ directOverride env c (optStrEqb (q_override req) "true") (q_slug req) w = (inr tt, w1)
    /\ (key = f_storage_path f \/ key = normalizedPathOf (f_storage_path f))
    /\ putObject env s3Config key = PutOk raw
    /\ (f_etag f = option_map removeQuotes raw
        \/ f_etag f = option_map removeQuotes (nonEmpty raw))
    /\ f_id f = d_id d /\ f_slug f = d_slug d
    /\ f_size f = Z.of_nat (List.length (q_content req)) /\ d_size d = f_size f
    /\ f_password f = option_map (hashPassword env) (nonEmpty (q_password req))
    /\ d_requires_password d = Js.truthyStr (f_password f)
    /\ w' = clearCache
              (touchAncestors
                 (match nonEmpty (q_password req) with
                  | Some pw =>
                      setPasswords
                        (setFiles (setObjects w1 (addObject (c_id s3Config) key (objects w1)))
                                  (files w1 ++ [f]))
                        (file_passwords w1 ++ [mkFilePassword (f_id f) pw])
                  | None =>
                      setFiles (setObjects w1 (addObject (c_id s3Config) key (objects w1)))
                               (files w1 ++ [f])
                  end)
                 (c_id s3Config) (f_storage_path f))
              (f_s3_config_id f).
Proof.
  intros H. unfold uploadDirect in H.
  bind_ok_step H. bind_ok_step H. bind_ok_step H. bind_ok_step H. bind_ok_step H.
  bind_ok_step H. bind_ok_step H. bind_ok_step H. bind_ok_step H.
  destruct (getFileNameAndExt env (q_filename req)) as [fileName fileExt].
  bind_ok_step H. bind_ok_step H. bind_ok_step H. bind_ok_step H. bind_ok_step H.
  bind_ok_step H. bind_ok_step H.
  unfold ret in H. injection H as <- <-.
  apply directConfigId_world in Hm. subst w0.
  apply getWorld_inv in Hm0. destruct Hm0 as [-> Hw]. injection Hw as ->.
  apply orFail_inv in Hm1. destruct Hm1 as [-> [[_ Hr]|(cfg & Hcfg & Hr)]]; inv_sum.
  subst a1.
  apply rejectIf_inv in Hm2, Hm3, Hm4.
  destruct Hm2 as [-> [[_ Hr2]|[Hc2 _]]]; inv_sum.
  destruct Hm3 as [-> [[_ Hr3]|[Hc3 _]]]; inv_sum.
  destruct Hm4 as [-> [[_ Hr4]|[Hc4 _]]]; inv_sum.
  apply failWith_inv in Hm5. destruct Hm5 as [-> Hq].
  destruct (directQuota w cfg a (Z.of_nat (List.length (q_content req)))) eqn:Q;
    [discriminate Hq|].
  apply allocateSlug_inv in Hm6. destruct Hm6 as [-> Hslug].
  repeat match goal with u : unit |- _ => destruct u end.
  apply storagePathFor_inv in Hm8. destruct Hm8 as [-> _].
  apply transfer_inv in Hm9. destruct Hm9 as (key & raw & Hkey & Hput & -> & Hetag).
  apply orThrow_inv in Hm10. destruct Hm10 as [-> _].
  apply modify_inv in Hm11, Hm13, Hm14.
  destruct Hm11 as [-> _], Hm13 as [-> _], Hm14 as [-> _].
  assert (Hid : c_id cfg = a).
  { unfold configById in Hcfg. apply find_some in Hcfg. destruct Hcfg as [_ Hcfg].
    now apply String.eqb_eq in Hcfg. }
  exists cfg, w8,
    (mkFileRecord (generateFileId env) a6 (q_filename req) a8 (buildS3Url env cfg a8) a
       (getMimeTypeFromFilename env (q_filename req))
       (Z.of_nat (List.length (q_content req))) a9 (Some (directCreator c))
       (Some match nonEmpty (q_remark req) with Some r => r | None => EmptyString end)
       (option_map (hashPassword env) (nonEmpty (q_password req)))
       a10
       (positiveOrNull (queryInt (q_max_views req)))
       (Some (if negb (optStrEqb (q_use_proxy req) "0") then 1 else 0))),
    key, raw.
  cbn [f_s3_config_id f_size f_slug f_storage_path f_etag f_id f_password].
  split; [exact Hcfg|].
  split.
  { intros Ha. rewrite Ha in Hc2. simpl in Hc2. apply negb_false_iff in Hc2.
    destruct (c_admin_id cfg) as [t|]; [|discriminate]. simpl in Hc2.
    apply String.eqb_eq in Hc2. now subst. }
  split.
  { intros Ha. rewrite Ha in Hc3. simpl in Hc3. apply negb_false_iff in Hc3.
    now apply Z.eqb_eq in Hc3. }
  split; [exact Hc4|]. split; [exact Q|]. split; [exact Hslug|]. split; [exact Hm7|].
  split; [exact Hkey|]. split; [exact Hput|]. split; [exact Hetag|].
  refine (conj eq_refl (conj eq_refl (conj eq_refl (conj eq_refl (conj eq_refl
            (conj eq_refl _)))))).
  destruct (nonEmpty (q_password req));
    [apply modify_inv in Hm12; destruct Hm12 as [-> _]
    | unfold ret in Hm12; injection Hm12 as <-]; reflexivity.
Qed.

Lemma removeExisting_passwords_subset (env : Env) (existingFile : FileRecord) (w : World)
    (p : FilePassword) :
  In p (file_passwords (removeExisting env existingFile w)) -> In p (file_passwords w).
Proof.
  unfold removeExisting.
  destruct (configById w (f_s3_config_id existingFile)) as [cfg|].
  - destruct (deleteFileFromS3 env cfg (f_storage_path existingFile)); simpl; auto;
      unfold deletePassword; intros H; now apply filter_In in H.
  - simpl. unfold deletePassword. intros H. now apply filter_In in H.
Qed.

(** X16.  What a successful direct upload has done.  The new record is the
    last row of the files table and its size is the byte length of the
    request body.  The object store holds an object of the record's
    configuration under the record's storage key (as it is for the B2
    branch, without a leading slash otherwise).  The cache of the
    configuration has been invalidated and the ancestors of the key
    touched.  The password rows follow the record: with a password the
    record holds its hash and a plaintext row for the record has been
    added, without one the hash is null and no row has been added. *)
Theorem uploadDirect_effects (env : Env) (providerB2 : string) (c : Caller)
    (req : DirectRequest) (w w' : World) (d : DirectData) :
  uploadDirect env providerB2 c req w = (inr d, w') ->
  exists f,
    (exists fs, files w' = fs ++ [f]) /\ In f (files w')
    /\ f_id f = d_id d
    /\ f_size f = Z.of_nat (List.length (q_content req)) /\ d_size d = f_size f
    /\ (exists x, In x (objects w') /\ fst x = f_s3_config_id f
                  /\ (snd x = f_storage_path f
                      \/ snd x = normalizedPathOf (f_storage_path f)))
    /\ last (cache_cleared w') EmptyString = f_s3_config_id f
    /\ In (f_s3_config_id f) (cache_cleared w')
    /\ In (f_s3_config_id f, f_storage_path f) (dirs_touched w')
    /\ (forall pw, nonEmpty (q_password req) = Some pw ->
          f_password f = Some (hashPassword env pw)
          /\ In (mkFilePassword (f_id f) pw) (file_passwords w'))
    /\ (nonEmpty (q_password req) = None ->
          f_password f = None /\ d_requires_password d = false
          /\ forall p, In p (file_passwords w') -> In p (file_passwords w)).
Proof.
  intros H.
  destruct (uploadDirect_success_full _ _ _ _ _ _ _ H)
    as (cfg & w1 & f & key & raw & Hcfg & _ & _ & _ & _ & _ & Hov & Hkey & _ & _
        & Hid & _ & Hsz & Hdsz & Hpw & Hreq & ->).
  assert (Hcid : c_id cfg = f_s3_config_id f).
  { unfold configById in Hcfg. apply find_some in Hcfg. destruct Hcfg as [_ Hcfg].
    now apply String.eqb_eq in Hcfg. }
  assert (Hpsub : forall p, In p (file_passwords w1) -> In p (file_passwords w)).
  { destruct (directOverride_files _ _ _ _ _ _ Hov) as [->|(s & ex & _ & _ & _ & _ & ->)];
      [auto|]. intros p. apply removeExisting_passwords_subset. }
  exists f.
  assert (Hfiles : files
            (clearCache
               (touchAncestors
                  match nonEmpty (q_password req) with
                  | Some pw =>
                      setPasswords
                        (setFiles (setObjects w1 (addObject (c_id cfg) key (objects w1)))
                                  (files w1 ++ [f]))
                        (file_passwords w1 ++ [mkFilePassword (f_id f) pw])
                  | None =>
                      setFiles (setObjects w1 (addObject (c_id cfg) key (objects w1)))
                               (files w1 ++ [f])
                  end (c_id cfg) (f_storage_path f)) (f_s3_config_id f))
          = files w1 ++ [f]).
  { destruct (nonEmpty (q_password req)); reflexivity. }
  rewrite Hfiles.
  split; [now exists (files w1)|].
  split; [apply in_or_app; right; now left|].
  split; [exact Hid|]. split; [exact Hsz|]. split; [exact Hdsz|].
  split.
  { destruct (addObject_In (c_id cfg) key (objects w1)) as (x & Hx & Hf & Hs).
    exists x.
    split; [destruct (nonEmpty (q_password req)); exact Hx|].
    split; [now rewrite Hf | now rewrite Hs]. }
  split; [destruct (nonEmpty (q_password req)); simpl; apply last_last|].
  split; [destruct (nonEmpty (q_password req)); simpl; apply in_or_app; right; now left|].
  split.
  { destruct (nonEmpty (q_password req)); simpl; rewrite Hcid; apply in_or_app; right;
      now left. }
  split.
  - intros pw Hp. rewrite Hpw, Hp. split; [reflexivity|].
    simpl. apply in_or_app. right. now left.
  - intros Hp. rewrite Hreq, Hpw, Hp. simpl. split; [reflexivity|]. split; [reflexivity|].
    exact Hpsub.
Qed.

Lemma uploadDirect_effects_witness :
  exists f,
    In f (files (snd (uploadDirect Sample.env Sample.providerB2 Sample.admin1
                        (Sample.directRequest None None None) Sample.emptyWorld)))
    /\ f_size f = 2.
Proof.
  destruct (uploadDirect Sample.env Sample.providerB2 Sample.admin1
              (Sample.directRequest None None None) Sample.emptyWorld)
    as [[e|d] w'] eqn:E; [vm_compute in E; discriminate E|].
  destruct (uploadDirect_effects _ _ _ _ _ _ _ E) as (f & _ & Hin & _ & Hsz & _).
  exists f. split; [exact Hin | exact Hsz].
Defined.





(** X18.  Which configuration a caller may write to.  A direct upload of an
    administrator succeeds only on a configuration the administrator owns,
    and one of an API key only on a public configuration.  A commit of an
    administrator succeeds only on a record of the administrator's own
    configuration, and a commit of any other caller only on a record of a
    public configuration. *)
Theorem write_access_control (env : Env) (providerB2 : string) (c : Caller) (w : World) :
  (forall req d w', uploadDirect env providerB2 c req w = (inr d, w') ->
     exists f s3Config,
       In f (files w') /\ f_id f = d_id d
       /\ configById w (f_s3_config_id f) = Some s3Config
       /\ (isAdmin c = true -> c_admin_id s3Config = Some (userId c))
       /\ (authType c = AuthApiKey -> c_is_public s3Config = 1))
  /\ (forall body d w', commit env c body w = (inr d, w') ->
        exists file s3Config,
          fileById w (fs_id (updatedFile d)) = Some file
          /\ In s3Config (s3_configs w)
          /\ c_id s3Config = f_s3_config_id file
          /\ (isAdmin c = true -> c_admin_id s3Config = Some (userId c))
          /\ (isAdmin c = false -> c_is_public s3Config = 1)).
Proof.
  split.
  - intros req d w' H.
    destruct (uploadDirect_success_full _ _ _ _ _ _ _ H)
      as (cfg & w1 & f & key & raw & Hcfg & Hadm & Hpub & _ & _ & _ & _ & _ & _ & _
          & Hid & _ & _ & _ & _ & _ & ->).
    exists f, cfg.
    split; [destruct (nonEmpty (q_password req)); simpl; apply in_or_app; right; now left|].
    auto.
  - intros body d w' H.
    destruct (commit_success_full _ _ _ _ _ _ H)
      as (fid & file & cfg & ex & Hl & _ & Hid & Hd & _).
    destruct (commitLookup_ok _ _ _ _ _ _ _ Hl) as (_ & Hfile & Hcfg & _).
    exists file, cfg. rewrite Hd. simpl fs_id. rewrite Hid.
    split; [exact Hfile|].
    unfold commitConfig in Hcfg.
    destruct (isAdmin c); apply find_some in Hcfg; destruct Hcfg as [Hin Hc];
      apply andb_true_iff in Hc; destruct Hc as [Hc1 Hc2]; apply String.eqb_eq in Hc1;
      (split; [exact Hin|]); (split; [exact Hc1|]).
    + split; [|discriminate]. intros _.
      destruct (c_admin_id cfg) as [t|]; [|discriminate]. simpl in Hc2.
      apply String.eqb_eq in Hc2. now subst.
    + split; [discriminate|]. intros _. now apply Z.eqb_eq.
Qed.

(** X20.  The ETag of a directly uploaded record never contains a double
    quote: the quotes the object store puts around the value are removed
    before it is stored, for every provider branch. *)
Theorem uploadDirect_etag_unquoted (env : Env) (providerB2 : string) (c : Caller)
    (req : DirectRequest) (w w' : World) (d : DirectData) :
  uploadDirect env providerB2 c req w = (inr d, w') ->
  forall f etag, In f (files w') -> f_id f = d_id d -> ~ In f (files w) ->
                 f_etag f = Some etag ->
                 ~ In quoteChar (list_ascii_of_string etag).
Proof.
  intros H f etag Hin Hfid Hnew Hetag.
  destruct (uploadDirect_success_full _ _ _ _ _ _ _ H)
    as (cfg & w1 & f0 & key & raw & _ & _ & _ & _ & _ & _ & Hov & _ & _ & He
        & _ & _ & _ & _ & _ & _ & ->).
  assert (Hf : f = f0).
  { assert (Hin' : In f (files w1 ++ [f0]))
      by (destruct (nonEmpty (q_password req)); exact Hin).
    apply in_app_or in Hin'. destruct Hin' as [Hin'|[<-|[]]]; [|reflexivity].
    exfalso. apply Hnew.
    destruct (directOverride_inv _ _ _ _ _ _ _ Hov) as [Hsub _]. now apply Hsub. }
  subst f0. rewrite Hetag in He.
  destruct He as [He|He].
  - destruct raw as [r|]; simpl in He; [|discriminate]. injection He as ->.
    apply removeQuotes_clean.
  - destruct (nonEmpty raw) as [r|]; simpl in He; [|discriminate]. injection He as ->.
    apply removeQuotes_clean.
Qed.

Lemma uploadDirect_etag_unquoted_witness :
  map f_etag (files (snd (uploadDirect Sample.quotingEnv Sample.providerB2 Sample.admin1
                            (Sample.directRequest None None None) Sample.emptyWorld)))
  = [Some "e7a9"]
  /\ ~ In quoteChar (list_ascii_of_string "e7a9").
Proof.
  destruct (uploadDirect Sample.quotingEnv Sample.providerB2 Sample.admin1
              (Sample.directRequest None None None) Sample.emptyWorld)
    as [[e|d] w'] eqn:E; [vm_compute in E; discriminate E|].
  pose proof (uploadDirect_etag_unquoted _ _ _ _ _ _ _ E) as H.
  vm_compute in E. injection E as <- <-.
  split; [reflexivity|].
  eapply (H _ "e7a9"); [left; reflexivity | reflexivity | intros [] | reflexivity].
Defined.






(** A direct upload whose expiry lies three thousand million hours ahead:
    the object has been stored when the expiry is computed, and the request
    ends with an internal error and no record. *)
Example uploadDirect_expiry_out_of_range :
  uploadDirect Sample.env Sample.providerB2 Sample.admin1
               (Sample.directRequest None None (Some "3000000000")) Sample.emptyWorld
  = (inl (InternalError ThrownRangeError),
     mkWorld [] [] [Sample.cfg1] [] [] None [("cfg1", "sid001-a.bin")] [] []).
Proof. vm_compute. reflexivity. Qed.

(** X21.  A direct upload without [override] keeps slugs unique: when no
    two FileRecords carried the same slug before a successful upload, none
    do after it, and the new record is the one that carries its slug. *)
Theorem uploadDirect_keeps_slugs_unique (env : Env) (providerB2 : string) (c : Caller)
    (req : DirectRequest) (w w' : World) (d : DirectData) :
  q_override req <> Some "true" ->
  UniqueSlugs w ->
  uploadDirect env providerB2 c req w = (inr d, w') ->
  UniqueSlugs w' /\ ~ SlugTakenIn w (d_slug d) /\ SlugTakenIn w' (d_slug d).
Proof.
  intros Ho Hu H.
  destruct (uploadDirect_success_full _ _ _ _ _ _ _ H)
    as (cfg & w1 & f & key & raw & _ & _ & _ & _ & _ & Hslug & Hov & _ & _ & _
        & _ & Hs & _ & _ & _ & _ & ->).
  assert (Eo : optStrEqb (q_override req) "true" = false).
  { destruct (q_override req) as [o|]; [|reflexivity]. simpl.
    apply String.eqb_neq. congruence. }
  rewrite Eo in Hslug, Hov. rewrite directOverride_off in Hov. injection Hov as <-.
  pose proof (generateUniqueFileSlug_free env w (q_slug req) _ Hslug) as Hfree.
  assert (Hfiles : files
            (clearCache
               (touchAncestors
                  match nonEmpty (q_password req) with
                  | Some pw =>
                      setPasswords
                        (setFiles (setObjects w (addObject (c_id cfg) key (objects w)))
                                  (files w ++ [f]))
                        (file_passwords w ++ [mkFilePassword (f_id f) pw])
                  | None =>
                      setFiles (setObjects w (addObject (c_id cfg) key (objects w)))
                               (files w ++ [f])
                  end (c_id cfg) (f_storage_path f)) (f_s3_config_id f))
          = files w ++ [f]).
  { destruct (nonEmpty (q_password req)); reflexivity. }
  unfold UniqueSlugs, SlugTakenIn in *. rewrite Hfiles, <- Hs.
  split; [|split].
  - rewrite map_app. simpl. apply NoDup_app_single; [exact Hu|].
    intros Hin. apply in_map_iff in Hin. destruct Hin as (g & Hg & Hin).
    apply Hfree. exists g. split; [exact Hin | congruence].
  - exact Hfree.
  - exists f. split; [apply in_or_app; right; now left | reflexivity].
Qed.

Lemma uploadDirect_keeps_slugs_unique_witness :
  UniqueSlugs (snd (uploadDirect Sample.env Sample.providerB2 Sample.key1
                      (Sample.directRequest (Some "Y") None None) Sample.smallWorld)).
Proof.
  destruct (uploadDirect Sample.env Sample.providerB2 Sample.key1
              (Sample.directRequest (Some "Y") None None) Sample.smallWorld)
    as [[e|d] w'] eqn:E; [vm_compute in E; discriminate E|].
  simpl.
  apply (uploadDirect_keeps_slugs_unique Sample.env Sample.providerB2 Sample.key1
           (Sample.directRequest (Some "Y") None None) Sample.smallWorld w' d).
  - discriminate.
  - unfold UniqueSlugs. simpl. constructor; [intros [] | constructor].
  - exact E.
Defined.

(* ================================================================== *)
(** * The accessible mounts of a basic path, further properties        *)
(* ================================================================== *)

Lemma stripTrailingSlashes_app_slash (s : string) :
  Js.stripTrailingSlashes (s ++ "/") = Js.stripTrailingSlashes s.
Proof.
  induction s as [|c r IH]; [reflexivity|].
  simpl. now rewrite IH.
Qed.

Lemma app_slash_not_slash (s : string) : s <> EmptyString -> (s ++ "/")%string <> "/".
Proof.
  destruct s as [|c r]; [congruence|]. intros _ H. simpl in H.
  injection H as _ H. destruct r; discriminate.
Qed.

(** X22.  A non-public S3 mount is never accessible to an API key, whatever
    its basic path; and the mounts accessible from any basic path are among
    those accessible from the root [/], which are exactly the listed mounts
    that are not S3 mounts of a non-public configuration. *)
Theorem accessible_mounts_within_root (rows : list MountRow) (basicPath : string) :
  (forall m, In m (getAccessibleMountsByBasicPath rows basicPath) ->
             In m (getAccessibleMountsByBasicPath rows "/"))
  /\ (forall m, In m (getAccessibleMountsByBasicPath rows "/")
                <-> In m rows /\ ~ (storage_type m = "S3" /\ is_public m <> Some 1)).
Proof.
  assert (Hroot : forall m, In m (getAccessibleMountsByBasicPath rows "/")
                  <-> In m rows /\ ~ (storage_type m = "S3" /\ is_public m <> Some 1)).
  { intros m. rewrite getAccessibleMountsByBasicPath_spec, mountAccessible_spec.
    split; [intros (H1 & H2 & _); now split | intros [H1 H2]; auto]. }
  split; [|exact Hroot].
  intros m H. apply Hroot.
  apply getAccessibleMountsByBasicPath_spec in H. destruct H as [H1 H2].
  apply mountAccessible_spec in H2. now split.
Qed.

(** X23.  Trailing slashes do not matter to the accessibility test: a slash
    appended to a basic path that is not made of slashes only, or to the
    path of a mount, leaves the answer for every mount as it was. *)
Theorem mountAccessible_trailing_slash (basicPath : string) (m m' : MountRow) :
  Js.stripTrailingSlashes basicPath <> EmptyString ->
  storage_type m' = storage_type m ->
  is_public m' = is_public m ->
  mount_path m' = (mount_path m ++ "/")%string ->
  mountAccessible (basicPath ++ "/") m = mountAccessible basicPath m
  /\ mountAccessible basicPath m' = mountAccessible basicPath m.
Proof.
  intros Hb Ht Hp Hm. split.
  - unfold mountAccessible.
    assert (E1 : String.eqb (basicPath ++ "/") "/" = false).
    { apply String.eqb_neq. apply app_slash_not_slash. intros ->. now apply Hb. }
    assert (E2 : String.eqb basicPath "/" = false).
    { apply String.eqb_neq. intros ->. now apply Hb. }
    now rewrite E1, E2, stripTrailingSlashes_app_slash.
  - unfold mountAccessible, notPublic. now rewrite Ht, Hp, Hm, stripTrailingSlashes_app_slash.
Qed.

Lemma mountAccessible_trailing_slash_witness :
  mountAccessible "/a/" (Sample.mountAt "m" "/a/b") = mountAccessible "/a" (Sample.mountAt "m" "/a/b")
  /\ mountAccessible "/a" (Sample.mountAt "m" "/a/b/")
     = mountAccessible "/a" (Sample.mountAt "m" "/a/b").
Proof.
  apply (mountAccessible_trailing_slash "/a" (Sample.mountAt "m" "/a/b")
           (Sample.mountAt "m" "/a/b/")); [discriminate | reflexivity..].
Defined.

(** X24.  A basic path made of slashes only (the empty path, or two slashes)
    is not the root for the test, yet it opens every mount whose path
    begins with a slash, as the root does: such a mount is accessible
    exactly when it is not an S3 mount of a non-public configuration. *)
Theorem mountAccessible_slashes_only (basicPath : string) (m : MountRow) :
  Js.stripTrailingSlashes basicPath = EmptyString ->
  Js.startsWith (mount_path m) "/" = true ->
  mountAccessible basicPath m = mountAccessible "/" m.
Proof.
  intros Hb Hs.
  assert (Hm : exists r, mount_path m = String "/" r).
  { unfold Js.startsWith in Hs. destruct (mount_path m) as [|c r].
    - vm_compute in Hs. discriminate Hs.
    - destruct (ascii_dec "/" c) as [<-|n]; [now exists r|].
      cbn [String.prefix] in Hs.
      destruct (ascii_dec "/" c); [contradiction | discriminate Hs]. }
  destruct Hm as [r Hm].
  unfold mountAccessible.
  destruct (String.eqb (storage_type m) "S3" && notPublic m); [reflexivity|].
  destruct (String.eqb basicPath "/") eqn:Eb; [reflexivity|].
  rewrite Hb, Hm.
  change (Js.stripTrailingSlashes (String "/" r))
    with (if Ascii.eqb "/" "/" && String.eqb (Js.stripTrailingSlashes r) EmptyString
          then EmptyString else String "/" (Js.stripTrailingSlashes r)).
  destruct (String.eqb (Js.stripTrailingSlashes r) EmptyString) eqn:Er.
  - reflexivity.
  - cbn [Ascii.eqb Bool.eqb andb]. cbn [String.eqb]. 
    cbv beta iota zeta.
    replace (String.eqb EmptyString "/") with false by reflexivity.
    replace (String.eqb (String "/" (Js.stripTrailingSlashes r)) EmptyString)
      with false by reflexivity.
    destruct (Js.stripTrailingSlashes r); [discriminate Er|].
    vm_compute. reflexivity.
Qed.

Lemma mountAccessible_slashes_only_witness :
  mountAccessible "//" (Sample.mountAt "m" "/a/b") = mountAccessible "/" (Sample.mountAt "m" "/a/b").
Proof.
  apply (mountAccessible_slashes_only "//" (Sample.mountAt "m" "/a/b")); reflexivity.
Defined.

(* ================================================================== *)
(** * The removal of the record an override replaces                   *)
(* ================================================================== *)

(** X25.  The removal block of an override is all or nothing on the tables.
    When the deletion in the store throws, nothing is changed: the record,
    its password row and the cache stay.  Otherwise (the configuration of
    the record is gone, or the deletion resolves) the record of that id and
    every password row of it are deleted, all other rows stay, and the cache
    of its configuration is cleared; the object goes when the deletion
    resolves to true. *)
Theorem removeExisting_cascade (env : Env) (existingFile : FileRecord) (w : World) :
  (forall cfg, configById w (f_s3_config_id existingFile) = Some cfg ->
     deleteFileFromS3 env cfg (f_storage_path existingFile) = DeleteThrows ->
     removeExisting env existingFile w = w)
  /\ ((forall cfg, configById w (f_s3_config_id existingFile) = Some cfg ->
         deleteFileFromS3 env cfg (f_storage_path existingFile) <> DeleteThrows) ->
      (forall f, In f (files (removeExisting env existingFile w))
                 <-> In f (files w) /\ f_id f <> f_id existingFile)
      /\ (forall p, In p (file_passwords (removeExisting env existingFile w))
                    <-> In p (file_passwords w) /\ p_file_id p <> f_id existingFile)
      /\ cache_cleared (removeExisting env existingFile w)
         = cache_cleared w ++ [f_s3_config_id existingFile])
  /\ (forall cfg, configById w (f_s3_config_id existingFile) = Some cfg ->
        deleteFileFromS3 env cfg (f_storage_path existingFile) = DeleteOk ->
        ~ In (c_id cfg, f_storage_path existingFile)
             (objects (removeExisting env existingFile w))).
Proof.
  assert (Hf : forall fid fs f,
            In f (deleteFile fid fs) <-> In f fs /\ f_id f <> fid).
  { intros fid fs f. unfold deleteFile. rewrite filter_In, negb_true_iff, String.eqb_neq.
    reflexivity. }
  assert (Hp : forall fid ps p,
            In p (deletePassword fid ps) <-> In p ps /\ p_file_id p <> fid).
  { intros fid ps p. unfold deletePassword. rewrite filter_In, negb_true_iff, String.eqb_neq.
    reflexivity. }
  unfold removeExisting.
  destruct (configById w (f_s3_config_id existingFile)) as [cfg|].
  - destruct (deleteFileFromS3 env cfg (f_storage_path existingFile)) eqn:Ed.
    + refine (conj _ (conj _ _)).
      * intros cfg' H. injection H as <-. congruence.
      * intros _. simpl. refine (conj _ (conj _ _)); [intros f; apply Hf | intros p; apply Hp
                                                     | reflexivity].
      * intros cfg' H _. injection H as <-. simpl. intros Hin.
        apply filter_In in Hin. destruct Hin as [_ Hin]. simpl in Hin.
        now rewrite !String.eqb_refl in Hin.
    + refine (conj _ (conj _ _)).
      * intros cfg' H. injection H as <-. congruence.
      * intros _. simpl. refine (conj _ (conj _ _)); [intros f; apply Hf | intros p; apply Hp
                                                     | reflexivity].
      * intros cfg' H. injection H as <-. congruence.
    + refine (conj _ (conj _ _)).
      * reflexivity.
      * intros H. now elim (H cfg eq_refl).
      * intros cfg' H. injection H as <-. congruence.
  - refine (conj _ (conj _ _)).
    + discriminate.
    + intros _. simpl. refine (conj _ (conj _ _)); [intros f; apply Hf | intros p; apply Hp
                                                   | reflexivity].
    + discriminate.
Qed.

(* ================================================================== *)
(** * API keys: the row a creation stores, and renaming                *)
(* ================================================================== *)

Lemma permissionBit_spec (flag : option bool) :
  (permissionBit flag = 1 /\ flag = Some true)
  \/ (permissionBit flag = 0 /\ flag <> Some true).
Proof. destruct flag as [[|]|]; simpl; [left | right | right]; split; congruence. Qed.

(** X26.  The row a successful [createApiKey] stores is appended to the
    table and is well formed: its name is the trimmed name of the request
    and is not empty, its basic path is the one of the request or the root
    [/] and is not empty, each permission is 1 when the request holds the
    literal [true] for it and 0 otherwise, a custom key string is stored as
    given and is made of letters, digits, dashes and underscores, and the
    expiry is never null. *)
Theorem createApiKey_row_well_formed (env : Env) (w w' : World) (keyData : KeyData)
    (row : ApiKey) :
  createApiKey env w keyData = inr (row, w') ->
  w' = setApiKeys w (api_keys w ++ [row])
  /\ (exists n, kd_name keyData = Some n /\ k_name row = Js.trim n)
  /\ k_name row <> EmptyString
  /\ (kd_basic_path keyData = Some (k_basic_path row) \/ k_basic_path row = "/")
  /\ k_basic_path row <> EmptyString
  /\ ((k_text_permission row = 1 /\ kd_text_permission keyData = Some true)
      \/ (k_text_permission row = 0 /\ kd_text_permission keyData <> Some true))
  /\ ((k_file_permission row = 1 /\ kd_file_permission keyData = Some true)
      \/ (k_file_permission row = 0 /\ kd_file_permission keyData <> Some true))
  /\ ((k_mount_permission row = 1 /\ kd_mount_permission keyData = Some true)
      \/ (k_mount_permission row = 0 /\ kd_mount_permission keyData <> Some true))
  /\ (forall k, kd_custom_key keyData = Some k -> k <> EmptyString ->
                k_key row = k /\ WellFormedSlug k)
  /\ k_expires_at row <> None.
Proof.
  intros H. pose proof (createApiKey_row _ _ _ _ _ H) as (Hw & _ & _ & Hkey & _ & Hfmt).
  split; [exact Hw|]. clear Hw.
  unfold createApiKey in H.
  destruct (kd_name keyData) as [n|] eqn:En; [|discriminate H].
  simpl in H. destruct (String.eqb n EmptyString); [discriminate H|].
  destruct (String.eqb (Js.trim n) EmptyString) eqn:Et; [discriminate H|].
  apply String.eqb_neq in Et.
  match type of H with
  | (if ?b then _ else _) = _ => destruct b; [discriminate H|]
  end.
  destruct (createExpiresAt env (kd_expires_at keyData)) as [e|]; [|discriminate H].
  injection H as <- _. simpl.
  split; [now exists n|]. split; [exact Et|].
  split.
  { destruct (kd_basic_path keyData) as [p|]; simpl; [|now right].
    destruct (String.eqb p EmptyString); [now right | now left]. }
  split.
  { destruct (kd_basic_path keyData) as [p|]; simpl; [|discriminate].
    destruct (String.eqb p EmptyString) eqn:Ep; [discriminate|].
    now apply String.eqb_neq. }
  split; [apply permissionBit_spec|]. split; [apply permissionBit_spec|].
  split; [apply permissionBit_spec|].
  split; [|discriminate].
  intros k Hk Hne. rewrite Hk in *. rewrite (nonEmpty_Some k Hne) in *.
  split; [reflexivity | now apply Hfmt].
Qed.

Lemma createApiKey_row_well_formed_witness :
  exists row w',
    createApiKey Sample.env Sample.keyWorld Sample.defaultKey = inr (row, w')
    /\ k_name row = "tmp" /\ k_basic_path row = "/a"
    /\ k_text_permission row = 0 /\ k_file_permission row = 1.
Proof.
  destruct (createApiKey Sample.env Sample.keyWorld Sample.defaultKey) as [e|[row w']] eqn:E;
    [vm_compute in E; discriminate E|].
  exists row, w'. split; [reflexivity|].
  pose proof (createApiKey_row_well_formed Sample.env Sample.keyWorld w' Sample.defaultKey
                row E) as (_ & (n & Hn & Hname) & _ & Hp & _ & Ht & Hf & _).
  injection Hn as <-.
  split; [exact Hname|].
  split; [destruct Hp as [Hp|Hp]; [now injection Hp | vm_compute in E; now injection E as <-]|].
  split; [destruct Ht as [[_ Ht]|[Ht _]]; [discriminate Ht | exact Ht]|].
  destruct Hf as [[Hf _]|[_ Hf]]; [exact Hf | now elim Hf].
Defined.

(** X27.  Renaming a key.  After a successful [updateApiKey] with a name,
    every row with the id carries the trimmed name.  A name that is not
    empty is not blank after trimming, and when it differs from the old
    name no row with another id carries the trimmed name.  The empty name
    is not refused: it counts as a supplied field, skips both name checks,
    and blanks the name of the key. *)
Theorem updateApiKey_rename (env : Env) (w : World) (id : string)
    (updateData : UpdateData) (n : string) :
  ud_name updateData = Some n ->
  (forall w', updateApiKey env w id updateData = inr w' ->
     (forall k, In k (api_keys w') -> k_id k = id -> k_name k = Js.trim n)
     /\ (n <> EmptyString -> Js.trim n <> EmptyString)
     /\ (n <> EmptyString ->
         forall old, find (fun k => String.eqb (k_id k) id) (api_keys w) = Some old ->
                     n <> k_name old ->
                     forall k, In k (api_keys w') -> k_id k <> id -> k_name k <> Js.trim n))
  /\ (n = EmptyString ->
      forall old expiresAt,
        find (fun k => String.eqb (k_id k) id) (api_keys w) = Some old ->
        updateExpiresAt env (ud_expires_at updateData) = inr expiresAt ->
        exists w', updateApiKey env w id updateData = inr w'
                   /\ forall k, In k (api_keys w') -> k_id k = id -> k_name k = EmptyString).
Proof.
  intros Hn. split.
  - intros w' H. unfold updateApiKey in H. rewrite Hn in H.
    destruct (find (fun k => String.eqb (k_id k) id) (api_keys w)) as [old|] eqn:F;
      [|discriminate H].
    destruct (match nonEmpty (Some n) with
              | Some n0 => String.eqb (Js.trim n0) EmptyString
              | None => false
              end) eqn:E1; [discriminate H|].
    destruct (match nonEmpty (Some n) with
              | Some n0 =>
                  negb (String.eqb n0 (k_name old))
                  && match find (fun k => String.eqb (k_name k) (Js.trim n0)
                                          && negb (String.eqb (k_id k) id)) (api_keys w) with
                     | Some _ => true
                     | None => false
                     end
              | None => false
              end) eqn:E2; [discriminate H|].
    destruct (updateExpiresAt env (ud_expires_at updateData)) as [e|expiresAt];
      [discriminate H|].
    injection H as <-. simpl.
    refine (conj _ (conj _ _)).
    + intros k Hin Hid. apply in_map_iff in Hin. destruct Hin as (k0 & Hk & _).
      destruct (String.eqb (k_id k0) id) eqn:E; subst k; [reflexivity|].
      apply String.eqb_neq in E. contradiction.
    + intros Hne. rewrite (nonEmpty_Some n Hne) in E1. now apply String.eqb_neq.
    + intros Hne old' Hold Hdiff k Hin Hid. injection Hold as <-.
      rewrite (nonEmpty_Some n Hne) in E2.
      apply String.eqb_neq in Hdiff. rewrite Hdiff in E2. simpl in E2.
      destruct (find (fun k => String.eqb (k_name k) (Js.trim n)
                               && negb (String.eqb (k_id k) id)) (api_keys w)) eqn:F2;
        [discriminate E2|].
      apply in_map_iff in Hin. destruct Hin as (k0 & Hk & Hin0).
      destruct (String.eqb (k_id k0) id) eqn:E.
      * subst k. simpl in Hid. apply String.eqb_eq in E. contradiction.
      * subst k0. pose proof (find_none _ _ F2 k Hin0) as Hx. simpl in Hx.
        rewrite E in Hx. simpl in Hx. rewrite andb_true_r in Hx.
        now apply String.eqb_neq.
  - intros -> old expiresAt F He. unfold updateApiKey. rewrite Hn, F, He. simpl.
    eexists. split; [reflexivity|]. simpl.
    intros k Hin Hid. apply in_map_iff in Hin. destruct Hin as (k0 & Hk & _).
    destruct (String.eqb (k_id k0) id) eqn:E; subst k; [reflexivity|].
    apply String.eqb_neq in E. contradiction.
Qed.

Lemma updateApiKey_rename_witness :
  exists w',
    updateApiKey Sample.env Sample.keyWorld "k-live"
      (mkUpdateData (Some " ops ") None None None None Js.Undefined) = inr w'
    /\ forall k, In k (api_keys w') -> k_id k = "k-live" -> k_name k = "ops".
Proof.
  destruct (updateApiKey Sample.env Sample.keyWorld "k-live"
              (mkUpdateData (Some " ops ") None None None None Js.Undefined))
    as [e|w'] eqn:E; [vm_compute in E; discriminate E|].
  exists w'. split; [reflexivity|].
  exact (proj1 (proj1 (updateApiKey_rename Sample.env Sample.keyWorld "k-live"
                         (mkUpdateData (Some " ops ") None None None None Js.Undefined)
                         " ops " eq_refl) w' E)).
Defined.
